(** * Hotel recommendation service

    A shallow embedding of [logic.py], [models.py], [db.py], the endpoints
    of [main.py] and the seeding script [seed_db.py].

    Python [float] is IEEE 754 binary64, modelled by Rocq's primitive
    [float]; [str] is modelled by [string]; [Optional[str]] by
    [option string].  Library functions whose tables are not part of the
    repository ([str.lower], [str.strip], the formatting of a float inside an
    f-string, [json.loads], pydantic's validation, the module [random]) and
    the two remote services (the text-generation API and the hotel store) are
    parameters of the development. *)

From Stdlib Require Import ZArith List String Ascii Bool Lia Floats.
From Stdlib Require Import DecimalString Permutation Sorted Reals Lra.
Import ListNotations.

Local Open Scope string_scope.
Local Open Scope list_scope.

(** ** Python builtins on strings *)

(** [s.startswith(p)] *)
Fixpoint startswith (p s : string) : bool :=
  match p, s with
  | EmptyString, _ => true
  | String _ _, EmptyString => false
  | String a p', String b s' => Ascii.eqb a b && startswith p' s'
  end.

(** [needle in hay] on strings: some suffix of [hay] starts with [needle]. *)
Fixpoint str_in (needle hay : string) : bool :=
  startswith needle hay ||
  match hay with
  | EmptyString => false
  | String _ hay' => str_in needle hay'
  end.

(** [x in l] on a list of strings. *)
Fixpoint list_in (x : string) (l : list string) : bool :=
  match l with
  | [] => false
  | y :: l' => String.eqb x y || list_in x l'
  end.

(** Truthiness of a string and of an optional string ([None] and [""] are
    falsy). *)
Definition str_truthy (s : string) : bool :=
  match s with EmptyString => false | String _ _ => true end.

Definition truthy (o : option string) : bool :=
  match o with None => false | Some s => str_truthy s end.

(** [sep.join(l)] *)
Fixpoint join (sep : string) (l : list string) : string :=
  match l with
  | [] => ""
  | [x] => x
  | x :: l' => x ++ sep ++ join sep l'
  end.

Definition newline : ascii := ascii_of_nat 10.
Definition nl : string := String newline EmptyString.

(** [s.replace("\n", " ")] *)
Fixpoint replace_newlines (s : string) : string :=
  match s with
  | EmptyString => EmptyString
  | String c s' =>
      String (if Ascii.eqb c newline then " "%char else c) (replace_newlines s')
  end.

(** [text[7:-3]] *)
Definition slice_7_m3 (text : string) : string :=
  substring 7 (String.length text - 3 - 7) text.

(** [str(n)] for a non-negative [int]. *)
Definition str_of_nat (n : nat) : string :=
  NilZero.string_of_uint (Nat.to_uint n).

(** The reading of an ASCII-only [str.lower] and [str.strip], used to run the
    definitions on concrete inputs. *)
Definition ascii_lower_char (c : ascii) : ascii :=
  let n := nat_of_ascii c in
  if (65 <=? n)%nat && (n <=? 90)%nat then ascii_of_nat (n + 32) else c.

Fixpoint ascii_lower (s : string) : string :=
  match s with
  | EmptyString => EmptyString
  | String c s' => String (ascii_lower_char c) (ascii_lower s')
  end.

Definition is_space (c : ascii) : bool :=
  let n := nat_of_ascii c in
  ((9 <=? n)%nat && (n <=? 13)%nat) || ((28 <=? n)%nat && (n <=? 32)%nat).

Fixpoint lstrip (s : string) : string :=
  match s with
  | EmptyString => EmptyString
  | String c s' => if is_space c then lstrip s' else s
  end.

Fixpoint rstrip (s : string) : string :=
  match s with
  | EmptyString => EmptyString
  | String c s' =>
      match rstrip s' with
      | EmptyString => if is_space c then EmptyString else String c EmptyString
      | r => String c r
      end
  end.

Definition ascii_strip (s : string) : string := rstrip (lstrip s).

(** ** Python [float] *)

Local Open Scope float_scope.

(** [float(n)] for an [int]: the nearest binary64, ties to even. *)
Definition float_of_Z (z : Z) : float :=
  SF2Prim (binary_normalize prec emax z 0 false).

Definition float_of_nat (n : nat) : float := float_of_Z (Z.of_nat n).

(** [min(x, y)] on two floats: [y] is taken only when [y < x]. *)
Definition py_min (x y : float) : float := if y <? x then y else x.

(** Quotient of [n] by [d > 0] rounded to the nearest integer, ties to even. *)
Definition rne_div (n d : Z) : Z :=
  let q := (n / d)%Z in
  let r := (n mod d)%Z in
  match (2 * r ?= d)%Z with
  | Lt => q
  | Gt => (q + 1)%Z
  | Eq => if Z.even q then q else (q + 1)%Z
  end.

(** Ten times the magnitude [m * 2^e], rounded to the nearest integer, ties to
    even. *)
Definition tenths (m : positive) (e : Z) : Z :=
  match e with
  | Zneg p => rne_div (10 * Zpos m) (2 ^ Zpos p)
  | _ => (10 * Zpos m * 2 ^ e)%Z
  end.

(** [round(x, 1)]: NaN, infinities and zeros round to themselves; a finite
    [x] is rounded, on its exact value and ties to even, to one digit after
    the decimal point, and the result is the binary64 nearest to that
    decimal, with the sign of [x]. *)
Definition round1 (x : float) : float :=
  match Prim2SF x with
  | S754_finite s m e =>
      match tenths m e with
      | Zpos r =>
          SF2Prim (SFdiv prec emax (S754_finite s r 0) (S754_finite false 10 0))
      | _ => SF2Prim (S754_zero s)
      end
  | _ => x
  end.

(** ** [list.sort]

    [l.sort(key=key, reverse=True)] as CPython 3.11 carries it out: the list
    is reversed, sorted in ascending order and reversed again.  The
    ascending sort marches over the list; it finds the run at the head of
    what is left, reverses it when it is strictly descending, extends it by
    binary insertion when it is shorter than [minrun], merges the pending
    runs that the new one makes ripe, and pushes it.  A list of fewer than
    64 elements is a single run.  Keys are compared with [<] only, so that
    the result is determined also when a key is NaN and every comparison
    with it fails. *)

(** How far a run that does not descend, and a run that strictly descends,
    goes on in [l] after the element [prev]. *)
Fixpoint ascending_run {A : Type} (key : A -> float) (prev : A) (l : list A) : nat :=
  match l with
  | [] => O
  | x :: l' => if key x <? key prev then O else S (ascending_run key x l')
  end.

Fixpoint descending_run {A : Type} (key : A -> float) (prev : A) (l : list A) : nat :=
  match l with
  | [] => O
  | x :: l' => if key x <? key prev then S (descending_run key x l') else O
  end.

(** [count_run]: the length of the run at the head of [l], and whether it is
    a descending one. *)
Definition count_run {A : Type} (key : A -> float) (l : list A) : nat * bool :=
  match l with
  | [] => (O, false)
  | [x] => (1%nat, false)
  | x :: (y :: l') as rest =>
      if key y <? key x
      then (S (S (descending_run key y l')), true)
      else (S (S (ascending_run key y l')), false)
  end.

(** The binary search of [binarysort] for the place of [pivot] between the
    positions [l] and [r] of [sorted]; [steps] bounds the iterations, and the
    length of [sorted] is enough. *)
Fixpoint bisect {A : Type} (key : A -> float) (steps : nat) (sorted : list A)
    (pivot : A) (l r : nat) : nat :=
  match steps with
  | O => l
  | S steps' =>
      if (l <? r)%nat then
        let p := (l + (r - l) / 2)%nat in
        match nth_error sorted p with
        | Some y =>
            if key pivot <? key y
            then bisect key steps' sorted pivot l p
            else bisect key steps' sorted pivot (S p) r
        | None => l
        end
      else l
  end.

Definition binary_insert {A : Type} (key : A -> float) (sorted : list A)
    (pivot : A) : list A :=
  let l := bisect key (List.length sorted) sorted pivot O (List.length sorted) in
  (firstn l sorted ++ pivot :: skipn l sorted)%list.

(** [binarysort]: the elements of [rest] inserted one after the other. *)
Definition binarysort {A : Type} (key : A -> float) (sorted rest : list A)
    : list A :=
  fold_left (binary_insert key) rest sorted.

(** [gallop_left] and [gallop_right]: the place of a key in a sorted slice of
    [n] elements, searched from the position [hint].  [P i] is the answer
    of the comparison that tells whether the key belongs before the element
    at position [i]: [key < a[i]] for [gallop_right] and [not (a[i] < key)]
    for [gallop_left].  The offset from [hint] is doubled, to the left when
    [P hint] and to the right otherwise, until the answer changes or the end
    of the slice is reached ([gallop_loop]), and a binary search between the
    last two offsets ends the search ([bsearch]).  The loops run at most
    [maxofs] and [hi - lo] times, which is the fuel they are given. *)
Fixpoint gallop_loop (fuel : nat) (stop : nat -> bool) (maxofs lastofs ofs : nat)
    : nat * nat :=
  match fuel with
  | O => (lastofs, ofs)
  | S fuel' =>
      if (ofs <? maxofs)%nat then
        if stop ofs then (lastofs, ofs)
        else gallop_loop fuel' stop maxofs ofs (2 * ofs + 1)%nat
      else (lastofs, ofs)
  end.

Fixpoint bsearch (fuel : nat) (P : nat -> bool) (lo hi : nat) : nat :=
  match fuel with
  | O => hi
  | S fuel' =>
      if (lo <? hi)%nat then
        let m := (lo + (hi - lo) / 2)%nat in
        if P m then bsearch fuel' P lo m else bsearch fuel' P (S m) hi
      else hi
  end.

Definition gallop (P : nat -> bool) (n hint : nat) : nat :=
  let '(lo, hi) :=
    if P hint then
      let '(lastofs, ofs) :=
        gallop_loop (S hint) (fun ofs => negb (P (hint - ofs)%nat)) (S hint) 0%nat 1%nat in
      let ofs := Nat.min ofs (S hint) in
      (S hint - ofs, hint - lastofs)%nat
    else
      let '(lastofs, ofs) :=
        gallop_loop (n - hint)%nat (fun ofs => P (hint + ofs)%nat) (n - hint)%nat 0%nat 1%nat in
      let ofs := Nat.min ofs (n - hint)%nat in
      (lastofs + hint + 1, ofs + hint)%nat in
  bsearch (hi - lo)%nat P lo hi.

Section Timsort.

Context {A : Type} (key : A -> float).

Definition gallop_right (x : A) (a : list A) (hint : nat) : nat :=
  gallop (fun i => (key x <? key (nth i a x))%float) (List.length a) hint.

Definition gallop_left (x : A) (a : list A) (hint : nat) : nat :=
  gallop (fun i => negb (key (nth i a x) <? key x)%float) (List.length a) hint.

Definition MIN_GALLOP : nat := 7%nat.

(** A merge returns the merged run and the value it leaves in
    [ms->min_gallop]; [cons1] and [app1] put elements in front of the
    run. *)
Definition cons1 (x : A) (r : list A * nat) : list A * nat := (x :: fst r, snd r).
Definition app1 (l : list A) (r : list A * nat) : list A * nat := (l ++ fst r, snd r).

(** [merge_lo], the merge from the left of the runs [a] and [b]: one round
    of its first loop, which takes one element at a time until one run has
    won [min_gallop] times in a row, and one round of its second loop, which
    takes as many elements of [a] and then of [b] as a gallop finds.  [next]
    is what follows: [next galloping min_gallop acount bcount a b].  The
    labels [Succeed] and [CopyB] of the source are the branches that return
    without calling [next]: what is left of [a], or what is left of [b]
    followed by the last element of [a]. *)
Definition merge_lo_straight
    (next : bool -> nat -> nat -> nat -> list A -> list A -> list A * nat)
    (min_gallop acount bcount : nat) (a b : list A) : list A * nat :=
  match a, b with
  | x :: a', y :: b' =>
      if (key y <? key x)%float then
        cons1 y
          match b' with
          | [] => (a, min_gallop)
          | _ :: _ =>
              if (min_gallop <=? S bcount)%nat
              then next true (S min_gallop) O O a b'
              else next false min_gallop O (S bcount) a b'
          end
      else
        cons1 x
          (if (List.length a' =? 1)%nat
           then (b ++ a', min_gallop)
           else if (min_gallop <=? S acount)%nat
           then next true (S min_gallop) O O a' b
           else next false min_gallop (S acount) O a' b)
  | _, _ => (a ++ b, min_gallop)
  end.

Definition merge_lo_gallop
    (next : bool -> nat -> nat -> nat -> list A -> list A -> list A * nat)
    (min_gallop : nat) (a b : list A) : list A * nat :=
  match b with
  | [] => (a, min_gallop)
  | y :: b' =>
      let min_gallop := (min_gallop - (if (1 <? min_gallop)%nat then 1 else 0))%nat in
      let k := gallop_right y a 0%nat in
      let a1 := skipn k a in
      if (0 <? k)%nat && (List.length a1 =? 1)%nat
      then (firstn k a ++ b ++ a1, min_gallop)
      else if (0 <? k)%nat && (List.length a1 =? 0)%nat
      then (firstn k a ++ b, min_gallop)
      else
        app1 (firstn k a)
          (cons1 y
             match b', a1 with
             | [], _ => (a1, min_gallop)
             | _, [] => (b', min_gallop)
             | _ :: _, x1 :: a1' =>
                 let k' := gallop_left x1 b' 0%nat in
                 let b1 := skipn k' b' in
                 app1 (firstn k' b')
                   match b1 with
                   | [] => (a1, min_gallop)
                   | _ :: _ =>
                       cons1 x1
                         (if (List.length a1' =? 1)%nat
                          then (b1 ++ a1', min_gallop)
                          else if (MIN_GALLOP <=? k)%nat || (MIN_GALLOP <=? k')%nat
                          then next true min_gallop O O a1' b1
                          else next false (S min_gallop) O O a1' b1)
                   end
             end)
  end.

(** Every round takes an element or more: the number of elements is fuel
    enough. *)
Fixpoint merge_lo_loop (fuel : nat) (galloping : bool)
    (min_gallop acount bcount : nat) (a b : list A) : list A * nat :=
  match fuel with
  | O => (a ++ b, min_gallop)
  | S fuel' =>
      if galloping
      then merge_lo_gallop (merge_lo_loop fuel') min_gallop a b
      else merge_lo_straight (merge_lo_loop fuel') min_gallop acount bcount a b
  end.

Definition merge_lo (min_gallop : nat) (a b : list A) : list A * nat :=
  match b with
  | [] => (a, min_gallop)
  | y :: b' =>
      cons1 y
        match b' with
        | [] => (a, min_gallop)
        | _ :: _ =>
            if (List.length a =? 1)%nat then (b' ++ a, min_gallop)
            else merge_lo_loop (List.length a + List.length b')%nat false min_gallop O O a b'
        end
  end.

(** [merge_hi], the merge from the right, on the reversed runs [ra] and
    [rb]: what it returns is the reversed result. *)
Definition merge_hi_straight
    (next : bool -> nat -> nat -> nat -> list A -> list A -> list A * nat)
    (min_gallop acount bcount : nat) (ra rb : list A) : list A * nat :=
  match ra, rb with
  | x :: ra', y :: rb' =>
      if (key y <? key x)%float then
        cons1 x
          match ra' with
          | [] => (rb, min_gallop)
          | _ :: _ =>
              if (min_gallop <=? S acount)%nat
              then next true (S min_gallop) O O ra' rb
              else next false min_gallop (S acount) O ra' rb
          end
      else
        cons1 y
          (if (List.length rb' =? 1)%nat
           then (ra ++ rb', min_gallop)
           else if (min_gallop <=? S bcount)%nat
           then next true (S min_gallop) O O ra rb'
           else next false min_gallop O (S bcount) ra rb')
  | _, _ => (rb ++ ra, min_gallop)
  end.

Definition merge_hi_gallop
    (next : bool -> nat -> nat -> nat -> list A -> list A -> list A * nat)
    (min_gallop : nat) (ra rb : list A) : list A * nat :=
  match rb with
  | [] => (ra, min_gallop)
  | y :: rb' =>
      let min_gallop := (min_gallop - (if (1 <? min_gallop)%nat then 1 else 0))%nat in
      let na := List.length ra in
      let k := (na - gallop_right y (rev ra) (na - 1))%nat in
      let ra1 := skipn k ra in
      if (0 <? k)%nat && (List.length ra1 =? 0)%nat
      then (firstn k ra ++ rb, min_gallop)
      else
        app1 (firstn k ra)
          (cons1 y
             (if (List.length rb' =? 1)%nat then (ra1 ++ rb', min_gallop)
              else
                match ra1, rb' with
                | [], _ => (rb', min_gallop)
                | _, [] => (ra1, min_gallop)
                | x1 :: ra1', _ :: _ =>
                    let nb := List.length rb' in
                    let k' := (nb - gallop_left x1 (rev rb') (nb - 1))%nat in
                    let rb1 := skipn k' rb' in
                    if (0 <? k')%nat && (List.length rb1 =? 1)%nat
                    then (firstn k' rb' ++ ra1 ++ rb1, min_gallop)
                    else if (0 <? k')%nat && (List.length rb1 =? 0)%nat
                    then (firstn k' rb' ++ ra1, min_gallop)
                    else
                      app1 (firstn k' rb')
                        (cons1 x1
                           match ra1' with
                           | [] => (rb1, min_gallop)
                           | _ :: _ =>
                               if (MIN_GALLOP <=? k)%nat || (MIN_GALLOP <=? k')%nat
                               then next true min_gallop O O ra1' rb1
                               else next false (S min_gallop) O O ra1' rb1
                           end)
                end))
  end.

Fixpoint merge_hi_loop (fuel : nat) (galloping : bool)
    (min_gallop acount bcount : nat) (ra rb : list A) : list A * nat :=
  match fuel with
  | O => (rb ++ ra, min_gallop)
  | S fuel' =>
      if galloping
      then merge_hi_gallop (merge_hi_loop fuel') min_gallop ra rb
      else merge_hi_straight (merge_hi_loop fuel') min_gallop acount bcount ra rb
  end.

Definition merge_hi (min_gallop : nat) (a b : list A) : list A * nat :=
  let rb := rev b in
  let r :=
    match rev a with
    | [] => (rb, min_gallop)
    | x :: ra' =>
        cons1 x
          match ra' with
          | [] => (rb, min_gallop)
          | _ :: _ =>
              if (List.length rb =? 1)%nat then (ra' ++ rb, min_gallop)
              else merge_hi_loop (List.length ra' + List.length rb)%nat false
                     min_gallop O O ra' rb
          end
    end in
  (rev (fst r), snd r).

(** [merge_at]: the merge of two adjacent runs.  The elements of [a] that
    belong before the first one of [b], and those of [b] that belong after
    the last one of [a], stay where they are; what is between them is merged
    from the left when [a] is the shorter part and from the right
    otherwise. *)
Definition merge_at (min_gallop : nat) (a b : list A) : list A * nat :=
  match b with
  | [] => (a, min_gallop)
  | y :: _ =>
      let k := gallop_right y a 0%nat in
      let a1 := skipn k a in
      match rev a1 with
      | [] => (a ++ b, min_gallop)
      | z :: _ =>
          let nb := gallop_left z b (List.length b - 1)%nat in
          if (nb =? 0)%nat then (a ++ b, min_gallop)
          else
            let b1 := firstn nb b in
            let r := if (List.length a1 <=? List.length b1)%nat
                     then merge_lo min_gallop a1 b1
                     else merge_hi min_gallop a1 b1 in
            (firstn k a ++ fst r ++ skipn nb b, snd r)
      end
  end.

(** [merge_compute_minrun]: the length below which a run is extended; [n]
    itself below 64. *)
Fixpoint minrun_loop (fuel n r : nat) : nat :=
  match fuel with
  | O => (n + r)%nat
  | S fuel' =>
      if (64 <=? n)%nat then minrun_loop fuel' (n / 2)%nat (Nat.max r (n mod 2)%nat)
      else (n + r)%nat
  end.

Definition merge_compute_minrun (n : nat) : nat := minrun_loop n n 0%nat.

(** [powerloop]: the first bit at which the binary expansions of the
    midpoints of two adjacent runs, divided by [n], differ. *)
Fixpoint powerloop_loop (fuel : nat) (a b n result : nat) : nat :=
  match fuel with
  | O => result
  | S fuel' =>
      let result := S result in
      if (n <=? a)%nat then powerloop_loop fuel' (2 * (a - n))%nat (2 * (b - n))%nat n result
      else if (n <=? b)%nat then result
      else powerloop_loop fuel' (2 * a)%nat (2 * b)%nat n result
  end.

Definition powerloop (s1 n1 n2 n : nat) : nat :=
  let a := (2 * s1 + n1)%nat in
  let b := (a + n1 + n2)%nat in
  powerloop_loop (S n) a b n 0%nat.

(** The stack of pending runs, the last one found first, each with its
    power.  Before a run of [n2] elements that starts at the position [s] of
    a list of [n] elements is pushed, [found_new_run] computes the power of
    the run on top and merges it with the runs below of a greater power. *)
Fixpoint found_new_run_loop (fuel : nat) (power : nat) (top : list A)
    (below : list (list A * nat)) (min_gallop : nat)
    : list A * list (list A * nat) * nat :=
  match fuel, below with
  | S fuel', (run, p) :: below' =>
      if (power <? p)%nat then
        let r := merge_at min_gallop run top in
        found_new_run_loop fuel' power (fst r) below' (snd r)
      else (top, below, min_gallop)
  | _, _ => (top, below, min_gallop)
  end.

Definition found_new_run (pending : list (list A * nat)) (min_gallop s n2 n : nat)
    : list (list A * nat) * nat :=
  match pending with
  | [] => ([], min_gallop)
  | (top, _) :: below =>
      let n1 := List.length top in
      let power := powerloop (s - n1)%nat n1 n2 n in
      let '(top, below, min_gallop) :=
        found_new_run_loop (List.length below) power top below min_gallop in
      ((top, power) :: below, min_gallop)
  end.

(** [merge_force_collapse]: the runs that are left are merged, the two on
    top, or the two below the top when the third is shorter than the
    first. *)
Fixpoint merge_force_collapse (fuel : nat) (pending : list (list A * nat))
    (min_gallop : nat) : list (list A * nat) * nat :=
  match fuel with
  | O => (pending, min_gallop)
  | S fuel' =>
      match pending with
      | (r0, p0) :: (r1, p1) :: (r2, p2) :: below =>
          if (List.length r2 <? List.length r0)%nat then
            let r := merge_at min_gallop r2 r1 in
            merge_force_collapse fuel' ((r0, p0) :: (fst r, p2) :: below) (snd r)
          else
            let r := merge_at min_gallop r1 r0 in
            merge_force_collapse fuel' ((fst r, p1) :: (r2, p2) :: below) (snd r)
      | [(r0, p0); (r1, p1)] =>
          let r := merge_at min_gallop r1 r0 in
          merge_force_collapse fuel' [(fst r, p1)] (snd r)
      | _ => (pending, min_gallop)
      end
  end.

(** The march over the list that finds the runs: [rest] is what is left of
    the list, and [s] the number of elements before it. *)
Fixpoint runs_loop (fuel : nat) (n minrun : nat) (pending : list (list A * nat))
    (min_gallop s : nat) (rest : list A) : list (list A * nat) * nat :=
  match fuel with
  | O => (pending, min_gallop)
  | S fuel' =>
      match rest with
      | [] => (pending, min_gallop)
      | _ :: _ =>
          let (cnt, descending) := count_run key rest in
          let run := if descending then rev (firstn cnt rest) else firstn cnt rest in
          let force := if (cnt <? minrun)%nat
                       then Nat.min minrun (List.length rest) else cnt in
          let run := binarysort key run (firstn (force - cnt)%nat (skipn cnt rest)) in
          let (pending, min_gallop) := found_new_run pending min_gallop s force n in
          runs_loop fuel' n minrun ((run, O) :: pending) min_gallop (s + force)%nat
            (skipn force rest)
      end
  end.

(** The ascending sort: the runs are found, merged as they come, and what
    is left of them is merged at the end. *)
Definition timsort (l : list A) : list A :=
  let n := List.length l in
  if (n <? 2)%nat then l
  else
    let (pending, min_gallop) :=
      runs_loop n n (merge_compute_minrun n) [] MIN_GALLOP 0%nat l in
    let (pending, _) := merge_force_collapse (List.length pending) pending min_gallop in
    List.concat (rev (map fst pending)).

End Timsort.

(** [l.sort(key=key, reverse=True)] *)
Definition sort_desc {A : Type} (key : A -> float) (l : list A) : list A :=
  rev (timsort key (rev l)).

(** ** models.py *)

Module Models.

Record Hotel := {
  id : Z;
  name : string;
  location : string;
  price : float;
  rating : float;
  amenities : list string;
  description : string
}.

Record UserPreference := {
  pref_location : option string;
  min_price : float;
  max_price : float;
  required_amenities : list string;
  trip_description : option string
}.

Record RecommendationResponse := {
  hotel : Hotel;
  score : float;
  reasoning : string
}.

End Models.
Import Models.

(** Values produced by [json.loads]. *)
#[warnings="-register-all"]
Inductive json :=
| JNull
| JBool (b : bool)
| JInt (z : Z)
| JFloat (f : float)
| JStr (s : string)
| JArr (items : list json)
| JObj (fields : list (string * json)).

(** [d.get(key)] on the fields of a JSON object: the value, or nothing. *)
Fixpoint dict_get (key : string) (fields : list (string * json)) : option json :=
  match fields with
  | [] => None
  | (k, v) :: rest => if String.eqb k key then Some v else dict_get key rest
  end.

(** [d.get(key, default)] *)
Definition dict_get_default (key : string) (default : json)
    (fields : list (string * json)) : json :=
  match dict_get key fields with
  | Some v => v
  | None => default
  end.

(** One entry of the list [rerank_hotels] returns: a dict with the keys
    ['hotel'], ['score'] and ['reasoning'], the last two as the remote reply
    gave them. *)
Record Ranked := {
  r_hotel : Hotel;
  r_score : json;
  r_reasoning : json
}.

(** ** logic.py *)

Section Logic.

(** [str.lower], [str.strip], and the text an f-string gives a float. *)
Variable lower : string -> string.
Variable strip : string -> string.
Variable repr_float : float -> string.

(** [json.loads]: the parsed value, or [None] when it raises. *)
Variable json_loads : string -> option json.

(** The environment: [GEMINI_API_KEY], and the remote text generation as a
    transition on the state of the outside world.  [generate_content w prompt]
    is [response.text] of [model.generate_content(prompt)], or [None] when
    the call or the access to the text raises. *)
Variable World : Type.
Variable API_KEY : option string.
Variable generate_content : World -> string -> option string * World.

(** The inner loop of [filter_hotels] over the requested amenities, with its
    [break]. *)
Fixpoint missing_amenity_loop (amenities : list string)
    (hotel_amenities_lower : list string) : bool :=
  match amenities with
  | [] => false
  | required_amenity :: rest =>
      if negb (list_in (lower required_amenity) hotel_amenities_lower)
      then true
      else missing_amenity_loop rest hotel_amenities_lower
  end.

(** The body of the loop of [filter_hotels]: [true] when the hotel reaches
    [filtered_hotels.append(hotel)], [false] on a [continue]. *)
Definition filter_keeps (location : option string) (min_price max_price : float)
    (amenities : list string) (hotel : Hotel) : bool :=
  if match location with
     | Some loc => str_truthy loc && negb (str_in (lower loc) (lower hotel.(Models.location)))
     | None => false
     end
  then false
  else if negb ((min_price <=? hotel.(price)) && (hotel.(price) <=? max_price))
  then false
  else if match amenities with
          | [] => false
          | _ :: _ =>
              let hotel_amenities_lower := map lower hotel.(Models.amenities) in
              missing_amenity_loop amenities hotel_amenities_lower
          end
  then false
  else true.

Fixpoint filter_hotels_loop (hotels : list Hotel) (location : option string)
    (min_price max_price : float) (amenities : list string)
    (filtered_hotels : list Hotel) : list Hotel :=
  match hotels with
  | [] => filtered_hotels
  | hotel :: rest =>
      if filter_keeps location min_price max_price amenities hotel
      then filter_hotels_loop rest location min_price max_price amenities
             (filtered_hotels ++ [hotel])
      else filter_hotels_loop rest location min_price max_price amenities
             filtered_hotels
  end.

Definition filter_hotels (hotels : list Hotel) (location : option string)
    (min_price max_price : float) (amenities : list string) : list Hotel :=
  filter_hotels_loop hotels location min_price max_price amenities [].

(** [filter_hotels] called with its default arguments. *)
Definition filter_hotels_default (hotels : list Hotel) : list Hotel :=
  filter_hotels hotels None 0 10000 [].

Definition calculate_recommendation_score (hotel : Hotel)
    (user_pref : UserPreference) : float :=
  let score := 0 in
  let score :=
    if 0 <? user_pref.(max_price) then
      let price_ratio := hotel.(price) / user_pref.(max_price) in
      if price_ratio <=? 1 then score + 40 else score
    else score in
  let score := score + (hotel.(rating) / 5) * 30 in
  let amenity_count := List.length hotel.(amenities) in
  let score := score + py_min (float_of_nat amenity_count * 6) 30 in
  round1 score.

(** The text an f-string gives an optional string. *)
Definition str_of_opt (o : option string) : string :=
  match o with None => "None" | Some s => s end.

(** The template sentence of [generate_recommendation_reason]. *)
Definition fallback_reason (hotel : Hotel) : string :=
  "This hotel is a great match located in " ++ hotel.(location) ++
  " with a rating of " ++ repr_float hotel.(rating) ++ ". " ++
  "It costs $" ++ repr_float hotel.(price) ++ " per night.".

Definition reason_prompt (hotel : Hotel) (user_pref : UserPreference) : string :=
  "Explain why '" ++ hotel.(name) ++ "' is a good recommendation for a traveler " ++
  "looking for a hotel in " ++ str_of_opt user_pref.(pref_location) ++
  " with a budget of $" ++ repr_float user_pref.(max_price) ++ ". " ++
  "The hotel costs $" ++ repr_float hotel.(price) ++ ", has a " ++
  repr_float hotel.(rating) ++ " star rating, and these amenities: " ++
  join ", " hotel.(amenities) ++ ". " ++
  "Keep it persuasive but short (under 50 words).".

Definition generate_recommendation_reason (w : World) (hotel : Hotel)
    (user_pref : UserPreference) (score : float) : string * World :=
  let fallback_reason := fallback_reason hotel in
  if truthy API_KEY then
    match generate_content w (reason_prompt hotel user_pref) with
    | (Some text, w') =>
        if str_truthy text
        then (strip (replace_newlines text), w')
        else (fallback_reason, w')
    | (None, w') => (fallback_reason, w')
    end
  else (fallback_reason, w).

(** The loop of [rerank_hotels] that lists the candidates. *)
Fixpoint candidates_text_loop (i : nat) (hotels : list Hotel)
    (candidates_text : string) : string :=
  match hotels with
  | [] => candidates_text
  | h :: rest =>
      candidates_text_loop (S i) rest
        (candidates_text ++
         "Hotel " ++ str_of_nat i ++ ": " ++ h.(name) ++
         " ($" ++ repr_float h.(price) ++ ", " ++ repr_float h.(rating) ++
         " stars). Amenities: " ++ join ", " h.(amenities) ++
         ". Loc: " ++ h.(location) ++ "." ++ nl)
  end.

Definition rerank_prompt (user_pref : UserPreference)
    (candidates_text : string) : string :=
  "User is looking for: '" ++ str_of_opt user_pref.(trip_description) ++ "'." ++ nl ++
  "Here are the candidates:" ++ nl ++ candidates_text ++ nl ++
  "Task: Rank these hotels from best to worst match for the user's specific request. " ++
  "Return a JSON array where each object has: 'index' (int), 'score' (0-100), and 'reasoning' (max 20 words). " ++
  "The JSON should be the only output.".

(** [for rank in rankings]: the items the loop visits, or [None] when the
    value is not iterable (TypeError).  A dict yields its keys and a string
    its characters. *)
Definition iter_items (rankings : json) : option (list json) :=
  match rankings with
  | JArr items => Some items
  | JObj fields => Some (map (fun kv => JStr (fst kv)) fields)
  | JStr s => Some (map (fun c => JStr (String c EmptyString)) (list_ascii_of_string s))
  | _ => None
  end.

(** [idx is not None and 0 <= idx < len(hotels)] for [n = len(hotels)], or
    [None] when the comparison raises TypeError.  [True] and [False] compare
    as 1 and 0; the comparison of a float with [n] goes through [float(n)],
    which is exact below 2^53. *)
Definition index_in_range (idx : json) (n : nat) : option bool :=
  match idx with
  | JNull => Some false
  | JInt z => Some ((0 <=? z)%Z && (z <? Z.of_nat n)%Z)
  | JBool b => Some ((if b then 1 else 0) <? n)%nat
  | JFloat f => Some ((0 <=? f) && (f <? float_of_nat n))
  | _ => None
  end.

(** [l[z]] for an integer [z]: negative indices count from the end;
    [None] is IndexError. *)
Definition py_index {A : Type} (l : list A) (z : Z) : option A :=
  if (0 <=? z)%Z then nth_error l (Z.to_nat z)
  else if (- Z.of_nat (List.length l) <=? z)%Z
       then nth_error l (Z.to_nat (Z.of_nat (List.length l) + z))
       else None.

(** [hotels[idx]]: only [int] (and [bool]) index a list; anything else is a
    TypeError. *)
Definition subscript (hotels : list Hotel) (idx : json) : option Hotel :=
  match idx with
  | JInt z => py_index hotels z
  | JBool b => py_index hotels (if b then 1 else 0)%Z
  | _ => None
  end.

(** The loop over the parsed rankings; [None] when an exception leaves it. *)
Fixpoint rank_loop (hotels : list Hotel) (rankings : list json)
    (results : list Ranked) : option (list Ranked) :=
  match rankings with
  | [] => Some results
  | JObj rank :: rest =>
      let idx := dict_get_default "index" JNull rank in
      match index_in_range idx (List.length hotels) with
      | None => None
      | Some false => rank_loop hotels rest results
      | Some true =>
          match subscript hotels idx with
          | None => None
          | Some h =>
              rank_loop hotels rest
                (results ++
                 [{| r_hotel := h;
                     r_score := dict_get_default "score" (JInt 0) rank;
                     r_reasoning :=
                       dict_get_default "reasoning" (JStr "AI Recommended") rank |}])
          end
      end
  | _ :: _ => None
  end.

Definition rerank_hotels (w : World) (hotels : list Hotel)
    (user_pref : UserPreference) : list Ranked * World :=
  if negb (truthy user_pref.(trip_description)) || negb (truthy API_KEY)
  then ([], w)
  else
    let candidates_text := candidates_text_loop 0 hotels "" in
    match generate_content w (rerank_prompt user_pref candidates_text) with
    | (None, w') => ([], w')
    | (Some response_text, w') =>
        let text := strip response_text in
        let text := if startswith "```json" text then slice_7_m3 text else text in
        match json_loads text with
        | None => ([], w')
        | Some rankings =>
            match iter_items rankings with
            | None => ([], w')
            | Some items =>
                match rank_loop hotels items [] with
                | None => ([], w')
                | Some results => (results, w')
                end
            end
        end
    end.

(** The text the remote service returns to the reranking prompt, and the
    value [json.loads] makes of it once the code fence is removed. *)
Definition remote_reply (w : World) (hotels : list Hotel)
    (user_pref : UserPreference) : option string :=
  fst (generate_content w
         (rerank_prompt user_pref (candidates_text_loop 0 hotels ""))).

Definition parsed_reply (w : World) (hotels : list Hotel)
    (user_pref : UserPreference) : option json :=
  match remote_reply w hotels user_pref with
  | None => None
  | Some response_text =>
      let text := strip response_text in
      json_loads (if startswith "```json" text then slice_7_m3 text else text)
  end.

(** ** db.py *)

(** Whether the store client was created, and the query
    [supabase.table("hotels").select("*").execute()] followed by the
    validation of every row: the hotels, or [None] when any of it raises. *)
Variable supabase : bool.
Variable select_hotels : World -> option (list Hotel) * World.

Definition get_all_hotels (w : World) : list Hotel * World :=
  if negb supabase then ([], w)
  else
    match select_hotels w with
    | (Some data, w') => (data, w')
    | (None, w') => ([], w')
    end.

(** ** main.py *)

(** pydantic's validation when a [RecommendationResponse] is built from the
    keys of a ranking entry: the response, or [None] when it raises. *)
Variable validate_response : Ranked -> option RecommendationResponse.

(** [l[start:end]] for [0 <= start]: a negative [end] counts from the end of
    the list. *)
Definition py_slice {A : Type} (l : list A) (start end_ : Z) : list A :=
  let n := Z.of_nat (List.length l) in
  let stop := if (end_ <? 0)%Z then Z.max 0 (n + end_) else Z.min n end_ in
  firstn (Z.to_nat (stop - start)) (skipn (Z.to_nat start) l).

Definition search_hotels (w : World) (location : option string)
    (min_price max_price : float) (amenities : option (list string))
    (skip limit : Z) : list Hotel * World :=
  let (all_hotels, w) := get_all_hotels w in
  let filtered :=
    filter_hotels all_hotels location min_price max_price
      (match amenities with Some (a :: l) => a :: l | _ => [] end) in
  let start := skip in
  let end_ := (start + limit)%Z in
  (py_slice filtered start end_, w).

(** The list comprehension that builds a response from every entry of
    [reranked]. *)
Fixpoint validate_all (reranked : list Ranked) : option (list RecommendationResponse) :=
  match reranked with
  | [] => Some []
  | r :: rest =>
      match validate_response r with
      | None => None
      | Some x =>
          match validate_all rest with
          | None => None
          | Some xs => Some (x :: xs)
          end
      end
  end.

(** The fallback loop of [get_recommendations]. *)
Fixpoint recommendations_loop (w : World) (filtered : list Hotel)
    (user_pref : UserPreference) (recommendations : list RecommendationResponse)
    : list RecommendationResponse * World :=
  match filtered with
  | [] => (recommendations, w)
  | hotel :: rest =>
      let score := calculate_recommendation_score hotel user_pref in
      let (reason, w') := generate_recommendation_reason w hotel user_pref score in
      recommendations_loop w' rest user_pref
        (recommendations ++ [{| hotel := hotel; score := score; reasoning := reason |}])
  end.

(** The shortlist handed to the reranker: the five best hotels by score. *)
Definition top_candidates (filtered : list Hotel) (user_pref : UserPreference)
    : list Hotel :=
  let initial_scored :=
    map (fun hotel => (hotel, calculate_recommendation_score hotel user_pref))
      filtered in
  let initial_scored := sort_desc snd initial_scored in
  map fst (firstn 5 initial_scored).

(** [get_recommendations]: the response list, or [None] when an exception
    leaves the handler. *)
Definition get_recommendations (w : World) (user_pref : UserPreference)
    : option (list RecommendationResponse) * World :=
  let (all_hotels, w) := get_all_hotels w in
  let filtered :=
    filter_hotels all_hotels user_pref.(pref_location) user_pref.(min_price)
      user_pref.(max_price) user_pref.(required_amenities) in
  let fallback (w : World) :=
    let (recommendations, w') := recommendations_loop w filtered user_pref [] in
    (Some (sort_desc score recommendations), w') in
  if truthy user_pref.(trip_description) then
    let (reranked, w) :=
      rerank_hotels w (top_candidates filtered user_pref) user_pref in
    match reranked with
    | _ :: _ => (validate_all reranked, w)
    | [] => fallback w
    end
  else fallback w.

End Logic.

(** ** main.py: the token, the admin endpoints and the bookings *)

(** [str(n)] for an [int]. *)
Definition str_of_int (z : Z) : string :=
  if (z <? 0)%Z then ("-" ++ str_of_nat (Z.to_nat (- z)))%string
  else str_of_nat (Z.to_nat z).

(** [HTTPException(status_code=..., detail=...)] *)
Record HTTPException := {
  status_code : Z;
  detail : string
}.

(** [BookingRequest] of [models.py]. *)
Record BookingRequest := {
  hotel_id : Z;
  user_email : string;
  guest_name : string
}.

(** The dict an admin endpoint returns, with ['data'] as the store gave it,
    and the dict [create_booking] returns. *)
Record AdminReply := {
  message : string;
  data : json
}.

Record BookingReply := {
  status : string;
  booking_message : string;
  user : string
}.

(** A call of [send_confirmation_email(email, hotel_name)] waiting in
    [background_tasks]. *)
Record EmailTask := {
  email : string;
  hotel_name : string
}.

Section Admin.

Variable repr_float : float -> string.
Variable World : Type.
Variable supabase : bool.

(** The three store requests of the admin endpoints, [insert(data)],
    [delete().eq("id", hotel_id)] and [update({"price": price}).eq("id",
    hotel_id)], each followed by [execute()]: [response.data], or the text
    [str(e)] of the exception raised. *)
Variable insert_row : World -> Hotel -> (string + json) * World.
Variable delete_row : World -> Z -> (string + json) * World.
Variable update_price_row : World -> Z -> float -> (string + json) * World.

Definition verify_token (x_token : string) : HTTPException + string :=
  if negb (String.eqb x_token "secret-token")
  then inl {| status_code := 400; detail := "Invalid X-Token header" |}
  else inr x_token.

Definition create_hotel (w : World) (hotel : Hotel) (token : string)
    : (HTTPException + AdminReply) * World :=
  if negb supabase
  then (inl {| status_code := 503; detail := "Database unavailable" |}, w)
  else
    match insert_row w hotel with
    | (inr response_data, w') =>
        (inr {| message := "Hotel created successfully"; data := response_data |}, w')
    | (inl e, w') => (inl {| status_code := 400; detail := e |}, w')
    end.

Definition delete_hotel (w : World) (hotel_id : Z) (token : string)
    : (HTTPException + AdminReply) * World :=
  if negb supabase
  then (inl {| status_code := 503; detail := "Database unavailable" |}, w)
  else
    match delete_row w hotel_id with
    | (inr response_data, w') =>
        (inr {| message := "Hotel " ++ str_of_int hotel_id ++ " deleted";
                data := response_data |}, w')
    | (inl e, w') => (inl {| status_code := 400; detail := e |}, w')
    end.

Definition update_hotel_price (w : World) (hotel_id : Z) (price : float)
    (token : string) : (HTTPException + AdminReply) * World :=
  if negb supabase
  then (inl {| status_code := 503; detail := "Database unavailable" |}, w)
  else
    match update_price_row w hotel_id price with
    | (inr response_data, w') =>
        (inr {| message := "Hotel " ++ str_of_int hotel_id ++
                           " price updated to " ++ repr_float price;
                data := response_data |}, w')
    | (inl e, w') => (inl {| status_code := 400; detail := e |}, w')
    end.

(** [create_booking]: the reply, and [background_tasks] with the task it
    adds. *)
Definition create_booking (booking : BookingRequest)
    (background_tasks : list EmailTask) (token : string)
    : BookingReply * list EmailTask :=
  let background_tasks :=
    background_tasks ++
    [{| email := booking.(user_email);
        hotel_name := str_of_int booking.(hotel_id) |}] in
  ({| status := "confirmed";
      booking_message := "Booking received! Confirmation email will be sent shortly.";
      user := booking.(guest_name) |},
   background_tasks).

(** A request to an endpoint declared with [token: str =
    Depends(verify_token)]: the dependency runs on the [X-Token] header
    first, and the handler is called only when it returns. *)
Definition with_token {A S : Type} (x_token : string) (s : S)
    (handler : string -> (HTTPException + A) * S) : (HTTPException + A) * S :=
  match verify_token x_token with
  | inl e => (inl e, s)
  | inr token => handler token
  end.

Definition create_hotel_request (w : World) (x_token : string) (hotel : Hotel) :=
  with_token x_token w (create_hotel w hotel).

Definition delete_hotel_request (w : World) (x_token : string) (hotel_id : Z) :=
  with_token x_token w (delete_hotel w hotel_id).

Definition update_hotel_price_request (w : World) (x_token : string)
    (hotel_id : Z) (price : float) :=
  with_token x_token w (update_hotel_price w hotel_id price).

Definition create_booking_request (background_tasks : list EmailTask)
    (x_token : string) (booking : BookingRequest) :=
  with_token x_token background_tasks
    (fun token =>
       let (reply, tasks) := create_booking booking background_tasks token in
       (inr reply, tasks)).

End Admin.

(** ** seed_db.py *)

Definition cities : list string :=
  ["New York"; "London"; "Miami"; "Denver"; "Berlin"; "Paris"; "Tokyo";
   "Sydney"; "Dubai"; "Rome"; "Barcelona"; "Amsterdam"; "San Francisco";
   "Los Angeles"; "Chicago"; "Bangkok"; "Singapore"; "Istanbul"].

Definition adjectives : list string :=
  ["Grand"; "Cozy"; "Royal"; "Urban"; "Seaside"; "Mountain"; "Hidden";
   "Luxury"; "Modern"; "Vintage"; "Golden"; "Silver"; "Crystal"; "Sunset";
   "Sunrise"].

Definition nouns : list string :=
  ["Plaza"; "Hotel"; "Inn"; "Resort"; "Lodge"; "Retreat"; "Suites";
   "Palace"; "Hostel"; "Motel"; "Sanctuary"; "Haven"; "Stay"].

Definition amenities_pool : list string :=
  ["WiFi"; "Pool"; "Gym"; "Spa"; "Beach Access"; "Bar"; "Breakfast";
   "Parking"; "Restaurant"; "Room Service"; "Conference Room"; "Pet Friendly"].

Definition closing_phrases : list string :=
  ["Perfect for relaxation."; "Ideal for business."; "Great for families.";
   "A romantic getaway."; "Budget friendly choice."].

(** The dict [generate_hotels] builds for one hotel. *)
Record HotelRow := {
  row_name : string;
  row_location : string;
  row_price : float;
  row_rating : float;
  row_amenities : list string;
  row_description : string
}.

(** How a computation with a loop that may not end turns out: it returns, it
    raises, or it is still running when the steps allowed to it are used
    up. *)
Inductive outcome (A : Type) :=
| Returned (a : A)
| Raised
| Running.
Arguments Returned {A} a.
Arguments Raised {A}.
Arguments Running {A}.

(** [range(0, stop, step)] for [step > 0]. *)
Definition range_step (stop step : nat) : list nat :=
  map (fun k => k * step)%nat (seq 0 ((stop + step - 1) / step)).

Section Seed.

(** The module [random], as transitions on the state [Rand] of its
    generator: [choice(seq)] on a non-empty list, [randint(a, b)],
    [uniform(a, b)], and [sample(population, k)], which is [None] when it
    raises ValueError. *)
Variable Rand : Type.
Variable choice : Rand -> list string -> string * Rand.
Variable randint : Rand -> Z -> Z -> Z * Rand.
Variable uniform : Rand -> float -> float -> float * Rand.
Variable sample : Rand -> list string -> Z -> option (list string) * Rand.

(** The [while True] loop of [generate_hotels] that draws a name not used
    before; [steps] bounds the number of its iterations. *)
Fixpoint fresh_name (steps : nat) (rng : Rand) (use_existing_names : list string)
    : option (string * Rand) :=
  match steps with
  | O => None
  | S steps' =>
      let (adjective, rng) := choice rng adjectives in
      let (noun, rng) := choice rng nouns in
      let name := (adjective ++ " " ++ noun)%string in
      if negb (list_in name use_existing_names)
      then Some (name, rng)
      else fresh_name steps' rng use_existing_names
  end.

(** The [for _ in range(count)] loop, [n] iterations from the state
    [hotels], [use_existing_names]. *)
Fixpoint generate_loop (steps : nat) (n : nat) (rng : Rand)
    (hotels : list HotelRow) (use_existing_names : list string)
    : outcome (list HotelRow * Rand) :=
  match n with
  | O => Returned (hotels, rng)
  | S n' =>
      match fresh_name steps rng use_existing_names with
      | None => Running
      | Some (name, rng) =>
          let use_existing_names := name :: use_existing_names in
          let (location, rng) := choice rng cities in
          let (price, rng) := randint rng 50 800 in
          let (u, rng) := uniform rng 3 5 in
          let rating := round1 u in
          let (num_amenities, rng) := randint rng 3 8 in
          match sample rng amenities_pool num_amenities with
          | (None, _) => Raised
          | (Some amenities, rng) =>
              let (phrase, rng) := choice rng closing_phrases in
              let description :=
                ("Experience the " ++ name ++ " in " ++ location ++ ". " ++ phrase)%string in
              generate_loop steps n' rng
                (hotels ++
                 [{| row_name := name;
                     row_location := location;
                     row_price := float_of_Z price;
                     row_rating := rating;
                     row_amenities := amenities;
                     row_description := description |}])
                use_existing_names
          end
      end
  end.

(** [generate_hotels(count)], every [while] loop being given [steps]
    iterations. *)
Definition generate_hotels (steps : nat) (count : Z) (rng : Rand)
    : outcome (list HotelRow * Rand) :=
  generate_loop steps (Z.to_nat count) rng [] [].

(** The store of the seeding script: [insert(batch).execute()], with
    whether it returned ([true]) or raised. *)
Variable Store : Type.
Variable insert_batch : Store -> list HotelRow -> bool * Store.

Definition batch_size : nat := 20.

(** The loop of [seed_data] over the batch offsets: a batch that fails is
    reported and the loop goes on. *)
Fixpoint seed_loop (db : Store) (hotels_data : list HotelRow) (offsets : list nat)
    : Store :=
  match offsets with
  | [] => db
  | i :: rest =>
      let batch :=
        py_slice hotels_data (Z.of_nat i) (Z.of_nat i + Z.of_nat batch_size) in
      let (_, db) := insert_batch db batch in
      seed_loop db hotels_data rest
  end.

(** [seed_data], from the rows on: the store after the loop. *)
Definition seed_rows (db : Store) (hotels_data : list HotelRow) : Store :=
  seed_loop db hotels_data (range_step (List.length hotels_data) batch_size).

Definition seed_data (steps : nat) (rng : Rand) (db : Store) : outcome Store :=
  match generate_hotels steps 100 rng with
  | Returned (hotels_data, _) => Returned (seed_rows db hotels_data)
  | Raised => Raised
  | Running => Running
  end.

End Seed.

(** * Specification-level definitions *)

(** ** The filter contract in the words of the specification *)

(** [needle] occurs in [hay] as a contiguous run of characters. *)
Definition is_substring (needle hay : string) : Prop :=
  exists pre post, hay = (pre ++ needle ++ post)%string.

Section FilterContract.

Variable lower : string -> string.

(** The location, when one is provided, is a case-insensitive substring of
    the hotel's location. *)
Definition location_matches (location : option string) (h : Hotel) : Prop :=
  forall loc, location = Some loc ->
    is_substring (lower loc) (lower h.(Models.location)).

(** The hotel's price lies within [[min_price, max_price]], bounds included. *)
Definition price_within (min_price max_price : float) (h : Hotel) : Prop :=
  (min_price <=? h.(price)) = true /\ (h.(price) <=? max_price) = true.

(** Every required amenity is, case-insensitively, one of the hotel's. *)
Definition has_all_amenities (amenities : list string) (h : Hotel) : Prop :=
  forall a, In a amenities ->
    exists b, In b h.(Models.amenities) /\ lower b = lower a.

Definition satisfies (location : option string) (min_price max_price : float)
    (amenities : list string) (h : Hotel) : Prop :=
  location_matches location h /\
  price_within min_price max_price h /\
  has_all_amenities amenities h.

End FilterContract.

(** [selection P l r]: [r] is [l] with exactly the elements that satisfy [P]
    kept, each as often as it occurs and in the order of [l]. *)
Inductive selection {A : Type} (P : A -> Prop) : list A -> list A -> Prop :=
| selection_nil : selection P [] []
| selection_keep x l r : P x -> selection P l r -> selection P (x :: l) (x :: r)
| selection_drop x l r : ~ P x -> selection P l r -> selection P (x :: l) r.

(** ** The reranker contract *)

(** The reply has the expected outer structure: a JSON array of objects. *)
Definition array_of_objects (j : json) : Prop :=
  exists ranks, j = JArr (map JObj ranks).

(** The position a ranking item names: its ['index'] when that is an
    integer, [True] and [False] being the integers 1 and 0. *)
Definition item_index (rank : list (string * json)) : option Z :=
  match dict_get "index" rank with
  | Some (JInt z) => Some z
  | Some (JBool b) => Some (if b then 1 else 0)%Z
  | _ => None
  end.

(** The items whose ['index'] can be compared with the bounds and, when
    within them, can index the candidates: it is absent, [null], an integer
    or a boolean, or a float outside [[0, len(hotels))]. *)
Definition usable_item (hotels : list Hotel) (rank : list (string * json)) : Prop :=
  match dict_get "index" rank with
  | None | Some JNull | Some (JInt _) | Some (JBool _) => True
  | Some (JFloat f) =>
      (0 <=? f) && (f <? float_of_nat (List.length hotels)) = false
  | Some _ => False
  end.

(** What one ranking item contributes: nothing when its index is missing or
    outside [[0, len(hotels))], and otherwise the hotel at that index with
    the item's score (0 when missing) and reasoning (["AI Recommended"] when
    missing). *)
Definition emitted (hotels : list Hotel) (rank : list (string * json)) : list Ranked :=
  match item_index rank with
  | None => []
  | Some z =>
      if (0 <=? z)%Z && (z <? Z.of_nat (List.length hotels))%Z then
        match nth_error hotels (Z.to_nat z) with
        | Some h =>
            [{| r_hotel := h;
                r_score := match dict_get "score" rank with
                           | Some v => v
                           | None => JInt 0
                           end;
                r_reasoning := match dict_get "reasoning" rank with
                               | Some v => v
                               | None => JStr "AI Recommended"
                               end |}]
        | None => []
        end
      else []
  end.

(** ** The score in the words of the specification *)

(** [40 * [price <= max_price and max_price > 0] + (rating / 5) * 30 +
    min(6 * amenity_count, 30)], rounded to one decimal place. *)
Definition score_formula (hotel : Hotel) (user_pref : UserPreference) : float :=
  round1
    ((if (hotel.(price) <=? user_pref.(max_price)) && (0 <? user_pref.(max_price))
      then 40 else 0)
     + (hotel.(rating) / 5) * 30
     + py_min (6 * float_of_nat (List.length hotel.(amenities))) 30).

(** The points of the price component as [calculate_recommendation_score]
    computes them from the price and the budget. *)
Definition budget_points (price max_price : float) : float :=
  if 0 <? max_price then
    if price / max_price <=? 1 then 0 + 40 else 0
  else 0.

(** ** The recommendations contract *)

Section RecommendationContract.

Variable strip : string -> string.
Variable repr_float : float -> string.
Variable World : Type.
Variable API_KEY : option string.
Variable generate_content : World -> string -> option string * World.
Variable user_pref : UserPreference.

(** An entry carries the computed score of its hotel, and the reasoning
    generated for that hotel and score in some state of the remote. *)
Definition carries_score_and_reasoning (r : RecommendationResponse) : Prop :=
  r.(score) = calculate_recommendation_score r.(hotel) user_pref /\
  exists w,
    r.(reasoning) =
    fst (generate_recommendation_reason strip repr_float World API_KEY
           generate_content w r.(hotel) user_pref r.(score)).

End RecommendationContract.

(** The key of every entry is at least the key of each entry after it, at
    any distance. *)
Definition descending {A : Type} (key : A -> float) : list A -> Prop :=
  StronglySorted (fun a b => (key b <=? key a) = true).

(** ** What the seeding script generates *)

(** Every name the generator can build: an adjective, a space, a noun. *)
Definition name_pool : list string :=
  flat_map (fun adjective => map (fun noun => adjective ++ " " ++ noun)%string nouns)
    adjectives.

(** A generated row: a name of the pool in one of the cities, a price
    within [[50, 800]], a rating within [[3, 5]], and three to eight
    different amenities of the pool. *)
Definition generated_row (r : HotelRow) : Prop :=
  In r.(row_name) name_pool /\
  In r.(row_location) cities /\
  ((50 <=? r.(row_price)) = true /\ (r.(row_price) <=? 800) = true) /\
  ((3 <=? r.(row_rating)) = true /\ (r.(row_rating) <=? 5) = true) /\
  (3 <= List.length r.(row_amenities) <= 8)%nat /\
  NoDup r.(row_amenities) /\
  incl r.(row_amenities) amenities_pool.

(** ** Sample data *)

Definition sample_hotel (n : Z) (p r : float) (a : list string) : Hotel :=
  {| id := n; name := "Grand Plaza"; location := "New York"; price := p;
     rating := r; amenities := a; description := "" |}.

(** Three hotels priced 80, 150 and 500. *)
Definition three_hotels : list Hotel :=
  [ sample_hotel 1 80 4 ["WiFi"; "Pool"];
    sample_hotel 2 150 4.5 ["WiFi"; "Gym"; "Spa"];
    sample_hotel 3 500 5 ["WiFi"] ].

(** A hotel priced 100, rated 4.0, with five amenities. *)
Definition well_equipped_hotel : Hotel :=
  sample_hotel 4 100 4 ["WiFi"; "Pool"; "Gym"; "Spa"; "Bar"].

(** A hotel and a preference whose price and budget are both infinite. *)
Definition priceless_hotel : Hotel := sample_hotel 5 infinity 0 [].

Definition unlimited_pref : UserPreference :=
  {| pref_location := None; min_price := 0; max_price := infinity;
     required_amenities := []; trip_description := None |}.

(** A database that holds [three_hotels]. *)
Definition sample_select (w : unit) : option (list Hotel) * unit :=
  (Some three_hotels, w).

(** A database in which the rating of the second hotel is not a number. *)
Definition unrated_hotels : list Hotel :=
  [ sample_hotel 1 80 4 ["WiFi"];
    sample_hotel 2 150 nan ["WiFi"];
    sample_hotel 3 120 4.5 ["WiFi"; "Gym"; "Spa"] ].

Definition unrated_select (w : unit) : option (list Hotel) * unit :=
  (Some unrated_hotels, w).

(** A ranking whose second item has a string for index. *)
Definition mixed_ranking : json :=
  JArr [ JObj [("index", JInt 0); ("score", JInt 90)];
         JObj [("index", JStr "1"); ("score", JInt 80)] ].

Definition mixed_loads (text : string) : option json := Some mixed_ranking.

(** A store that keeps the hotels in a list. *)
Definition list_insert (w : list Hotel) (h : Hotel) : (string + json) * list Hotel :=
  (inr (JArr []), (w ++ [h])%list).

Definition list_delete (w : list Hotel) (hotel_id : Z) : (string + json) * list Hotel :=
  (inr (JArr []), filter (fun h => negb (h.(id) =? hotel_id)%Z) w).

Definition list_update (w : list Hotel) (hotel_id : Z) (p : float)
    : (string + json) * list Hotel :=
  (inl "read-only store", w).

(** A generator of the module [random] that walks through its arguments:
    its state counts the draws. *)
Definition walk_choice (r : nat) (l : list string) : string * nat :=
  (nth (r mod List.length l) l "", S r).

Definition walk_randint (r : nat) (a b : Z) : Z * nat :=
  ((a + Z.of_nat r mod (b - a + 1))%Z, S r).

Definition walk_uniform (r : nat) (a b : float) : float * nat := (a, S r).

Definition walk_sample (r : nat) (population : list string) (k : Z)
    : option (list string) * nat :=
  if (0 <=? k)%Z && (k <=? Z.of_nat (List.length population))%Z
  then (Some (firstn (Z.to_nat k) population), S r)
  else (None, S r).

(** A store of rows that records the batches it is sent and refuses those
    that start with a row named ["Cozy Inn"]. *)
Definition log_insert (db : list (list HotelRow)) (batch : list HotelRow)
    : bool * list (list HotelRow) :=
  match batch with
  | r :: _ => (negb (String.eqb r.(row_name) "Cozy Inn"), (db ++ [batch])%list)
  | [] => (true, (db ++ [batch])%list)
  end.

(** A reply of the remote on two lines. *)
Definition two_line_reply : string :=
  " Close to the park." ++ nl ++ "Quiet rooms." ++ nl.

(** A printer of floats to one decimal digit, to run the definitions. *)
Definition str_of_Z (z : Z) : string := str_of_nat (Z.to_nat z).

Definition repr_tenths (x : float) : string :=
  match Prim2SF x with
  | S754_finite s m e =>
      let t := tenths m e in
      ((if s then "-" else "") ++ str_of_Z (t / 10) ++ "." ++ str_of_Z (t mod 10))%string
  | S754_zero s => if s then "-0.0" else "0.0"
  | S754_infinity s => if s then "-inf" else "inf"
  | S754_nan => "nan"
  end.

Definition sample_pref (desc : option string) : UserPreference :=
  {| pref_location := Some "New York"; min_price := 0; max_price := 200;
     required_amenities := []; trip_description := desc |}.

(** A remote that answers every prompt with the same reply. *)
Definition constant_remote (reply : option string) (w : unit) (prompt : string)
    : option string * unit := (reply, w).

(** A stand-in for [json.loads] that knows two texts. *)
Definition sample_ranking : json :=
  JArr [ JObj [("index", JInt 1); ("score", JInt 90); ("reasoning", JStr "Great pool")];
         JObj [("index", JInt 7); ("score", JInt 80)];
         JObj [("score", JInt 70)];
         JObj [("index", JInt 0)] ].

Definition sample_loads (text : string) : option json :=
  if String.eqb text "RANKING" then Some sample_ranking
  else if String.eqb text "7" then Some (JInt 7)
  else None.

(** ** The values of binary64 numbers

    The real value of a float, the extended reals that also hold the two
    infinities, and rounding to nearest with ties to even as a relation
    between a real and the float that represents it. *)

Section BinaryValues.

Local Open Scope R_scope.

Definition bpow (e : Z) : R := powerRZ 2 e.
Definition F2R (m e : Z) : R := IZR m * bpow e.

Definition is_loc (c : comparison) (v mid : R) : Prop :=
  match c with Lt => v < mid | Eq => v = mid | Gt => mid < v end.

Definition inbetween (m e : Z) (l : SpecFloat.location) (v : R) : Prop :=
  match l with
  | loc_Exact => v = F2R m e
  | loc_Inexact c =>
      F2R m e < v < F2R (m + 1) e /\ is_loc c v (F2R m e + bpow e / 2)
  end.

(** The exponent binary64 gives a positive real: [emin] below the normal
    range, and [c] when [2^(c+52) <= v < 2^(c+53)]. *)
Definition cexp_of (v : R) (c : Z) : Prop :=
  (c = (-1074)%Z /\ v < bpow (-1021)) \/
  ((-1074 < c)%Z /\ bpow (c + 52) <= v < bpow (c + 53)).

(** [n] is the integer nearest to [v / 2^c], the even one on a tie. *)
Definition rne (v : R) (c n : Z) : Prop :=
  (IZR n - 1 / 2) * bpow c <= v <= (IZR n + 1 / 2) * bpow c /\
  (v = (IZR n - 1 / 2) * bpow c -> Z.even n = true) /\
  (v = (IZR n + 1 / 2) * bpow c -> Z.even n = true).

(** The binary64 number with sign [s] and magnitude [n * 2^c], for
    [0 <= n <= 2^53]: a carry into the next binade is renormalised, and an
    exponent above the largest one gives an infinity. *)
Definition mk (s : bool) (n c : Z) : spec_float :=
  match n with
  | Z0 => S754_zero s
  | Zpos p =>
      if (n =? 2 ^ 53)%Z then
        if (c + 1 <=? 971)%Z then S754_finite s (2 ^ 52)%positive (c + 1)
        else S754_infinity s
      else if (c <=? 971)%Z then S754_finite s p c else S754_infinity s
  | Zneg _ => S754_nan
  end.

(** Extended reals, the values of the floats that are not NaN. *)
Inductive ER := NInf | Fin (r : R) | PInf.

Definition ER_le (a b : ER) : Prop :=
  match a, b with
  | NInf, _ => True
  | _, PInf => True
  | Fin x, Fin y => x <= y
  | _, _ => False
  end.

Definition ER_lt (a b : ER) : Prop :=
  match a, b with
  | Fin x, Fin y => x < y
  | NInf, NInf => False
  | PInf, PInf => False
  | NInf, _ => True
  | _, PInf => True
  | _, _ => False
  end.

Definition SF2R (x : spec_float) : R :=
  match x with
  | S754_finite s m e => if s then - F2R (Zpos m) e else F2R (Zpos m) e
  | _ => 0
  end.

Definition SF2E (x : spec_float) : ER :=
  match x with
  | S754_infinity s => if s then NInf else PInf
  | _ => Fin (SF2R x)
  end.

Definition is_nan_SF (x : spec_float) : bool :=
  match x with S754_nan => true | _ => false end.

Definition ER_opp (a : ER) : ER :=
  match a with NInf => PInf | Fin r => Fin (- r) | PInf => NInf end.

Definition ER_sign (s : bool) (a : ER) : ER := if s then ER_opp a else a.

(** The value of [n * 2^c] as a float: itself below [2^1024], and the
    infinity from there on. *)
Definition overflowed (n c : Z) (r : ER) : Prop :=
  (F2R n c < bpow 1024 /\ r = Fin (F2R n c)) \/
  (bpow 1024 <= F2R n c /\ r = PInf).

(** [r] is what a positive real [v] rounds to. *)
Definition rounds_pos (v : R) (r : ER) : Prop :=
  exists c n, cexp_of v c /\ rne v c n /\ overflowed n c r.

(** [r] is what the extended real [a] rounds to, to nearest and ties to
    even. *)
Definition rounds (a r : ER) : Prop :=
  match a with
  | NInf => r = NInf
  | PInf => r = PInf
  | Fin v =>
      (v = 0 /\ r = Fin 0) \/
      (0 < v /\ rounds_pos v r) \/
      (v < 0 /\ exists r', rounds_pos (- v) r' /\ r = ER_opp r')
  end.

Definition finite_SF (x : spec_float) : bool :=
  match x with S754_zero _ | S754_finite _ _ _ => true | _ => false end.

(** Scaling and addition on extended reals. *)
Definition E_scale (a : ER) (k : R) : ER :=
  match a with Fin v => Fin (v * k) | _ => a end.

Definition E_add (a b : ER) : ER :=
  match a, b with
  | Fin u, Fin v => Fin (u + v)
  | Fin _, _ => b
  | _, _ => a
  end.

(** The value of a float that is not NaN. *)
Definition FE (x : float) : ER := SF2E (Prim2SF x).
Definition not_nan (x : float) : Prop := is_nan_SF (Prim2SF x) = false.
Definition finite (x : float) : Prop := finite_SF (Prim2SF x) = true.
Definition pos_finite (x : float) : Prop :=
  exists m e, Prim2SF x = S754_finite false m e.

Definition one_SF : spec_float := S754_finite false (2 ^ 52) (-52).

End BinaryValues.

(** ** The merges of [list.sort] *)

(** [threshold P n k]: among the positions below [n], [P] is false before
    [k] and true from [k] on. *)
Definition threshold (P : nat -> bool) (n k : nat) : Prop :=
  (k <= n)%nat /\
  (forall i, (i < k)%nat -> P i = false) /\
  (forall i, (k <= i < n)%nat -> P i = true).

(** [Shuffle a b r]: [r] holds the elements of [a] and those of [b], each
    list in its order. *)
Inductive Shuffle {A : Type} : list A -> list A -> list A -> Prop :=
| shuffle_nil : Shuffle [] [] []
| shuffle_l x a b r : Shuffle a b r -> Shuffle (x :: a) b (x :: r)
| shuffle_r y a b r : Shuffle a b r -> Shuffle a (y :: b) (y :: r).

(** The merge of two lists that takes the head of the second one when
    [take_second] says so of the two heads, and the head of the first one
    otherwise. *)
Fixpoint gmerge {A : Type} (take_second : A -> A -> bool) (a : list A)
    : list A -> list A :=
  match a with
  | [] => fun b => b
  | x :: a' =>
      fix inner (b : list A) : list A :=
        match b with
        | [] => a
        | y :: b' =>
            if take_second x y then y :: inner b' else x :: gmerge take_second a' b
        end
  end.

(** What the loops of [merge_lo] rely on: both runs are sorted, [a] has two
    elements or more and [b] one or more, and the last element of [a] is
    greater than every element of [b]. *)
Definition lo_ready {A : Type} (key : A -> float) (z : A) (a b : list A) : Prop :=
  StronglySorted (fun x y => (key x <=? key y) = true) a /\
  StronglySorted (fun x y => (key x <=? key y) = true) b /\ last a z = z /\
  Forall (fun y => (key y <? key z)%float = true) b /\
  (2 <= List.length a)%nat /\ (1 <= List.length b)%nat.

(** What the loops of [merge_hi] rely on, for the reversed runs: both are
    sorted, [ra] has one element or more and [rb] two or more, and the first
    element of [b], the last one of [rb], is less than every element of
    [a]. *)
Definition hi_ready {A : Type} (key : A -> float) (z : A) (ra rb : list A) : Prop :=
  StronglySorted (fun x y => (key y <=? key x) = true) ra /\
  StronglySorted (fun x y => (key y <=? key x) = true) rb /\ last rb z = z /\
  Forall (fun x => (key z <? key x)%float = true) ra /\
  (1 <= List.length ra)%nat /\ (2 <= List.length rb)%nat.

(** The elements of the pending runs, in the order of the list. *)
Definition flat {A : Type} (pending : list (list A * nat)) : list A :=
  List.concat (rev (map fst pending)).

(** Every pending run holds numbers in ascending order. *)
Definition runs_sorted {A : Type} (key : A -> float)
    (pending : list (list A * nat)) : Prop :=
  Forall (fun rp =>
            Forall (fun e => not_nan (key e)) (fst rp) /\
            StronglySorted (fun x y => (key x <=? key y) = true) (fst rp))
    pending.

(** * Properties *)

(** ** The order of binary64 *)

Ltac cmp_cases :=
  repeat match goal with
  | |- context [(?a ?= ?b)%Z] => destruct (Z.compare_spec a b)
  | H : context [(?a ?= ?b)%Z] |- _ => destruct (Z.compare_spec a b)
  | |- context [Pos.compare_cont Eq ?a ?b] =>
      change (Pos.compare_cont Eq a b) with (Pos.compare a b);
      destruct (Pos.compare_spec a b)
  | H : context [Pos.compare_cont Eq ?a ?b] |- _ =>
      change (Pos.compare_cont Eq a b) with (Pos.compare a b) in H;
      destruct (Pos.compare_spec a b)
  end.

Ltac sf_cases :=
  repeat match goal with s : bool |- _ => destruct s end;
  simpl; try discriminate; try reflexivity; intros;
  cmp_cases; simpl in *; subst; try discriminate; try reflexivity; try lia.

Lemma SFleb_trans x y z :
  SFleb x y = true -> SFleb y z = true -> SFleb x z = true.
Proof.
  unfold SFleb.
  destruct x as [sx|sx| |sx mx ex], y as [sy|sy| |sy my ey],
    z as [sz|sz| |sz mz ez]; simpl; try discriminate; try reflexivity; sf_cases.
Qed.

Lemma SFleb_not_ltb x y : SFleb x y = true -> SFltb y x = false.
Proof.
  unfold SFleb, SFltb.
  destruct x as [sx|sx| |sx mx ex], y as [sy|sy| |sy my ey];
    simpl; try discriminate; try reflexivity; sf_cases.
Qed.

Lemma leb_trans x y z : (x <=? y) = true -> (y <=? z) = true -> (x <=? z) = true.
Proof. rewrite !leb_spec. apply SFleb_trans. Qed.

Lemma leb_not_ltb x y : (x <=? y) = true -> (y <? x) = false.
Proof. rewrite leb_spec, ltb_spec. apply SFleb_not_ltb. Qed.

(** ** Rounding in binary64

    [binary_round_aux], on which the multiplication, division and addition of
    [SpecFloat] end, rounds to nearest with ties to even; the rounding is
    monotone, and so are the operations built on it. *)

Section Rounding.

Local Open Scope R_scope.

Lemma bpow_pos e : 0 < bpow e.
Proof. apply powerRZ_lt. lra. Qed.

Lemma bpow_add a b : bpow (a + b) = bpow a * bpow b.
Proof. apply powerRZ_add. lra. Qed.

Lemma bpow_0 : bpow 0 = 1.
Proof. reflexivity. Qed.

Lemma bpow_1 : bpow 1 = 2.
Proof. unfold bpow. simpl. lra. Qed.

Lemma bpow_succ e : bpow (e + 1) = 2 * bpow e.
Proof. rewrite bpow_add, bpow_1. lra. Qed.

Lemma bpow_IZR k : (0 <= k)%Z -> bpow k = IZR (2 ^ k).
Proof.
  intros Hk. rewrite <- (Z2Nat.id k Hk). unfold bpow.
  now rewrite <- pow_powerRZ, pow_IZR.
Qed.

Lemma bpow_le a b : (a <= b)%Z -> bpow a <= bpow b.
Proof.
  intros H. replace b with (a + (b - a))%Z by lia.
  rewrite bpow_add, (bpow_IZR (b - a)) by lia.
  assert (1 <= IZR (2 ^ (b - a))).
  { apply IZR_le. assert (0 < 2 ^ (b - a))%Z by (apply Z.pow_pos_nonneg; lia). lia. }
  pose proof (bpow_pos a). nra.
Qed.

Lemma bpow_lt a b : (a < b)%Z -> bpow a < bpow b.
Proof.
  intros H. apply Rlt_le_trans with (bpow (a + 1)).
  - rewrite bpow_succ. pose proof (bpow_pos a). lra.
  - apply bpow_le. lia.
Qed.

Lemma bpow_lt_inv a b : bpow a < bpow b -> (a < b)%Z.
Proof.
  intros H. destruct (Z_lt_le_dec a b) as [L|L]; [exact L|].
  apply bpow_le in L. lra.
Qed.

Lemma bpow_le_inv a b : bpow a <= bpow b -> (a <= b)%Z.
Proof.
  intros H. destruct (Z_lt_le_dec b a) as [L|L]; [|exact L].
  apply bpow_lt in L. lra.
Qed.

Lemma digits2_pos_spec p :
  (2 ^ (Zpos (digits2_pos p) - 1) <= Zpos p < 2 ^ Zpos (digits2_pos p))%Z.
Proof.
  induction p as [p IH|p IH|]; simpl digits2_pos.
  - rewrite Pos2Z.inj_succ. pose proof (Pos2Z.inj_xI p) as E.
    replace (Z.succ (Zpos (digits2_pos p)) - 1)%Z with (Z.succ (Zpos (digits2_pos p) - 1)) by lia.
    rewrite !Z.pow_succ_r by lia. lia.
  - rewrite Pos2Z.inj_succ. pose proof (Pos2Z.inj_xO p) as E.
    replace (Z.succ (Zpos (digits2_pos p)) - 1)%Z with (Z.succ (Zpos (digits2_pos p) - 1)) by lia.
    rewrite !Z.pow_succ_r by lia. lia.
  - simpl. lia.
Qed.

Lemma IZR_xO p : IZR (Zpos p~0) = 2 * IZR (Zpos p).
Proof. now rewrite Pos2Z.inj_xO, mult_IZR. Qed.

Lemma IZR_xI p : IZR (Zpos p~1) = 2 * IZR (Zpos p) + 1.
Proof. now rewrite Pos2Z.inj_xI, plus_IZR, mult_IZR. Qed.

Lemma shr_1_inbetween mrs e v :
  (0 <= shr_m mrs)%Z ->
  inbetween (shr_m mrs) e (loc_of_shr_record mrs) v ->
  (0 <= shr_m (shr_1 mrs))%Z /\
  inbetween (shr_m (shr_1 mrs)) (e + 1) (loc_of_shr_record (shr_1 mrs)) v.
Proof.
  destruct mrs as [m r s]. simpl shr_m at 1 2. intros Hm H.
  pose proof (bpow_pos e) as Be.
  destruct m as [|[p|p|]|p]; try lia; simpl shr_1; cbv [shr_m]; (split; [lia|]);
    destruct r, s; simpl orb; cbv [loc_of_shr_record inbetween is_loc F2R] in *;
    rewrite ?bpow_succ; rewrite ?plus_IZR in *;
    try rewrite !(IZR_xO p) in *; try rewrite !(IZR_xI p) in *; lra.
Qed.

Lemma iter_pos_inv {A : Type} (f : A -> A) (P : Z -> A -> Prop) :
  (forall k x, P k x -> P (k + 1)%Z (f x)) ->
  forall p k x, P k x -> P (k + Zpos p)%Z (SpecFloat.iter_pos f p x).
Proof.
  intros Hf. induction p as [p IH|p IH|]; intros k x H; simpl.
  - replace (k + Zpos p~1)%Z with (k + 1 + Zpos p + Zpos p)%Z by lia.
    apply IH, IH, Hf, H.
  - replace (k + Zpos p~0)%Z with (k + Zpos p + Zpos p)%Z by lia.
    apply IH, IH, H.
  - apply Hf, H.
Qed.

Lemma loc_of_shr_record_of_loc m l :
  loc_of_shr_record (shr_record_of_loc m l) = l.
Proof. now destruct l as [|[| |]]. Qed.

Lemma shr_m_shr_record_of_loc m l : shr_m (shr_record_of_loc m l) = m.
Proof. now destruct l as [|[| |]]. Qed.

Lemma shr_inbetween m e l v n :
  (0 <= m)%Z -> inbetween m e l v ->
  (0 <= shr_m (fst (shr (shr_record_of_loc m l) e n)))%Z /\
  snd (shr (shr_record_of_loc m l) e n) = (e + Z.max 0 n)%Z /\
  inbetween (shr_m (fst (shr (shr_record_of_loc m l) e n)))
    (e + Z.max 0 n) (loc_of_shr_record (fst (shr (shr_record_of_loc m l) e n))) v.
Proof.
  intros Hm H. destruct n as [|p|p]; simpl;
    try (rewrite loc_of_shr_record_of_loc, shr_m_shr_record_of_loc, Z.add_0_r; now auto).
  assert (forall k x,
            (0 <= shr_m x)%Z /\ inbetween (shr_m x) (e + k) (loc_of_shr_record x) v ->
            (0 <= shr_m (shr_1 x))%Z /\
            inbetween (shr_m (shr_1 x)) (e + (k + 1)) (loc_of_shr_record (shr_1 x)) v) as Step.
  { intros k x [H1 H2]. rewrite Z.add_assoc. now apply shr_1_inbetween. }
  pose proof (iter_pos_inv shr_1
    (fun k x => (0 <= shr_m x)%Z /\
                inbetween (shr_m x) (e + k) (loc_of_shr_record x) v)
    Step p 0%Z (shr_record_of_loc m l)) as I.
  simpl in I. destruct I as [I1 I2].
  - rewrite loc_of_shr_record_of_loc, shr_m_shr_record_of_loc, Z.add_0_r. auto.
  - auto.
Qed.

Lemma fexp64 k : fexp prec emax k = Z.max (k - 53) (-1074).
Proof. reflexivity. Qed.

Lemma cexp_of_mag v k c :
  cexp_of v c -> bpow (k - 1) <= v < bpow k -> c = fexp prec emax k.
Proof.
  rewrite fexp64. intros [[-> H]|[Hc H]] [L U].
  - assert (k - 1 < -1021)%Z by (apply bpow_lt_inv; lra). lia.
  - assert (k - 1 < c + 53)%Z by (apply bpow_lt_inv; lra).
    assert (c + 52 < k)%Z by (apply bpow_lt_inv; lra). lia.
Qed.

Lemma mag_cexp_of v k :
  bpow (k - 1) <= v < bpow k -> cexp_of v (fexp prec emax k).
Proof.
  rewrite fexp64. intros [L U]. unfold cexp_of.
  destruct (Z_le_gt_dec (k - 53) (-1074)) as [Hk|Hk].
  - left. split; [lia|]. apply Rlt_le_trans with (1 := U). apply bpow_le. lia.
  - right. split; [lia|]. replace (Z.max (k - 53) (-1074)) with (k - 53)%Z by lia.
    replace (k - 53 + 52)%Z with (k - 1)%Z by lia.
    replace (k - 53 + 53)%Z with k by lia. auto.
Qed.

Lemma cexp_of_ge v c : cexp_of v c -> (-1074 <= c)%Z.
Proof. intros [[-> _]|[H _]]; lia. Qed.

Lemma cexp_of_lt v c : cexp_of v c -> v < bpow (c + 53).
Proof. intros [[-> H]|[_ H]]; [exact H | tauto]. Qed.

Lemma inbetween_bounds m e l v :
  inbetween m e l v -> F2R m e <= v < F2R (m + 1) e.
Proof.
  pose proof (bpow_pos e).
  destruct l as [|c]; simpl; unfold F2R; rewrite ?plus_IZR.
  - intros ->. lra.
  - intros [[H1 H2] _]. lra.
Qed.

Lemma F2R_digits p e :
  bpow (Zpos (digits2_pos p) - 1 + e) <= F2R (Zpos p) e /\
  F2R (Zpos p + 1) e <= bpow (Zpos (digits2_pos p) + e).
Proof.
  pose proof (digits2_pos_spec p) as [L U]. pose proof (bpow_pos e).
  unfold F2R.
  rewrite !bpow_add, (bpow_IZR (Zpos (digits2_pos p) - 1)),
    (bpow_IZR (Zpos (digits2_pos p))) by lia.
  apply IZR_le in L. assert (Zpos p + 1 <= 2 ^ Zpos (digits2_pos p))%Z as U' by lia.
  apply IZR_le in U'. split; apply Rmult_le_compat_r; solve [lra | assumption].
Qed.

Lemma shr_fexp_spec m e l v c :
  (0 <= m)%Z -> inbetween m e l v -> 0 < v -> cexp_of v c -> (e <= c)%Z ->
  snd (shr_fexp prec emax m e l) = c /\
  (0 <= shr_m (fst (shr_fexp prec emax m e l)))%Z /\
  inbetween (shr_m (fst (shr_fexp prec emax m e l))) c
    (loc_of_shr_record (fst (shr_fexp prec emax m e l))) v.
Proof.
  intros Hm H Hv Hc Hec. unfold shr_fexp.
  assert ((e + Z.max 0 (fexp prec emax (Zdigits2 m + e) - e))%Z = c) as E.
  { pose proof (inbetween_bounds _ _ _ _ H) as [L U].
    destruct m as [|p|p]; [| |lia].
    - simpl Zdigits2. rewrite fexp64. unfold F2R in U. simpl in U.
      rewrite Rmult_1_l in U.
      destruct Hc as [[-> Hc]|[Hc1 Hc2]]; [lia|].
      assert (c + 52 < e)%Z by (apply bpow_lt_inv; lra). lia.
    - simpl Zdigits2. pose proof (F2R_digits p e) as [L' U'].
      rewrite <- (cexp_of_mag v (Zpos (digits2_pos p) + e) c Hc).
      + lia.
      + replace (Zpos (digits2_pos p) + e - 1)%Z
          with (Zpos (digits2_pos p) - 1 + e)%Z by lia. lra. }
  pose proof (shr_inbetween m e l v (fexp prec emax (Zdigits2 m + e) - e) Hm H)
    as [S1 [S2 S3]].
  rewrite E in S2, S3. auto.
Qed.

Lemma round_nearest_even_rne m c l v :
  inbetween m c l v ->
  rne v c (round_nearest_even m l) /\
  (m <= round_nearest_even m l <= m + 1)%Z.
Proof.
  pose proof (bpow_pos c) as B. unfold rne.
  destruct l as [|[| |]]; simpl; unfold F2R; rewrite ?plus_IZR;
    [intros -> | intros [[H1 H2] H3]; destruct (Z.even m) eqn:E
     | intros [[H1 H2] H3] | intros [[H1 H2] H3]];
    rewrite ?plus_IZR; repeat split; try lra; try lia; intros;
    try (exfalso; lra); try assumption;
    rewrite Z.add_1_r, Z.even_succ, <- Z.negb_even, E; reflexivity.
Qed.

Lemma round_finish s n c :
  (0 <= n <= 2 ^ 53)%Z -> (-1074 <= c)%Z ->
  (let '(mrs'', e'') := shr_fexp prec emax n c loc_Exact in
   match shr_m mrs'' with
   | Z0 => S754_zero s
   | Zpos m =>
       if Z.leb e'' (Z.sub emax prec) then S754_finite s m e'' else S754_infinity s
   | _ => S754_nan
   end) = mk s n c.
Proof.
  intros Hn Hc. unfold shr_fexp, mk.
  destruct n as [|p|p]; [| |lia].
  - simpl Zdigits2. rewrite fexp64.
    destruct (Z.max (0 + c - 53) (-1074) - c)%Z eqn:E; try lia; reflexivity.
  - destruct (Z.eqb_spec (Zpos p) (2 ^ 53)) as [E|E].
    + injection E as ->. simpl Zdigits2. rewrite fexp64.
      match goal with
      | |- context [shr _ c ?n] => replace n with 1%Z by lia
      end.
      reflexivity.
    + simpl Zdigits2. rewrite fexp64.
      pose proof (digits2_pos_spec p) as [L U].
      assert (Zpos (digits2_pos p) - 1 < 53)%Z.
      { apply (Z.pow_lt_mono_r_iff 2); lia. }
      destruct (Z.max (Zpos (digits2_pos p) + c - 53) (-1074) - c)%Z eqn:E';
        try lia; reflexivity.
Qed.

Lemma binary_round_aux_spec s m e l v c :
  (0 <= m)%Z -> inbetween m e l v -> 0 < v -> cexp_of v c -> (e <= c)%Z ->
  exists n, rne v c n /\ (0 <= n <= 2 ^ 53)%Z /\
            binary_round_aux prec emax s m e l = mk s n c.
Proof.
  intros Hm H Hv Hc Hec.
  destruct (shr_fexp_spec m e l v c Hm H Hv Hc Hec) as [S1 [S2 S3]].
  unfold binary_round_aux.
  destruct (shr_fexp prec emax m e l) as [mrs' e']. simpl in S1, S2, S3. subst e'.
  destruct (round_nearest_even_rne _ _ _ _ S3) as [R1 R2].
  set (n := round_nearest_even (shr_m mrs') (loc_of_shr_record mrs')) in *.
  assert (shr_m mrs' < 2 ^ 53)%Z as Hlt.
  { apply lt_IZR. rewrite <- bpow_IZR by lia.
    pose proof (inbetween_bounds _ _ _ _ S3) as [L _].
    pose proof (cexp_of_lt _ _ Hc) as U. rewrite Z.add_comm, bpow_add in U.
    unfold F2R in L. pose proof (bpow_pos c).
    apply Rmult_lt_reg_r with (bpow c); lra. }
  exists n. split; [exact R1|]. split; [lia|].
  apply round_finish; [lia | exact (cexp_of_ge _ _ Hc)].
Qed.

Lemma cexp_of_mono v1 v2 c1 c2 :
  v1 <= v2 -> cexp_of v1 c1 -> cexp_of v2 c2 -> (c1 <= c2)%Z.
Proof.
  intros Hv [[-> H1]|[Hc1 H1]] [[-> H2]|[Hc2 H2]]; try lia.
  - assert (c1 + 52 < -1021)%Z by (apply bpow_lt_inv; lra). lia.
  - assert (c1 + 52 < c2 + 53)%Z by (apply bpow_lt_inv; lra). lia.
Qed.

Lemma rne_bounds v c n :
  0 < v -> cexp_of v c -> rne v c n ->
  (0 <= n <= 2 ^ 53)%Z /\ ((-1074 < c)%Z -> (2 ^ 52 <= n)%Z).
Proof.
  intros Hv Hc [[L U] _]. pose proof (bpow_pos c) as B.
  pose proof (cexp_of_lt _ _ Hc) as Hlt. rewrite Z.add_comm, bpow_add in Hlt.
  rewrite (bpow_IZR 53) in Hlt by lia.
  assert (-1 < IZR n) as N0.
  { apply Rmult_lt_reg_r with (bpow c); [exact B|]. lra. }
  assert (IZR n < IZR (2 ^ 53) + 1) as N1.
  { apply Rmult_lt_reg_r with (bpow c); [exact B|]. lra. }
  split.
  - split.
    + apply Z.lt_succ_r. apply lt_IZR. unfold Z.succ. rewrite plus_IZR. lra.
    + apply Z.lt_succ_r. apply lt_IZR. unfold Z.succ. rewrite plus_IZR. lra.
  - intros Hn. destruct Hc as [[-> _]|[_ [Hc _]]]; [lia|].
    replace (c + 52)%Z with (52 + c)%Z in Hc by lia.
    rewrite bpow_add, (bpow_IZR 52) in Hc by lia.
    assert (IZR (2 ^ 52) < IZR n + 1).
    { apply Rmult_lt_reg_r with (bpow c); [exact B|]. lra. }
    apply Z.lt_succ_r. apply lt_IZR. unfold Z.succ. rewrite plus_IZR. lra.
Qed.

Lemma rne_mono_same v1 v2 c n1 n2 :
  v1 <= v2 -> rne v1 c n1 -> rne v2 c n2 -> (n1 <= n2)%Z.
Proof.
  intros Hv [[L1 U1] [T1 _]] [[L2 U2] [_ T2]]. pose proof (bpow_pos c) as B.
  destruct (Z_le_gt_dec n1 n2) as [H|H]; [exact H|]. exfalso.
  assert (IZR n1 - 1 / 2 <= IZR n2 + 1 / 2) as N.
  { apply Rmult_le_reg_r with (bpow c); [exact B|]. lra. }
  assert (n1 <= n2 + 1)%Z as N'.
  { apply le_IZR. rewrite plus_IZR. lra. }
  assert (n1 = n2 + 1)%Z as E by lia. subst n1. rewrite plus_IZR in *.
  assert (Z.even (n2 + 1) = true) as E1 by (apply T1; lra).
  assert (Z.even n2 = true) as E2 by (apply T2; lra).
  rewrite Z.add_1_r, Z.even_succ, <- Z.negb_even, E2 in E1. discriminate.
Qed.

(** The value of the rounded number is monotone in the real rounded. *)
Lemma rounded_mono v1 v2 c1 c2 n1 n2 :
  0 < v1 -> v1 <= v2 ->
  cexp_of v1 c1 -> rne v1 c1 n1 -> cexp_of v2 c2 -> rne v2 c2 n2 ->
  F2R n1 c1 <= F2R n2 c2.
Proof.
  intros H0 Hv Hc1 Hr1 Hc2 Hr2.
  pose proof (cexp_of_mono _ _ _ _ Hv Hc1 Hc2) as Hc.
  destruct (rne_bounds _ _ _ H0 Hc1 Hr1) as [[_ N1] _].
  destruct (rne_bounds v2 c2 n2 ltac:(lra) Hc2 Hr2) as [_ N2].
  unfold F2R. pose proof (bpow_pos c1). pose proof (bpow_pos c2).
  destruct (Z.eq_dec c1 c2) as [->|Hne].
  - apply Rmult_le_compat_r; [lra|]. apply IZR_le. eapply rne_mono_same; eauto.
  - assert (2 ^ 52 <= n2)%Z as N2' by (apply N2; pose proof (cexp_of_ge _ _ Hc1); lia).
    apply Rle_trans with (bpow (53 + c1)).
    + rewrite bpow_add, (bpow_IZR 53) by lia.
      apply Rmult_le_compat_r; [lra|]. now apply IZR_le.
    + apply Rle_trans with (bpow (52 + c2)).
      * apply bpow_le. lia.
      * rewrite bpow_add, (bpow_IZR 52) by lia.
        apply Rmult_le_compat_r; [lra|]. now apply IZR_le.
Qed.

Lemma valid_finite s m e :
  valid_binary (S754_finite s m e) = true ->
  (Zpos m < 2 ^ 53)%Z /\ (-1074 <= e <= 971)%Z /\
  ((-1074 < e)%Z -> (2 ^ 52 <= Zpos m)%Z).
Proof.
  cbv [SpecFloat.valid_binary SpecFloat.bounded SpecFloat.canonical_mantissa].
  rewrite fexp64.
  intros H. apply andb_true_iff in H. destruct H as [H1 H2].
  apply Z.eqb_eq in H1. apply Z.leb_le in H2. change (emax - prec)%Z with 971%Z in H2.
  pose proof (digits2_pos_spec m) as [L U].
  assert (Zpos (digits2_pos m) <= 53)%Z as D by lia.
  assert (2 ^ Zpos (digits2_pos m) <= 2 ^ 53)%Z by (apply Z.pow_le_mono_r; lia).
  split; [lia|]. split; [lia|]. intros He.
  assert (Zpos (digits2_pos m) = 53)%Z as E by lia. rewrite E in L. exact L.
Qed.

Lemma F2R_pos p e : 0 < F2R (Zpos p) e.
Proof.
  unfold F2R. apply Rmult_lt_0_compat; [|apply bpow_pos].
  apply IZR_lt. lia.
Qed.

Lemma F2R_lt_mant m1 m2 e : (m1 < m2)%Z -> F2R m1 e < F2R m2 e.
Proof.
  intros H. unfold F2R. apply Rmult_lt_compat_r; [apply bpow_pos|]. now apply IZR_lt.
Qed.

Lemma F2R_lt_exp m1 e1 m2 e2 :
  (m1 < 2 ^ 53)%Z -> (2 ^ 52 <= m2)%Z -> (e1 < e2)%Z -> F2R m1 e1 < F2R m2 e2.
Proof.
  intros H1 H2 He. pose proof (bpow_pos e1). pose proof (bpow_pos e2). unfold F2R.
  apply Rlt_le_trans with (bpow (53 + e1)).
  - rewrite bpow_add, (bpow_IZR 53) by lia.
    apply Rmult_lt_compat_r; [lra|]. now apply IZR_lt.
  - apply Rle_trans with (bpow (52 + e2)).
    + apply bpow_le. lia.
    + rewrite bpow_add, (bpow_IZR 52) by lia.
      apply Rmult_le_compat_r; [lra|]. now apply IZR_le.
Qed.

Lemma F2R_compare m1 e1 m2 e2 :
  valid_binary (S754_finite false m1 e1) = true ->
  valid_binary (S754_finite false m2 e2) = true ->
  match (match (e1 ?= e2)%Z with
         | Lt => Lt | Gt => Gt | Eq => Pos.compare_cont Eq m1 m2
         end) with
  | Lt => F2R (Zpos m1) e1 < F2R (Zpos m2) e2
  | Eq => F2R (Zpos m1) e1 = F2R (Zpos m2) e2
  | Gt => F2R (Zpos m2) e2 < F2R (Zpos m1) e1
  end.
Proof.
  intros V1 V2. apply valid_finite in V1, V2.
  destruct V1 as [A1 [B1 C1]], V2 as [A2 [B2 C2]].
  destruct (Z.compare_spec e1 e2) as [->|He|He].
  - change (Pos.compare_cont Eq m1 m2) with (Pos.compare m1 m2).
    destruct (Pos.compare_spec m1 m2) as [->|Hm|Hm].
    + reflexivity.
    + apply F2R_lt_mant; lia.
    + apply F2R_lt_mant; lia.
  - apply F2R_lt_exp; lia.
  - apply F2R_lt_exp; lia.
Qed.

Lemma SFcompare_spec x y :
  valid_binary x = true -> valid_binary y = true ->
  match SFcompare x y with
  | Some Lt => ER_lt (SF2E x) (SF2E y)
  | Some Eq => SF2E x = SF2E y
  | Some Gt => ER_lt (SF2E y) (SF2E x)
  | None => is_nan_SF x = true \/ is_nan_SF y = true
  end.
Proof.
  intros Vx Vy.
  destruct x as [sx|sx| |sx mx ex], y as [sy|sy| |sy my ey];
    try (simpl; auto; fail);
    try (destruct sx; simpl; auto; fail);
    try (destruct sy; simpl; auto; fail);
    try (destruct sx, sy; simpl; auto; fail).
  - destruct sy; simpl; pose proof (F2R_pos my ey); lra.
  - destruct sx; simpl; pose proof (F2R_pos mx ex); lra.
  - assert (valid_binary (S754_finite false mx ex) = true) as Vx' by exact Vx.
    assert (valid_binary (S754_finite false my ey) = true) as Vy' by exact Vy.
    pose proof (F2R_compare _ _ _ _ Vx' Vy') as C.
    pose proof (F2R_pos mx ex). pose proof (F2R_pos my ey).
    destruct sx, sy; simpl; try lra.
    + destruct (ex ?= ey)%Z; [destruct (Pos.compare_cont Eq mx my)| |]; simpl;
        try lra. rewrite C. reflexivity.
    + destruct (ex ?= ey)%Z; [destruct (Pos.compare_cont Eq mx my)| |]; simpl;
        try lra. rewrite C. reflexivity.
Qed.

Lemma SFleb_E x y :
  valid_binary x = true -> valid_binary y = true ->
  is_nan_SF x = false -> is_nan_SF y = false ->
  (SFleb x y = true <-> ER_le (SF2E x) (SF2E y)).
Proof.
  intros Vx Vy Nx Ny. pose proof (SFcompare_spec x y Vx Vy) as C. unfold SFleb.
  destruct (SFcompare x y) as [[| |]|].
  - rewrite C. split; [|reflexivity]. intros _.
    destruct (SF2E y); simpl; auto; lra.
  - split; [|reflexivity]. intros _.
    destruct (SF2E x), (SF2E y); simpl in *; auto; lra.
  - split; [discriminate|]. intros L.
    destruct (SF2E x), (SF2E y); simpl in *; try contradiction; lra.
  - destruct C; congruence.
Qed.

Lemma SFltb_E x y :
  valid_binary x = true -> valid_binary y = true ->
  is_nan_SF x = false -> is_nan_SF y = false ->
  (SFltb x y = true <-> ER_lt (SF2E x) (SF2E y)).
Proof.
  intros Vx Vy Nx Ny. pose proof (SFcompare_spec x y Vx Vy) as C. unfold SFltb.
  destruct (SFcompare x y) as [[| |]|].
  - rewrite C. split; [discriminate|].
    destruct (SF2E y); simpl; try contradiction; lra.
  - split; [|reflexivity]. auto.
  - split; [discriminate|]. intros L.
    destruct (SF2E x), (SF2E y); simpl in *; try contradiction; lra.
  - destruct C; congruence.
Qed.

Lemma mk_spec s n c :
  (0 <= n <= 2 ^ 53)%Z -> (-1074 <= c)%Z -> ((-1074 < c)%Z -> (2 ^ 52 <= n)%Z) ->
  valid_binary (mk s n c) = true /\ is_nan_SF (mk s n c) = false /\
  exists r, overflowed n c r /\ SF2E (mk s n c) = ER_sign s r.
Proof.
  intros Hn Hc Hnorm. pose proof (bpow_pos c) as B. unfold mk, overflowed.
  destruct n as [|p|p]; [| |lia].
  - repeat split; try reflexivity. exists (Fin 0). split.
    + left. unfold F2R. simpl. pose proof (bpow_pos 1024).
      split; [lra | f_equal; lra].
    + destruct s; simpl; f_equal; lra.
  - destruct (Z.eqb_spec (Zpos p) (2 ^ 53)) as [E|E].
    + assert (F2R (Zpos p) c = bpow (53 + c)) as EF.
      { rewrite E. unfold F2R. now rewrite bpow_add, (bpow_IZR 53) by lia. }
      destruct (Z.leb_spec (c + 1) 971) as [L|L].
      * split.
        { cbv [SpecFloat.valid_binary SpecFloat.bounded SpecFloat.canonical_mantissa].
          rewrite fexp64. apply andb_true_iff. split.
          - apply Z.eqb_eq. change (Zpos (digits2_pos (2 ^ 52))) with 53%Z. lia.
          - apply Z.leb_le. change (emax - prec)%Z with 971%Z. lia. }
        split; [reflexivity|].
        assert (F2R (Zpos (2 ^ 52)) (c + 1) = bpow (53 + c)) as EF'.
        { unfold F2R. replace (53 + c)%Z with (52 + (c + 1))%Z by lia.
          rewrite (bpow_add 52), (bpow_IZR 52) by lia. reflexivity. }
        exists (Fin (F2R (Zpos p) c)). split.
        { left. split; [|reflexivity]. rewrite EF. apply bpow_lt. lia. }
        destruct s; simpl; now rewrite EF, EF'.
      * split; [reflexivity|]. split; [reflexivity|].
        exists PInf. split; [|now destruct s].
        right. split; [|reflexivity]. rewrite EF. apply bpow_le. lia.
    + destruct (Z.leb_spec c 971) as [L|L].
      * split.
        { cbv [SpecFloat.valid_binary SpecFloat.bounded SpecFloat.canonical_mantissa].
          rewrite fexp64. apply andb_true_iff. split.
          - apply Z.eqb_eq. pose proof (digits2_pos_spec p) as [L' U'].
            assert (Zpos (digits2_pos p) - 1 < 53)%Z
              by (apply (Z.pow_lt_mono_r_iff 2); lia).
            destruct (Z.eq_dec c (-1074)) as [->|Hne]; [lia|].
            assert (52 < Zpos (digits2_pos p))%Z
              by (apply (Z.pow_lt_mono_r_iff 2); lia).
            lia.
          - apply Z.leb_le. change (emax - prec)%Z with 971%Z. lia. }
        split; [reflexivity|].
        exists (Fin (F2R (Zpos p) c)). split; [|now destruct s].
        left. split; [|reflexivity].
        apply Rlt_le_trans with (bpow (53 + c)).
        { unfold F2R. rewrite bpow_add, (bpow_IZR 53) by lia.
          apply Rmult_lt_compat_r; [exact B|]. apply IZR_lt. lia. }
        apply bpow_le. lia.
      * split; [reflexivity|]. split; [reflexivity|].
        exists PInf. split; [|now destruct s].
        right. split; [|reflexivity].
        apply Rle_trans with (bpow (52 + c)); [apply bpow_le; lia|].
        unfold F2R. rewrite bpow_add, (bpow_IZR 52) by lia.
        apply Rmult_le_compat_r; [lra|]. apply IZR_le. lia.
Qed.

Lemma rounds_pos_nonneg v r : 0 < v -> rounds_pos v r -> ER_le (Fin 0) r.
Proof.
  intros Hv [c [n [Hc [Hr [[_ ->]|[_ ->]]]]]]; simpl; [|exact I].
  destruct (rne_bounds _ _ _ Hv Hc Hr) as [[N _] _].
  unfold F2R. apply Rmult_le_pos; [now apply IZR_le | pose proof (bpow_pos c); lra].
Qed.

Lemma rounds_pos_mono v1 v2 r1 r2 :
  0 < v1 -> v1 <= v2 -> rounds_pos v1 r1 -> rounds_pos v2 r2 -> ER_le r1 r2.
Proof.
  intros H0 Hv [c1 [n1 [Hc1 [Hr1 O1]]]] [c2 [n2 [Hc2 [Hr2 O2]]]].
  pose proof (rounded_mono _ _ _ _ _ _ H0 Hv Hc1 Hr1 Hc2 Hr2) as M.
  destruct O1 as [[A1 ->]|[A1 ->]], O2 as [[A2 ->]|[A2 ->]]; simpl; auto; lra.
Qed.

Lemma ER_le_opp a b : ER_le a b -> ER_le (ER_opp b) (ER_opp a).
Proof. destruct a, b; simpl; auto; lra. Qed.

Lemma ER_le_trans a b c : ER_le a b -> ER_le b c -> ER_le a c.
Proof. destruct a, b, c; simpl; auto; try contradiction; lra. Qed.

Lemma ER_le_refl a : ER_le a a.
Proof. destruct a; simpl; auto; lra. Qed.

Lemma ER_opp_0 : ER_opp (Fin 0) = Fin 0.
Proof. simpl. f_equal. lra. Qed.

Lemma rounds_neg_nonpos v r :
  0 < v -> rounds_pos v r -> ER_le (ER_opp r) (Fin 0).
Proof.
  intros Hv H. rewrite <- ER_opp_0. apply ER_le_opp. now apply (rounds_pos_nonneg v).
Qed.

Lemma rounds_mono a1 a2 r1 r2 :
  ER_le a1 a2 -> rounds a1 r1 -> rounds a2 r2 -> ER_le r1 r2.
Proof.
  destruct a1 as [|v1|], a2 as [|v2|]; simpl; intros H H1 H2; subst;
    try contradiction; try exact I; try (now destruct r1); try (now destruct r2).
  destruct H1 as [[E1 ->]|[[P1 R1]|[N1 [r1' [R1 ->]]]]],
           H2 as [[E2 ->]|[[P2 R2]|[N2 [r2' [R2 ->]]]]]; try lra.
  - simpl. lra.
  - now apply (rounds_pos_nonneg v2).
  - now apply (rounds_pos_mono v1 v2).
  - apply (rounds_neg_nonpos (- v1)); [lra | exact R1].
  - apply ER_le_trans with (Fin 0).
    + apply (rounds_neg_nonpos (- v1)); [lra | exact R1].
    + now apply (rounds_pos_nonneg v2).
  - apply ER_le_opp. apply (rounds_pos_mono (- v2) (- v1)); [lra | lra | exact R2 | exact R1].
Qed.

Lemma binary_round_aux_rounds s m e l v c :
  (0 <= m)%Z -> inbetween m e l v -> 0 < v -> cexp_of v c -> (e <= c)%Z ->
  valid_binary (binary_round_aux prec emax s m e l) = true /\
  is_nan_SF (binary_round_aux prec emax s m e l) = false /\
  exists r, rounds_pos v r /\
            SF2E (binary_round_aux prec emax s m e l) = ER_sign s r.
Proof.
  intros Hm H Hv Hc Hec.
  destruct (binary_round_aux_spec s m e l v c Hm H Hv Hc Hec) as [n [Hr [Hn ->]]].
  destruct (rne_bounds _ _ _ Hv Hc Hr) as [_ Hnorm].
  destruct (mk_spec s n c Hn (cexp_of_ge _ _ Hc) Hnorm) as [V [N [r [O E]]]].
  split; [exact V|]. split; [exact N|]. exists r. split; [|exact E].
  now exists c, n.
Qed.

Lemma rounds_pos_exact m e :
  valid_binary (S754_finite false m e) = true ->
  rounds_pos (F2R (Zpos m) e) (Fin (F2R (Zpos m) e)).
Proof.
  intros V. apply valid_finite in V. destruct V as [A [Bd C]].
  pose proof (bpow_pos e) as B. exists e, (Zpos m). repeat split.
  - unfold cexp_of. destruct (Z.eq_dec e (-1074)) as [->|Hne].
    + left. split; [reflexivity|]. unfold F2R.
      apply Rlt_le_trans with (IZR (2 ^ 53) * bpow (-1074)).
      * apply Rmult_lt_compat_r; [lra|]. now apply IZR_lt.
      * rewrite <- (bpow_IZR 53), <- bpow_add by lia. apply bpow_le. lia.
    + right. split; [lia|]. split.
      * replace (e + 52)%Z with (52 + e)%Z by lia. unfold F2R.
        rewrite bpow_add, (bpow_IZR 52) by lia.
        apply Rmult_le_compat_r; [lra|]. apply IZR_le. apply C. lia.
      * replace (e + 53)%Z with (53 + e)%Z by lia. unfold F2R.
        rewrite bpow_add, (bpow_IZR 53) by lia.
        apply Rmult_lt_compat_r; [lra|]. now apply IZR_lt.
  - unfold F2R. lra.
  - unfold F2R. lra.
  - unfold F2R. intros. exfalso. lra.
  - unfold F2R. intros. exfalso. lra.
  - left. split; [|reflexivity]. apply Rlt_le_trans with (bpow (53 + e)).
    + unfold F2R. rewrite bpow_add, (bpow_IZR 53) by lia.
      apply Rmult_lt_compat_r; [lra|]. now apply IZR_lt.
    + apply bpow_le. lia.
Qed.

Lemma rounds_signed s v r a :
  0 < v -> rounds_pos v r -> a = ER_sign s r ->
  rounds (Fin (if s then - v else v)) a.
Proof.
  intros Hv Hr ->. destruct s; simpl.
  - right. right. split; [lra|]. exists r. split; [|reflexivity].
    now replace (- - v) with v by lra.
  - right. left. auto.
Qed.

Lemma rounds_exact x :
  valid_binary x = true -> is_nan_SF x = false -> rounds (SF2E x) (SF2E x).
Proof.
  intros V N. destruct x as [s|s| |s m e]; try discriminate.
  - simpl. left. auto.
  - now destruct s.
  - assert (valid_binary (S754_finite false m e) = true) as V' by exact V.
    pose proof (rounds_pos_exact m e V') as H.
    change (SF2E (S754_finite s m e))
      with (Fin (if s then - F2R (Zpos m) e else F2R (Zpos m) e)).
    apply (rounds_signed s _ _ _ (F2R_pos m e) H). now destruct s.
Qed.

Lemma SFmul_finite sx mx ex sy my ey :
  valid_binary (S754_finite sx mx ex) = true ->
  valid_binary (S754_finite sy my ey) = true ->
  valid_binary (SFmul prec emax (S754_finite sx mx ex) (S754_finite sy my ey)) = true /\
  is_nan_SF (SFmul prec emax (S754_finite sx mx ex) (S754_finite sy my ey)) = false /\
  exists r, rounds_pos (F2R (Zpos mx) ex * F2R (Zpos my) ey) r /\
    SF2E (SFmul prec emax (S754_finite sx mx ex) (S754_finite sy my ey)) =
    ER_sign (xorb sx sy) r.
Proof.
  intros Vx Vy. apply valid_finite in Vx, Vy.
  destruct Vx as [A1 [B1 C1]], Vy as [A2 [B2 C2]].
  cbv [SFmul].
  pose proof (F2R_digits (mx * my) (ex + ey)) as [L U].
  assert (F2R (Zpos mx) ex * F2R (Zpos my) ey = F2R (Zpos (mx * my)) (ex + ey)) as E.
  { unfold F2R. rewrite Pos2Z.inj_mul, mult_IZR, bpow_add. ring. }
  rewrite E.
  apply (binary_round_aux_rounds _ _ _ _ _
           (fexp prec emax (Zpos (digits2_pos (mx * my)) + (ex + ey)))).
  - lia.
  - reflexivity.
  - apply F2R_pos.
  - apply mag_cexp_of. split.
    + replace (Zpos (digits2_pos (mx * my)) + (ex + ey) - 1)%Z
        with (Zpos (digits2_pos (mx * my)) - 1 + (ex + ey))%Z by lia. exact L.
    + apply Rlt_le_trans with (2 := U). apply F2R_lt_mant. lia.
  - rewrite fexp64. pose proof (digits2_pos_spec (mx * my)) as [L' U'].
    rewrite Pos2Z.inj_mul in U'.
    destruct (Z_le_gt_dec (ex + ey) (-1074)) as [H|H]; [lia|].
    assert (2 ^ 52 <= Zpos mx * Zpos my)%Z as P.
    { destruct (Z.eq_dec ex (-1074)) as [->|Hx].
      - assert (2 ^ 52 <= Zpos my)%Z by (apply C2; lia). nia.
      - assert (2 ^ 52 <= Zpos mx)%Z by (apply C1; lia). nia. }
    assert (52 < Zpos (digits2_pos (mx * my)))%Z
      by (apply (Z.pow_lt_mono_r_iff 2); lia).
    lia.
Qed.

Lemma Rdiv_lt_l a b d : 0 < d -> a < b * d -> a / d < b.
Proof.
  intros Hd H. unfold Rdiv. apply Rmult_lt_reg_r with d; [exact Hd|].
  rewrite Rmult_assoc, Rinv_l by lra. lra.
Qed.

Lemma Rdiv_lt_r a b d : 0 < d -> a * d < b -> a < b / d.
Proof.
  intros Hd H. unfold Rdiv. apply Rmult_lt_reg_r with d; [exact Hd|].
  rewrite Rmult_assoc, Rinv_l by lra. lra.
Qed.

Lemma Rdiv_le_r a b d : 0 < d -> a * d <= b -> a <= b / d.
Proof.
  intros Hd H. unfold Rdiv. apply Rmult_le_reg_r with d; [exact Hd|].
  rewrite Rmult_assoc, Rinv_l by lra. lra.
Qed.

Lemma Rdiv_le_l a b d : 0 < d -> a <= b * d -> a / d <= b.
Proof.
  intros Hd H. unfold Rdiv. apply Rmult_le_reg_r with d; [exact Hd|].
  rewrite Rmult_assoc, Rinv_l by lra. lra.
Qed.

(** The location [new_location] gives a remainder [k] of a division by
    [nb_steps]: exact when [k = 0], and otherwise the comparison of [2 * k]
    with [nb_steps]. *)
Lemma new_location_spec nb_steps k :
  (0 < nb_steps)%Z -> (0 <= k < nb_steps)%Z ->
  match new_location nb_steps k with
  | loc_Exact => k = 0%Z
  | loc_Inexact c => (0 < k)%Z /\ (2 * k ?= nb_steps)%Z = c
  end.
Proof.
  intros Hn Hk. unfold new_location, new_location_even, new_location_odd.
  destruct (Z.even nb_steps) eqn:Ev; destruct (Z.eqb_spec k 0) as [E|E]; auto.
  - split; [lia | reflexivity].
  - split; [lia|].
    destruct (Z.compare_spec (2 * k + 1) nb_steps) as [H|H|H];
      destruct (Z.compare_spec (2 * k) nb_steps) as [H'|H'|H']; try reflexivity; try lia.
    subst nb_steps. rewrite Z.even_mul in Ev. discriminate.
Qed.

Lemma SFdiv_core_binary_spec m1 e1 m2 e2 :
  exists q e' l c,
    SFdiv_core_binary prec emax (Zpos m1) e1 (Zpos m2) e2 = (q, e', l) /\
    (0 <= q)%Z /\
    inbetween q e' l (F2R (Zpos m1) e1 / F2R (Zpos m2) e2) /\
    cexp_of (F2R (Zpos m1) e1 / F2R (Zpos m2) e2) c /\ (e' <= c)%Z.
Proof.
  unfold SFdiv_core_binary. simpl Zdigits2.
  set (d1 := Zpos (digits2_pos m1)). set (d2 := Zpos (digits2_pos m2)).
  set (e' := Z.min (fexp prec emax (d1 + e1 - (d2 + e2))) (e1 - e2)).
  set (s := (e1 - e2 - e')%Z).
  assert (0 <= s)%Z as Hs by (unfold s, e'; lia).
  set (m' := match s with
             | Zpos _ => Z.shiftl (Zpos m1) s
             | Z0 => Zpos m1
             | Zneg _ => 0%Z
             end).
  assert (m' = Zpos m1 * 2 ^ s)%Z as Em'.
  { unfold m'. destruct s as [|p|p]; [lia | | lia].
    now rewrite Z.shiftl_mul_pow2 by lia. }
  pose proof (Z_div_mod m' (Zpos m2) ltac:(lia)) as DM.
  destruct (Z.div_eucl m' (Zpos m2)) as [q r]. destruct DM as [Eq Hr].
  set (v := F2R (Zpos m1) e1 / F2R (Zpos m2) e2).
  pose proof (F2R_pos m1 e1) as P1. pose proof (F2R_pos m2 e2) as P2.
  pose proof (bpow_pos e') as B.
  assert (0 < IZR (Zpos m2)) as M2 by (apply IZR_lt; lia).
  assert (0 <= q)%Z as Hq by nia.
  (* the quotient in terms of q and r *)
  assert (v * IZR (Zpos m2) = (IZR q * IZR (Zpos m2) + IZR r) * bpow e') as Ev.
  { assert (IZR (Zpos m1) * bpow s = IZR (Zpos m2) * IZR q + IZR r) as Em.
    { rewrite bpow_IZR by lia. rewrite <- mult_IZR, <- Em', Eq.
      now rewrite plus_IZR, mult_IZR. }
    unfold v, F2R. replace e1 with (s + e' + e2)%Z by (unfold s; lia).
    rewrite !bpow_add. pose proof (bpow_pos e2). field_simplify; [|lra].
    replace (IZR (Zpos m1) * bpow s * bpow e') with
      ((IZR (Zpos m2) * IZR q + IZR r) * bpow e') by (rewrite <- Em; ring).
    ring. }
  assert (v = F2R q e' + IZR r * bpow e' / IZR (Zpos m2)) as Ev'.
  { unfold F2R. apply Rmult_eq_reg_r with (IZR (Zpos m2)); [|lra].
    rewrite Ev. field. lra. }
  set (t := IZR r * bpow e' / IZR (Zpos m2)) in *.
  exists q, e', (new_location (Zpos m2) r).
  (* the exponent of the quotient *)
  assert (exists c, cexp_of v c /\ (e' <= c)%Z) as [c [Hc Hle]].
  { pose proof (F2R_digits m1 e1) as [L1 U1]. pose proof (F2R_digits m2 e2) as [L2 U2].
    fold d1 in L1, U1. fold d2 in L2, U2.
    assert (F2R (Zpos m1) e1 < bpow (d1 + e1)) as U1'
      by (apply Rlt_le_trans with (2 := U1); apply F2R_lt_mant; lia).
    assert (F2R (Zpos m2) e2 < bpow (d2 + e2)) as U2'
      by (apply Rlt_le_trans with (2 := U2); apply F2R_lt_mant; lia).
    set (D := (d1 + e1 - (d2 + e2))%Z).
    assert (bpow (D - 1) < v) as Lv.
    { apply Rdiv_lt_r; [exact P2|].
      apply Rlt_le_trans with (bpow (D - 1) * bpow (d2 + e2)).
      - apply Rmult_lt_compat_l; [apply bpow_pos | exact U2'].
      - rewrite <- bpow_add. replace (D - 1 + (d2 + e2))%Z with (d1 - 1 + e1)%Z
          by (unfold D; lia). exact L1. }
    assert (v < bpow (D + 1)) as Uv.
    { apply Rdiv_lt_l; [exact P2|].
      apply Rlt_le_trans with (bpow (D + 1) * bpow (d2 - 1 + e2)).
      - rewrite <- bpow_add. replace (D + 1 + (d2 - 1 + e2))%Z with (d1 + e1)%Z
          by (unfold D; lia). exact U1'.
      - apply Rmult_le_compat_l; [pose proof (bpow_pos (D + 1)); lra | exact L2]. }
    destruct (Rlt_le_dec v (bpow D)) as [Hv|Hv].
    - exists (fexp prec emax D). split.
      + apply mag_cexp_of. lra.
      + unfold e'. fold D. lia.
    - exists (fexp prec emax (D + 1)). split.
      + apply mag_cexp_of. replace (D + 1 - 1)%Z with D by lia. lra.
      + unfold e'. fold D. rewrite !fexp64. lia. }
  exists c. split; [reflexivity|]. split; [exact Hq|]. split; [|auto].
  pose proof (new_location_spec (Zpos m2) r ltac:(lia) Hr) as NL.
  destruct (new_location (Zpos m2) r) as [|cmp]; simpl.
  - subst r. unfold t in Ev'. rewrite Ev'. unfold Rdiv. ring.
  - destruct NL as [Hr0 Hcmp].
    assert (0 < t < bpow e') as Ht.
    { unfold t. split.
      - apply Rdiv_lt_r; [exact M2|]. rewrite Rmult_0_l.
        apply Rmult_lt_0_compat; [apply IZR_lt; lia | exact B].
      - apply Rdiv_lt_l; [exact M2|]. rewrite (Rmult_comm (bpow e')).
        apply Rmult_lt_compat_r; [exact B | apply IZR_lt; lia]. }
    rewrite Ev'. unfold F2R. rewrite plus_IZR. split; [lra|].
    destruct (Z.compare_spec (2 * r) (Zpos m2)) as [H|H|H]; subst cmp; simpl.
    + assert (t = bpow e' / 2); [|lra]. unfold t.
      apply IZR_eq in H. rewrite mult_IZR in H. rewrite <- H. field.
      apply IZR_lt in Hr0. lra.
    + assert (t < bpow e' / 2); [|lra]. unfold t. apply Rdiv_lt_l; [exact M2|].
      apply IZR_lt in H. rewrite mult_IZR in H.
      assert (IZR r * bpow e' < IZR (Zpos m2) / 2 * bpow e')
        by (apply Rmult_lt_compat_r; [exact B | lra]). lra.
    + assert (bpow e' / 2 < t); [|lra]. unfold t. apply Rdiv_lt_r; [exact M2|].
      apply IZR_lt in H. rewrite mult_IZR in H.
      assert (IZR (Zpos m2) / 2 * bpow e' < IZR r * bpow e')
        by (apply Rmult_lt_compat_r; [exact B | lra]). lra.
Qed.

Lemma SFdiv_finite sx mx ex sy my ey :
  valid_binary (SFdiv prec emax (S754_finite sx mx ex) (S754_finite sy my ey)) = true /\
  is_nan_SF (SFdiv prec emax (S754_finite sx mx ex) (S754_finite sy my ey)) = false /\
  exists r, rounds_pos (F2R (Zpos mx) ex / F2R (Zpos my) ey) r /\
    SF2E (SFdiv prec emax (S754_finite sx mx ex) (S754_finite sy my ey)) =
    ER_sign (xorb sx sy) r.
Proof.
  cbv [SFdiv].
  destruct (SFdiv_core_binary_spec mx ex my ey) as [q [e' [l [c [E [Hq [Hin [Hc Hle]]]]]]]].
  rewrite E. apply (binary_round_aux_rounds _ _ _ _ _ c); auto.
  apply Rdiv_lt_0_compat; apply F2R_pos.
Qed.

Lemma Pos_iter_xO m d : Zpos (Pos.iter xO m d) = (Zpos m * 2 ^ Zpos d)%Z.
Proof.
  induction d as [|d IH] using Pos.peano_ind.
  - simpl. lia.
  - rewrite Pos.iter_succ, Pos2Z.inj_xO, IH, Pos2Z.inj_succ, Z.pow_succ_r by lia. lia.
Qed.

Lemma shl_align_spec mx ex ex' :
  F2R (Zpos (fst (shl_align mx ex ex'))) (snd (shl_align mx ex ex')) =
    F2R (Zpos mx) ex /\
  snd (shl_align mx ex ex') = Z.min ex ex'.
Proof.
  unfold shl_align. destruct (ex' - ex)%Z as [|d|d] eqn:E; simpl.
  - split; [reflexivity | lia].
  - split; [reflexivity | lia].
  - split; [|lia]. unfold F2R. rewrite Pos_iter_xO, mult_IZR.
    replace (bpow ex) with (bpow (Zpos d + ex')) by (f_equal; lia).
    rewrite bpow_add, (bpow_IZR (Zpos d)) by lia. ring.
Qed.

Lemma binary_round_rounds s m e :
  valid_binary (binary_round prec emax s m e) = true /\
  is_nan_SF (binary_round prec emax s m e) = false /\
  exists r, rounds_pos (F2R (Zpos m) e) r /\
            SF2E (binary_round prec emax s m e) = ER_sign s r.
Proof.
  unfold binary_round.
  pose proof (shl_align_spec m e (fexp prec emax (Zpos (digits2_pos m) + e))) as [E1 E2].
  destruct (shl_align m e (fexp prec emax (Zpos (digits2_pos m) + e))) as [mz ez].
  cbn [fst snd] in E1, E2. pose proof (F2R_digits m e) as [L U].
  apply (binary_round_aux_rounds _ _ _ _ _ (fexp prec emax (Zpos (digits2_pos m) + e))).
  - lia.
  - simpl. now rewrite E1.
  - apply F2R_pos.
  - apply mag_cexp_of. split.
    + replace (Zpos (digits2_pos m) + e - 1)%Z with (Zpos (digits2_pos m) - 1 + e)%Z
        by lia. exact L.
    + apply Rlt_le_trans with (2 := U). apply F2R_lt_mant. lia.
  - lia.
Qed.

Lemma F2R_opp m e : F2R (- m) e = - F2R m e.
Proof. unfold F2R. rewrite opp_IZR. ring. Qed.

Lemma binary_normalize_rounds z e :
  valid_binary (binary_normalize prec emax z e false) = true /\
  is_nan_SF (binary_normalize prec emax z e false) = false /\
  rounds (Fin (F2R z e)) (SF2E (binary_normalize prec emax z e false)).
Proof.
  destruct z as [|m|m]; simpl binary_normalize.
  - repeat split. simpl. left. split; [unfold F2R; simpl; ring | reflexivity].
  - destruct (binary_round_rounds false m e) as [V [N [r [Hr E]]]].
    repeat split; auto.
    exact (rounds_signed false _ _ _ (F2R_pos m e) Hr E).
  - destruct (binary_round_rounds true m e) as [V [N [r [Hr E]]]].
    repeat split; auto. change (Zneg m) with (- Zpos m)%Z. rewrite F2R_opp.
    exact (rounds_signed true _ _ _ (F2R_pos m e) Hr E).
Qed.

Lemma F2R_cond_Zopp s m e :
  F2R (cond_Zopp s (Zpos m)) e = if s then - F2R (Zpos m) e else F2R (Zpos m) e.
Proof. destruct s; simpl; [apply (F2R_opp (Zpos m)) | reflexivity]. Qed.

Lemma F2R_plus m1 m2 e : F2R (m1 + m2) e = F2R m1 e + F2R m2 e.
Proof. unfold F2R. rewrite plus_IZR. ring. Qed.

Lemma SFadd_finite sx mx ex sy my ey :
  valid_binary (SFadd prec emax (S754_finite sx mx ex) (S754_finite sy my ey)) = true /\
  is_nan_SF (SFadd prec emax (S754_finite sx mx ex) (S754_finite sy my ey)) = false /\
  rounds (Fin (SF2R (S754_finite sx mx ex) + SF2R (S754_finite sy my ey)))
    (SF2E (SFadd prec emax (S754_finite sx mx ex) (S754_finite sy my ey))).
Proof.
  cbv [SFadd].
  pose proof (shl_align_spec mx ex (Z.min ex ey)) as [X1 X2].
  pose proof (shl_align_spec my ey (Z.min ex ey)) as [Y1 Y2].
  replace (Z.min ex (Z.min ex ey)) with (Z.min ex ey) in X2 by lia.
  replace (Z.min ey (Z.min ex ey)) with (Z.min ex ey) in Y2 by lia.
  rewrite X2 in X1. rewrite Y2 in Y1.
  assert (SF2R (S754_finite sx mx ex) + SF2R (S754_finite sy my ey) =
          F2R (cond_Zopp sx (Zpos (fst (shl_align mx ex (Z.min ex ey)))) +
               cond_Zopp sy (Zpos (fst (shl_align my ey (Z.min ex ey)))))
              (Z.min ex ey)) as E.
  { rewrite F2R_plus, !F2R_cond_Zopp, X1, Y1. reflexivity. }
  rewrite E. apply binary_normalize_rounds.
Qed.

Lemma E_scale_mono a b k : 0 < k -> ER_le a b -> ER_le (E_scale a k) (E_scale b k).
Proof.
  intros Hk. destruct a, b; simpl; auto. intros H.
  apply Rmult_le_compat_r; lra.
Qed.

Lemma E_add_mono_r a b c : ER_le a b -> ER_le (E_add a (Fin c)) (E_add b (Fin c)).
Proof. destruct a, b; simpl; auto. intros. lra. Qed.

Lemma E_add_mono_l a b c : ER_le a b -> ER_le (E_add (Fin c) a) (E_add (Fin c) b).
Proof. destruct a, b; simpl; auto. intros. lra. Qed.

Lemma SFmul_pos x my ey :
  valid_binary x = true -> valid_binary (S754_finite false my ey) = true ->
  is_nan_SF x = false ->
  valid_binary (SFmul prec emax x (S754_finite false my ey)) = true /\
  is_nan_SF (SFmul prec emax x (S754_finite false my ey)) = false /\
  rounds (E_scale (SF2E x) (F2R (Zpos my) ey))
    (SF2E (SFmul prec emax x (S754_finite false my ey))).
Proof.
  intros Vx Vy Nx. destruct x as [s|s| |s m e]; try discriminate.
  - repeat split. simpl. left. split; [ring | reflexivity].
  - repeat split. now destruct s.
  - destruct (SFmul_finite s m e false my ey Vx Vy) as [V [N [r [Hr E]]]].
    repeat split; auto. rewrite xorb_false_r in E.
    pose proof (F2R_pos m e). pose proof (F2R_pos my ey).
    replace (E_scale (SF2E (S754_finite s m e)) (F2R (Zpos my) ey))
      with (Fin (if s then - (F2R (Zpos m) e * F2R (Zpos my) ey)
                 else F2R (Zpos m) e * F2R (Zpos my) ey))
      by (destruct s; simpl; f_equal; ring).
    apply (rounds_signed s _ r); auto. now apply Rmult_lt_0_compat.
Qed.

Lemma SFdiv_pos x my ey :
  is_nan_SF x = false ->
  valid_binary (SFdiv prec emax x (S754_finite false my ey)) = true /\
  is_nan_SF (SFdiv prec emax x (S754_finite false my ey)) = false /\
  rounds (E_scale (SF2E x) (/ F2R (Zpos my) ey))
    (SF2E (SFdiv prec emax x (S754_finite false my ey))).
Proof.
  intros Nx. destruct x as [s|s| |s m e]; try discriminate.
  - repeat split. simpl. left. split; [ring | reflexivity].
  - repeat split. now destruct s.
  - destruct (SFdiv_finite s m e false my ey) as [V [N [r [Hr E]]]].
    repeat split; auto. rewrite xorb_false_r in E.
    pose proof (F2R_pos m e). pose proof (F2R_pos my ey).
    replace (E_scale (SF2E (S754_finite s m e)) (/ F2R (Zpos my) ey))
      with (Fin (if s then - (F2R (Zpos m) e / F2R (Zpos my) ey)
                 else F2R (Zpos m) e / F2R (Zpos my) ey))
      by (destruct s; simpl; f_equal; unfold Rdiv; ring).
    apply (rounds_signed s _ r); auto. now apply Rdiv_lt_0_compat.
Qed.

Lemma SFadd_gen x y :
  valid_binary x = true -> valid_binary y = true ->
  is_nan_SF x = false -> is_nan_SF y = false ->
  finite_SF x = true \/ finite_SF y = true ->
  valid_binary (SFadd prec emax x y) = true /\
  is_nan_SF (SFadd prec emax x y) = false /\
  rounds (E_add (SF2E x) (SF2E y)) (SF2E (SFadd prec emax x y)).
Proof.
  intros Vx Vy Nx Ny F.
  destruct x as [sx|sx| |sx mx ex], y as [sy|sy| |sy my ey]; try discriminate;
    try (destruct F; discriminate).
  - repeat split; try (now destruct sx, sy).
    destruct sx, sy; simpl; left; (split; [ring | reflexivity]).
  - repeat split. now destruct sx, sy.
  - repeat split; auto.
    replace (E_add (SF2E (S754_zero sx)) (SF2E (S754_finite sy my ey)))
      with (SF2E (S754_finite sy my ey)) by (simpl; f_equal; ring).
    now apply rounds_exact.
  - repeat split. now destruct sx, sy.
  - repeat split. now destruct sx, sy.
  - repeat split; auto.
    replace (E_add (SF2E (S754_finite sx mx ex)) (SF2E (S754_zero sy)))
      with (SF2E (S754_finite sx mx ex)) by (simpl; f_equal; ring).
    now apply rounds_exact.
  - repeat split. now destruct sx, sy.
  - apply SFadd_finite.
Qed.

Lemma SFleb_not_nan x y :
  SFleb x y = true -> is_nan_SF x = false /\ is_nan_SF y = false.
Proof. destruct x, y; simpl; auto; discriminate. Qed.

Lemma SFltb_not_nan x y :
  SFltb x y = true -> is_nan_SF x = false /\ is_nan_SF y = false.
Proof. destruct x, y; simpl; auto; discriminate. Qed.

Lemma leb_iff x y :
  (x <=? y)%float = true <-> not_nan x /\ not_nan y /\ ER_le (FE x) (FE y).
Proof.
  rewrite leb_spec. unfold not_nan, FE. split.
  - intros H. destruct (SFleb_not_nan _ _ H) as [Nx Ny]. repeat split; auto.
    apply SFleb_E; auto using Prim2SF_valid.
  - intros [Nx [Ny H]]. apply SFleb_E; auto using Prim2SF_valid.
Qed.

Lemma ltb_iff x y :
  (x <? y)%float = true <-> not_nan x /\ not_nan y /\ ER_lt (FE x) (FE y).
Proof.
  rewrite ltb_spec. unfold not_nan, FE. split.
  - intros H. destruct (SFltb_not_nan _ _ H) as [Nx Ny]. repeat split; auto.
    apply SFltb_E; auto using Prim2SF_valid.
  - intros [Nx [Ny H]]. apply SFltb_E; auto using Prim2SF_valid.
Qed.

Lemma div_mono x x' y :
  pos_finite y -> (x <=? x')%float = true -> (x / y <=? x' / y)%float = true.
Proof.
  intros [m [e Ey]] H. apply leb_iff in H. destruct H as [Nx [Nx' H]].
  apply leb_iff. unfold not_nan, FE in *. rewrite !div_spec, Ey.
  destruct (SFdiv_pos (Prim2SF x) m e Nx) as [_ [N1 R1]].
  destruct (SFdiv_pos (Prim2SF x') m e Nx') as [_ [N2 R2]].
  repeat split; auto. eapply rounds_mono; [|exact R1|exact R2].
  apply E_scale_mono; [|exact H]. apply Rinv_0_lt_compat, F2R_pos.
Qed.

Lemma mul_mono x x' y :
  pos_finite y -> (x <=? x')%float = true -> (x * y <=? x' * y)%float = true.
Proof.
  intros [m [e Ey]] H. apply leb_iff in H. destruct H as [Nx [Nx' H]].
  apply leb_iff. unfold not_nan, FE in *. rewrite !mul_spec, Ey.
  assert (valid_binary (S754_finite false m e) = true) as Vy
    by (rewrite <- Ey; apply Prim2SF_valid).
  destruct (SFmul_pos (Prim2SF x) m e (Prim2SF_valid x) Vy Nx) as [_ [N1 R1]].
  destruct (SFmul_pos (Prim2SF x') m e (Prim2SF_valid x') Vy Nx') as [_ [N2 R2]].
  repeat split; auto. eapply rounds_mono; [|exact R1|exact R2].
  apply E_scale_mono; [apply F2R_pos | exact H].
Qed.

Lemma finite_Fin c : finite c -> exists v, FE c = Fin v.
Proof.
  unfold finite, FE. destruct (Prim2SF c); try discriminate; intros _; eexists; reflexivity.
Qed.

Lemma finite_not_nan c : finite c -> not_nan c.
Proof. unfold finite, not_nan. now destruct (Prim2SF c). Qed.

Lemma add_mono_r x x' c :
  finite c -> (x <=? x')%float = true -> (x + c <=? x' + c)%float = true.
Proof.
  intros Fc H. apply leb_iff in H. destruct H as [Nx [Nx' H]].
  pose proof (finite_not_nan c Fc) as Nc. destruct (finite_Fin c Fc) as [v Ev].
  apply leb_iff. unfold not_nan, FE, finite in *. rewrite !add_spec.
  destruct (SFadd_gen (Prim2SF x) (Prim2SF c) (Prim2SF_valid x) (Prim2SF_valid c)
              Nx Nc (or_intror Fc)) as [_ [N1 R1]].
  destruct (SFadd_gen (Prim2SF x') (Prim2SF c) (Prim2SF_valid x') (Prim2SF_valid c)
              Nx' Nc (or_intror Fc)) as [_ [N2 R2]].
  repeat split; auto. eapply rounds_mono; [|exact R1|exact R2].
  rewrite Ev. now apply E_add_mono_r.
Qed.

Lemma add_mono_l x x' c :
  finite c -> (x <=? x')%float = true -> (c + x <=? c + x')%float = true.
Proof.
  intros Fc H. apply leb_iff in H. destruct H as [Nx [Nx' H]].
  pose proof (finite_not_nan c Fc) as Nc. destruct (finite_Fin c Fc) as [v Ev].
  apply leb_iff. unfold not_nan, FE, finite in *. rewrite !add_spec.
  destruct (SFadd_gen (Prim2SF c) (Prim2SF x) (Prim2SF_valid c) (Prim2SF_valid x)
              Nc Nx (or_introl Fc)) as [_ [N1 R1]].
  destruct (SFadd_gen (Prim2SF c) (Prim2SF x') (Prim2SF_valid c) (Prim2SF_valid x')
              Nc Nx' (or_introl Fc)) as [_ [N2 R2]].
  repeat split; auto. eapply rounds_mono; [|exact R1|exact R2].
  rewrite Ev. now apply E_add_mono_l.
Qed.

(** *** round1 *)

Lemma rne_exact t c : rne (IZR t * bpow c) c t.
Proof.
  pose proof (bpow_pos c). unfold rne. repeat split; try lra; intros; exfalso; lra.
Qed.

Lemma rne_opp v c n : rne v c n -> rne (- v) c (- n).
Proof.
  unfold rne. rewrite opp_IZR, Z.even_opp. intros [[L U] [T1 T2]].
  repeat split; try lra; intros E; [apply T2 | apply T1]; lra.
Qed.

Lemma rne_div_spec n d :
  (0 < d)%Z -> rne (IZR n / IZR d) 0 (rne_div n d).
Proof.
  intros Hd. unfold rne_div.
  pose proof (Z.div_mod n d ltac:(lia)) as E.
  pose proof (Z.mod_pos_bound n d Hd) as [R0 R1].
  set (q := (n / d)%Z) in *. set (r := (n mod d)%Z) in *.
  assert (0 < IZR d) as D by (apply IZR_lt; lia).
  assert (IZR n / IZR d = IZR q + IZR r / IZR d) as Ex.
  { rewrite E, plus_IZR, mult_IZR. field. lra. }
  rewrite Ex. set (t := IZR r / IZR d).
  assert (0 <= t < 1) as Ht.
  { unfold t. split.
    - apply Rdiv_le_r; [exact D|]. rewrite Rmult_0_l. apply IZR_le. lia.
    - apply Rdiv_lt_l; [exact D|]. rewrite Rmult_1_l. apply IZR_lt. lia. }
  unfold rne. rewrite bpow_0, !Rmult_1_r.
  destruct (Z.compare_spec (2 * r) d) as [H|H|H].
  - assert (t = 1 / 2) as Et.
    { unfold t. apply IZR_eq in H. rewrite mult_IZR in H. rewrite <- H. field.
      rewrite <- H in D. lra. }
    destruct (Z.even q) eqn:Ev.
    + repeat split; try lra; intros; try assumption; exfalso; lra.
    + rewrite plus_IZR. repeat split; try lra; intros; try (exfalso; lra).
      rewrite Z.add_1_r, Z.even_succ, <- Z.negb_even, Ev. reflexivity.
  - assert (t < 1 / 2) as Et.
    { unfold t. apply Rdiv_lt_l; [exact D|]. apply IZR_lt in H.
      rewrite mult_IZR in H. lra. }
    repeat split; try lra; intros; exfalso; lra.
  - assert (1 / 2 < t) as Et.
    { unfold t. apply Rdiv_lt_r; [exact D|]. apply IZR_lt in H.
      rewrite mult_IZR in H. lra. }
    rewrite plus_IZR. repeat split; try lra; intros; exfalso; lra.
Qed.

Lemma tenths_spec m e : rne (10 * F2R (Zpos m) e) 0 (tenths m e).
Proof.
  unfold tenths, F2R. destruct e as [|p|p].
  - replace (10 * (IZR (Zpos m) * bpow 0))
      with (IZR (10 * Zpos m * 2 ^ 0) * bpow 0)
      by (rewrite !mult_IZR, bpow_0; simpl; ring).
    apply rne_exact.
  - replace (10 * (IZR (Zpos m) * bpow (Zpos p)))
      with (IZR (10 * Zpos m * 2 ^ Zpos p) * bpow 0)
      by (rewrite !mult_IZR, bpow_0, (bpow_IZR (Zpos p)) by lia; ring).
    apply rne_exact.
  - replace (10 * (IZR (Zpos m) * bpow (Zneg p)))
      with (IZR (10 * Zpos m) / IZR (2 ^ Zpos p)).
    + apply rne_div_spec. apply Z.pow_pos_nonneg; lia.
    + rewrite mult_IZR, <- (bpow_IZR (Zpos p)) by lia.
      pose proof (bpow_pos (Zpos p)) as B.
      assert (bpow (Zneg p) * bpow (Zpos p) = 1) as E.
      { rewrite <- bpow_add. replace (Zneg p + Zpos p)%Z with 0%Z by lia.
        apply bpow_0. }
      apply Rmult_eq_reg_r with (bpow (Zpos p)); [|lra].
      unfold Rdiv. rewrite Rmult_assoc, Rinv_l by lra.
      rewrite !Rmult_assoc, E. ring.
Qed.

(** The value of [round1 x]: infinities are kept, and a finite value [v]
    gives the rounding of [T / 10], for [T] the integer nearest to [10 * v],
    ties to even. *)
Lemma round1_spec x :
  not_nan x ->
  not_nan (round1 x) /\
  match FE x with
  | Fin v => exists T, rne (10 * v) 0 T /\ rounds (Fin (IZR T / 10)) (FE (round1 x))
  | a => FE (round1 x) = a
  end.
Proof.
  unfold not_nan, FE, round1. intros N.
  destruct (Prim2SF x) as [s|s| |s m e] eqn:Ex; try discriminate.
  - rewrite Ex. split; [reflexivity|]. exists 0%Z. split.
    + replace (10 * SF2R (S754_zero s)) with (IZR 0 * bpow 0) by (simpl; ring).
      apply rne_exact.
    + left. split; [unfold Rdiv; ring | reflexivity].
  - rewrite Ex. split; [reflexivity|]. now destruct s.
  - pose proof (tenths_spec m e) as T. pose proof (F2R_pos m e) as P.
    assert (forall t, rne (10 * F2R (Zpos m) e) 0 t -> (0 <= t)%Z) as Tpos.
    { intros t [[_ U] _]. rewrite bpow_0, Rmult_1_r in U.
      apply Z.lt_succ_r. apply lt_IZR. unfold Z.succ. rewrite plus_IZR. lra. }
    assert (rne (10 * SF2R (S754_finite s m e)) 0
              (if s then - tenths m e else tenths m e)%Z) as Ts.
    { destruct s; simpl SF2R; [|exact T].
      replace (10 * - F2R (Zpos m) e) with (- (10 * F2R (Zpos m) e)) by ring.
      now apply rne_opp. }
    destruct (tenths m e) as [|r|r] eqn:Et.
    + rewrite Prim2SF_SF2Prim by reflexivity. split; [reflexivity|].
      exists 0%Z. split; [now destruct s|].
      left. split; [unfold Rdiv; ring | reflexivity].
    + destruct (SFdiv_finite s r 0 false 10 0) as [V [Nn [r' [Hr E]]]].
      rewrite Prim2SF_SF2Prim by exact V. split; [exact Nn|].
      exists (if s then (- Zpos r)%Z else Zpos r). split; [exact Ts|].
      rewrite xorb_false_r in E.
      assert (F2R (Zpos r) 0 / F2R 10 0 = IZR (Zpos r) / 10) as EF
        by (unfold F2R; rewrite bpow_0; f_equal; ring).
      rewrite EF in Hr.
      replace (Fin (IZR (if s then (- Zpos r)%Z else Zpos r) / 10))
        with (Fin (if s then - (IZR (Zpos r) / 10) else IZR (Zpos r) / 10))
        by (destruct s; [rewrite opp_IZR; f_equal; unfold Rdiv; ring | reflexivity]).
      apply (rounds_signed s _ r'); auto.
      apply Rdiv_lt_0_compat; [apply IZR_lt; lia | lra].
    + specialize (Tpos _ T). lia.
Qed.

Lemma round1_mono x y :
  (x <=? y)%float = true -> (round1 x <=? round1 y)%float = true.
Proof.
  intros H. apply leb_iff in H. destruct H as [Nx [Ny H]].
  destruct (round1_spec x Nx) as [N1 S1], (round1_spec y Ny) as [N2 S2].
  apply leb_iff. repeat split; auto.
  destruct (FE x) as [|v1|], (FE y) as [|v2|]; simpl in H; try contradiction;
    try (rewrite S1; exact I); try (rewrite S2; now destruct (FE (round1 x))).
  destruct S1 as [T1 [R1 S1]], S2 as [T2 [R2 S2]].
  eapply rounds_mono; [|exact S1|exact S2]. simpl.
  assert (T1 <= T2)%Z as HT by (apply (rne_mono_same (10 * v1) (10 * v2) 0); auto; lra).
  apply IZR_le in HT. lra.
Qed.

(** *** The amenity term *)

Lemma ER_not_lt a b : ~ ER_lt a b -> ER_le b a.
Proof. destruct a, b; simpl; auto; try tauto. intros. lra. Qed.

Lemma Prim2SF_float_of_Z z :
  Prim2SF (float_of_Z z) = binary_normalize prec emax z 0 false.
Proof.
  unfold float_of_Z. apply Prim2SF_SF2Prim.
  apply (binary_normalize_rounds z 0).
Qed.

Lemma float_of_nat_nonneg n : (0 <=? float_of_nat n)%float = true.
Proof.
  apply leb_iff. unfold not_nan, FE, float_of_nat. rewrite Prim2SF_float_of_Z.
  destruct (binary_normalize_rounds (Z.of_nat n) 0) as [_ [N R]].
  split; [reflexivity|]. split; [exact N|].
  apply (rounds_mono (Fin 0) (Fin (F2R (Z.of_nat n) 0))); [|left; auto|exact R].
  simpl. unfold F2R. rewrite bpow_0, Rmult_1_r. apply IZR_le. lia.
Qed.

Lemma pos_finite_6 : pos_finite 6%float.
Proof. eexists _, _. reflexivity. Qed.

Lemma pos_finite_5 : pos_finite 5%float.
Proof. eexists _, _. reflexivity. Qed.

Lemma pos_finite_30 : pos_finite 30%float.
Proof. eexists _, _. reflexivity. Qed.

Lemma bounded_finite lo hi x :
  finite lo -> finite hi ->
  (lo <=? x)%float = true -> (x <=? hi)%float = true -> finite x.
Proof.
  intros Fl Fh H1 H2. apply leb_iff in H1, H2.
  destruct H1 as [_ [Nx H1]], H2 as [_ [_ H2]].
  destruct (finite_Fin lo Fl) as [l El], (finite_Fin hi Fh) as [h Eh].
  rewrite El in H1. rewrite Eh in H2. unfold finite, not_nan, FE in *.
  destruct (Prim2SF x) as [s|s| |s m e]; try reflexivity; try discriminate.
  destruct s; simpl in *; contradiction.
Qed.

Lemma py_min_30_bounds x :
  (0 <=? x)%float = true ->
  (0 <=? py_min x 30)%float = true /\ (py_min x 30 <=? 30)%float = true.
Proof.
  intros H. unfold py_min. destruct (30 <? x)%float eqn:E.
  - split; reflexivity.
  - split; [exact H|]. pose proof H as H'. apply leb_iff in H'.
    destruct H' as [_ [Nx _]]. apply leb_iff. split; [exact Nx|].
    split; [reflexivity|]. apply ER_not_lt. intros L.
    assert ((30 <? x)%float = true) as C; [|congruence].
    apply ltb_iff. split; [reflexivity|]. split; [exact Nx | exact L].
Qed.

Lemma amenity_term_bounds n :
  (0 <=? py_min (float_of_nat n * 6) 30)%float = true /\
  (py_min (float_of_nat n * 6) 30 <=? 30)%float = true.
Proof.
  apply py_min_30_bounds.
  exact (mul_mono 0 (float_of_nat n) 6 pos_finite_6 (float_of_nat_nonneg n)).
Qed.

Lemma amenity_term_finite n : finite (py_min (float_of_nat n * 6) 30).
Proof.
  destruct (amenity_term_bounds n) as [L U].
  apply (bounded_finite 0 30); auto; reflexivity.
Qed.

(** *** The budget test: [price / max_price <= 1.0] *)

(** Two positive floats in increasing order are at least one unit of the
    smaller one apart. *)
Lemma float_gap mp ep mm em :
  valid_binary (S754_finite false mp ep) = true ->
  valid_binary (S754_finite false mm em) = true ->
  F2R (Zpos mm) em < F2R (Zpos mp) ep ->
  F2R (Zpos mm) em * (IZR (2 ^ 53) + 1) < F2R (Zpos mp) ep * IZR (2 ^ 53).
Proof.
  intros Vp Vm H. pose proof Vp as Vp'. pose proof Vm as Vm'.
  apply valid_finite in Vp', Vm'.
  destruct Vp' as [A1 [B1 C1]], Vm' as [A2 [B2 C2]].
  pose proof (bpow_pos em) as B.
  assert (em <= ep)%Z as He.
  { destruct (Z_le_gt_dec em ep) as [L|L]; [exact L|]. exfalso.
    assert (F2R (Zpos mp) ep < F2R (Zpos mm) em); [|lra].
    apply F2R_lt_exp; try lia. }
  assert (F2R (Zpos mp) ep = F2R (Zpos mp * 2 ^ (ep - em)) em) as EP.
  { unfold F2R. rewrite mult_IZR, <- bpow_IZR by lia.
    replace (bpow ep) with (bpow (ep - em + em)) by (f_equal; lia).
    rewrite bpow_add. ring. }
  rewrite EP in *. set (K := (Zpos mp * 2 ^ (ep - em))%Z) in *.
  assert (Zpos mm < K)%Z as HK.
  { apply lt_IZR. unfold F2R in H. apply Rmult_lt_reg_r with (bpow em); assumption. }
  assert (IZR (Zpos mm) + 1 <= IZR K) as HK'.
  { rewrite <- plus_IZR. apply IZR_le. lia. }
  assert (IZR (Zpos mm) < IZR (2 ^ 53)) as HM by (now apply IZR_lt).
  unfold F2R.
  assert (0 < IZR (2 ^ 53)) by (apply IZR_lt; lia).
  assert (0 < IZR (Zpos mm)) by (apply IZR_lt; lia).
  apply Rlt_le_trans with ((IZR (Zpos mm) + 1) * bpow em * IZR (2 ^ 53)).
  - assert (IZR (Zpos mm) * bpow em < IZR (2 ^ 53) * bpow em)
      by (apply Rmult_lt_compat_r; assumption).
    lra.
  - apply Rmult_le_compat_r; [lra|]. apply Rmult_le_compat_r; lra.
Qed.

Lemma cexp_of_one : cexp_of 1 (-52).
Proof.
  right. split; [lia|]. change (-52 + 52)%Z with 0%Z. change (-52 + 53)%Z with 1%Z.
  rewrite bpow_0, bpow_1. lra.
Qed.

(** A real above [1 + 2^-53] rounds to a value above 1. *)
Lemma rounds_above_one v r :
  IZR (2 ^ 53) + 1 < v * IZR (2 ^ 53) -> rounds_pos v r -> ~ ER_le r (Fin 1).
Proof.
  intros Hv [c [n [Hc [Hr Ho]]]].
  assert (0 < IZR (2 ^ 53)) as W by (apply IZR_lt; lia).
  assert (1 < v) as Hv1.
  { apply Rmult_lt_reg_r with (IZR (2 ^ 53)); [exact W|]. lra. }
  assert (-52 <= c)%Z as Hc52
    by (apply (cexp_of_mono 1 v); [lra | exact cexp_of_one | exact Hc]).
  destruct (rne_bounds v c n ltac:(lra) Hc Hr) as [Hn Hnorm].
  assert (1 < F2R n c) as Hone.
  { unfold F2R. destruct (Z.eq_dec c (-52)) as [->|Hne].
    - destruct Hr as [[_ U] _].
      assert (bpow (-52) * IZR (2 ^ 52) = 1) as E.
      { rewrite <- (bpow_IZR 52), <- bpow_add by lia. apply bpow_0. }
      pose proof (bpow_pos (-52)) as B.
      assert (IZR (2 ^ 53) = 2 * IZR (2 ^ 52)) as E2
        by (rewrite <- mult_IZR; reflexivity).
      assert (v * IZR (2 ^ 52) <= IZR n + 1 / 2) as U'.
      { apply Rle_trans with ((IZR n + 1 / 2) * bpow (-52) * IZR (2 ^ 52)).
        - apply Rmult_le_compat_r; [rewrite E2 in W; lra | exact U].
        - rewrite Rmult_assoc, E. lra. }
      assert (IZR (2 ^ 52) < IZR n) as N by lra.
      apply lt_IZR in N.
      assert (IZR (2 ^ 52) + 1 <= IZR n) as N'
        by (rewrite <- plus_IZR; apply IZR_le; lia).
      apply Rlt_le_trans with ((IZR (2 ^ 52) + 1) * bpow (-52)).
      + rewrite Rmult_plus_distr_r, (Rmult_comm (IZR (2 ^ 52))), E. lra.
      + apply Rmult_le_compat_r; lra.
    - assert (2 ^ 52 <= n)%Z as N by (apply Hnorm; lia).
      apply Rlt_le_trans with (bpow 1); [rewrite bpow_1; lra|].
      apply Rle_trans with (bpow (52 + c)); [apply bpow_le; lia|].
      rewrite bpow_add, (bpow_IZR 52) by lia.
      apply Rmult_le_compat_r; [pose proof (bpow_pos c); lra | now apply IZR_le]. }
  destruct Ho as [[_ ->]|[_ ->]]; simpl; [lra | tauto].
Qed.

Lemma Prim2SF_one : Prim2SF 1%float = one_SF.
Proof. reflexivity. Qed.

Lemma SF2E_one : SF2E one_SF = Fin 1.
Proof.
  simpl. f_equal. unfold F2R.
  change (Zpos (2 ^ 52)) with (2 ^ 52)%Z.
  rewrite <- (bpow_IZR 52), <- bpow_add by lia. apply bpow_0.
Qed.

Lemma rounds_pos_one : rounds_pos 1 (Fin 1).
Proof.
  pose proof (rounds_pos_exact (2 ^ 52) (-52) eq_refl) as H.
  assert (F2R (Zpos (2 ^ 52)) (-52) = 1) as E.
  { pose proof SF2E_one as E. simpl in E. now injection E. }
  now rewrite E in H.
Qed.

(** For a positive divisor, the quotient is at most 1 exactly when the
    dividend is at most the divisor. *)
Lemma SFdiv_le_one mp ep mm em :
  valid_binary (S754_finite false mp ep) = true ->
  valid_binary (S754_finite false mm em) = true ->
  SFleb (SFdiv prec emax (S754_finite false mp ep) (S754_finite false mm em)) one_SF =
  SFleb (S754_finite false mp ep) (S754_finite false mm em).
Proof.
  intros Vp Vm.
  destruct (SFdiv_finite false mp ep false mm em) as [V [N [r [Hr E]]]].
  pose proof (F2R_pos mp ep) as Pp. pose proof (F2R_pos mm em) as Pm.
  cbn [xorb ER_sign] in E.
  pose proof (SFleb_E _ one_SF V eq_refl N eq_refl) as L1.
  pose proof (SFleb_E _ _ Vp Vm eq_refl eq_refl) as L2.
  rewrite E, SF2E_one in L1. simpl in L2.
  destruct (Rle_lt_dec (F2R (Zpos mp) ep) (F2R (Zpos mm) em)) as [H|H].
  - transitivity true; [|symmetry; now apply L2].
    apply L1. apply (rounds_pos_mono (F2R (Zpos mp) ep / F2R (Zpos mm) em) 1).
    + now apply Rdiv_lt_0_compat.
    + apply Rdiv_le_l; [exact Pm | lra].
    + exact Hr.
    + exact rounds_pos_one.
  - transitivity false.
    + apply not_true_is_false. intros C. apply L1 in C. revert C.
      apply (rounds_above_one (F2R (Zpos mp) ep / F2R (Zpos mm) em)); [|exact Hr].
      pose proof (float_gap _ _ _ _ Vp Vm H) as G.
      apply Rmult_lt_reg_r with (F2R (Zpos mm) em); [exact Pm|].
      replace (F2R (Zpos mp) ep / F2R (Zpos mm) em * IZR (2 ^ 53) * F2R (Zpos mm) em)
        with (F2R (Zpos mp) ep * IZR (2 ^ 53)) by (field; lra).
      lra.
    + symmetry. apply not_true_is_false. intros C. apply L2 in C. lra.
Qed.

Lemma is_infinity_SF x s : Prim2SF x = S754_infinity s -> is_infinity x = true.
Proof.
  unfold Prim2SF. destruct (is_nan x); [discriminate|].
  destruct (is_zero x); [discriminate|].
  destruct (is_infinity x); [reflexivity|].
  destruct (Z.frexp x) as [r e]. destruct (shr_fexp _ _ _ _ _) as [mrs e'].
  destruct (shr_m mrs); discriminate.
Qed.

Lemma budget_test p m :
  (0 <? m)%float = true ->
  is_infinity p && is_infinity m = false ->
  (p / m <=? 1)%float = (p <=? m)%float.
Proof.
  intros Hm Hinf. rewrite !leb_spec, div_spec, Prim2SF_one.
  rewrite ltb_spec in Hm. change (Prim2SF 0) with (S754_zero false) in Hm.
  pose proof (Prim2SF_valid p) as Vp. pose proof (Prim2SF_valid m) as Vm.
  pose proof (is_infinity_SF p) as Ip. pose proof (is_infinity_SF m) as Im.
  destruct (Prim2SF m) as [sm|sm| |sm mm em]; try discriminate;
    destruct sm; try discriminate.
  - rewrite (Im false eq_refl), andb_true_r in Hinf.
    destruct (Prim2SF p) as [sp|sp| |sp mp ep]; try reflexivity;
      try (now destruct sp).
    rewrite (Ip sp eq_refl) in Hinf. discriminate.
  - destruct (Prim2SF p) as [sp|sp| |sp mp ep]; try reflexivity;
      try (now destruct sp).
    destruct sp; [|now apply SFdiv_le_one].
    transitivity true; [|reflexivity].
    destruct (SFdiv_finite true mp ep false mm em) as [V [N [r [Hr E]]]].
    cbn [xorb ER_sign] in E.
    apply (SFleb_E _ one_SF V eq_refl N eq_refl). rewrite E, SF2E_one.
    apply ER_le_trans with (Fin 0); [|simpl; lra].
    apply (rounds_neg_nonpos (F2R (Zpos mp) ep / F2R (Zpos mm) em)); [|exact Hr].
    apply Rdiv_lt_0_compat; apply F2R_pos.
Qed.

End Rounding.

(** ** Strings *)

Lemma startswith_spec p s :
  startswith p s = true <-> exists post, s = (p ++ post)%string.
Proof.
  revert s. induction p as [|a p IH]; intros s; simpl.
  - split; [intros _; now exists s | reflexivity].
  - destruct s as [|b s].
    + split; [discriminate | intros [post H]; discriminate].
    + rewrite andb_true_iff, IH. split.
      * intros [Hab [post ->]]. apply Ascii.eqb_eq in Hab. subst. now exists post.
      * intros [post H]. injection H as -> ->. split.
        -- apply Ascii.eqb_refl.
        -- now exists post.
Qed.

Lemma str_in_spec needle hay :
  str_in needle hay = true <-> is_substring needle hay.
Proof.
  unfold is_substring. induction hay as [|c hay IH]; simpl.
  - rewrite orb_false_r, startswith_spec. split.
    + intros [post H]. now exists "", post.
    + intros [pre [post H]]. destruct pre; [now exists post | discriminate].
  - rewrite orb_true_iff, startswith_spec, IH. split.
    + intros [[post H] | [pre [post H]]].
      * now exists "", post.
      * exists (String c pre), post. simpl. now rewrite H.
    + intros [pre [post H]]. destruct pre as [|d pre]; simpl in H.
      * left. now exists post.
      * right. injection H as _ H. now exists pre, post.
Qed.

Lemma list_in_spec x l : list_in x l = true <-> In x l.
Proof.
  induction l as [|y l IH]; simpl.
  - split; [discriminate | tauto].
  - rewrite orb_true_iff, IH, String.eqb_eq. split; intros [H|H]; auto.
Qed.

(** ** filter_hotels *)

Lemma selection_filter {A : Type} (P : A -> Prop) (f : A -> bool) (l : list A) :
  (forall x, f x = true <-> P x) -> selection P l (filter f l).
Proof.
  intros Hf. induction l as [|x l IH]; simpl.
  - constructor.
  - destruct (f x) eqn:E.
    + apply selection_keep; [now apply Hf | exact IH].
    + apply selection_drop; [|exact IH].
      intros HP. apply Hf in HP. congruence.
Qed.

Lemma selection_In {A : Type} (P : A -> Prop) (l r : list A) :
  selection P l r -> forall x, In x r <-> In x l /\ P x.
Proof.
  induction 1 as [|x l r HP _ IH|x l r HP _ IH]; intros y; simpl.
  - tauto.
  - rewrite IH. split.
    + intros [->|[H1 H2]]; auto.
    + intros [[->|H1] H2]; auto.
  - rewrite IH. split.
    + intros [H1 H2]; auto.
    + intros [[->|H1] H2]; [contradiction | auto].
Qed.

Section FilterProofs.

Variable lower : string -> string.

Lemma missing_amenity_loop_false amenities hotel_amenities_lower :
  missing_amenity_loop lower amenities hotel_amenities_lower = false <->
  forall a, In a amenities -> In (lower a) hotel_amenities_lower.
Proof.
  induction amenities as [|a l IH]; simpl.
  - split; [intros _ a [] | reflexivity].
  - destruct (list_in (lower a) hotel_amenities_lower) eqn:E; simpl.
    + rewrite IH. apply list_in_spec in E. split.
      * intros H b [<-|Hb]; auto.
      * intros H b Hb. apply H. now right.
    + split; [discriminate|]. intros H.
      assert (In (lower a) hotel_amenities_lower) as Hin by (apply H; now left).
      apply list_in_spec in Hin. congruence.
Qed.

Lemma has_all_amenities_loop amenities (h : Hotel) :
  missing_amenity_loop lower amenities (map lower h.(Models.amenities)) = false <->
  has_all_amenities lower amenities h.
Proof.
  rewrite missing_amenity_loop_false. unfold has_all_amenities.
  split; intros H a Ha; specialize (H a Ha).
  - apply in_map_iff in H. destruct H as [b [H1 H2]]. now exists b.
  - destruct H as [b [H1 H2]]. apply in_map_iff. now exists b.
Qed.

Lemma filter_hotels_loop_filter hotels location min_price max_price amenities acc :
  filter_hotels_loop lower hotels location min_price max_price amenities acc =
  (acc ++ filter (filter_keeps lower location min_price max_price amenities) hotels)%list.
Proof.
  revert acc. induction hotels as [|h hotels IH]; intros acc; simpl.
  - now rewrite app_nil_r.
  - destruct (filter_keeps lower location min_price max_price amenities h).
    + rewrite IH, <- app_assoc. reflexivity.
    + apply IH.
Qed.

Lemma filter_hotels_filter hotels location min_price max_price amenities :
  filter_hotels lower hotels location min_price max_price amenities =
  filter (filter_keeps lower location min_price max_price amenities) hotels.
Proof. unfold filter_hotels. now rewrite filter_hotels_loop_filter. Qed.

Hypothesis lower_empty : lower "" = "".

Lemma location_check location (h : Hotel) :
  match location with
  | Some loc => str_truthy loc && negb (str_in (lower loc) (lower h.(Models.location)))
  | None => false
  end = false <-> location_matches lower location h.
Proof.
  unfold location_matches. destruct location as [loc|].
  - destruct loc as [|c loc]; simpl.
    + split; [|reflexivity]. intros _ loc' [= <-]. rewrite lower_empty.
      now exists "", (lower h.(Models.location)).
    + rewrite negb_false_iff, str_in_spec. split.
      * now intros H loc' [= <-].
      * intros H. now apply H.
  - split; [intros _ loc; discriminate | reflexivity].
Qed.

Lemma filter_keeps_spec location min_price max_price amenities (h : Hotel) :
  filter_keeps lower location min_price max_price amenities h = true <->
  satisfies lower location min_price max_price amenities h.
Proof.
  unfold filter_keeps, satisfies.
  rewrite <- location_check, <- has_all_amenities_loop. unfold price_within.
  destruct (match location with Some _ => _ | None => _ end).
  - split; [discriminate | intros [H _]; discriminate].
  - destruct (min_price <=? h.(price)), (h.(price) <=? max_price); simpl;
      try (split; [discriminate | intros [_ [[H1 H2] _]]; discriminate]).
    destruct amenities as [|a l].
    + simpl. tauto.
    + destruct (missing_amenity_loop lower (a :: l) _).
      * split; [discriminate | intros [_ [_ H]]; discriminate].
      * tauto.
Qed.

(** C2. [filter_hotels] returns exactly the hotels that satisfy the location,
    price and amenity conditions, each as often as it occurs in the input and
    in the order of the input; and an empty collection gives an empty
    result. *)
Theorem filter_hotels_contract hotels location min_price max_price amenities :
  selection (satisfies lower location min_price max_price amenities) hotels
    (filter_hotels lower hotels location min_price max_price amenities)
  /\ (forall h,
        In h (filter_hotels lower hotels location min_price max_price amenities) <->
        In h hotels /\ satisfies lower location min_price max_price amenities h)
  /\ filter_hotels lower [] location min_price max_price amenities = [].
Proof.
  assert (selection (satisfies lower location min_price max_price amenities) hotels
            (filter_hotels lower hotels location min_price max_price amenities)) as Hsel.
  { rewrite filter_hotels_filter. apply selection_filter.
    intros h. apply filter_keeps_spec. }
  split; [exact Hsel|]. split; [|reflexivity].
  now apply selection_In.
Qed.

End FilterProofs.

Lemma filter_all {A : Type} (f : A -> bool) (l : list A) :
  Forall (fun x => f x = true) l -> filter f l = l.
Proof.
  induction 1 as [|x l Hx _ IH]; simpl; [reflexivity|].
  now rewrite Hx, IH.
Qed.

Lemma filter_none {A : Type} (f : A -> bool) (l : list A) :
  (forall x, f x = false) -> filter f l = [].
Proof.
  intros H. induction l as [|x l IH]; simpl; [reflexivity|]. now rewrite H.
Qed.

(** C4, as the code has it.  With no criterion supplied the location and
    amenity checks are skipped, and the price check runs against the default
    bounds 0 and 10000: the result is, in order, the hotels priced within
    these bounds, hence the whole collection when every price is within
    them. *)
Theorem filter_hotels_no_criteria lower hotels :
  filter_hotels_default lower hotels =
    filter (fun h => (0 <=? h.(price)) && (h.(price) <=? 10000)) hotels
  /\ (Forall (price_within 0 10000) hotels ->
      filter_hotels_default lower hotels = hotels).
Proof.
  assert (filter_hotels_default lower hotels =
          filter (fun h => (0 <=? h.(price)) && (h.(price) <=? 10000)) hotels) as E.
  { unfold filter_hotels_default. rewrite filter_hotels_filter.
    apply filter_ext. intros h. unfold filter_keeps.
    now destruct ((0 <=? h.(price)) && (h.(price) <=? 10000)). }
  split; [exact E|]. intros H. rewrite E. apply filter_all.
  eapply Forall_impl; [|exact H]. intros h [H1 H2]. simpl. now rewrite H1, H2.
Qed.

(** C5. An inverted price range, [min_price > max_price], gives the empty
    list whatever the hotels and the other criteria are. *)
Theorem filter_hotels_inverted_range lower hotels location min_price max_price
    amenities :
  (max_price <? min_price) = true ->
  filter_hotels lower hotels location min_price max_price amenities = [].
Proof.
  intros Hgt. rewrite filter_hotels_filter. apply filter_none. intros h.
  unfold filter_keeps.
  destruct (match location with Some _ => _ | None => _ end); [reflexivity|].
  destruct (min_price <=? h.(price)) eqn:E1; [|reflexivity].
  destruct (h.(price) <=? max_price) eqn:E2; [|reflexivity].
  pose proof (leb_not_ltb _ _ (leb_trans _ _ _ E1 E2)). congruence.
Qed.

Lemma filter_hotels_contract_witness :
  selection (satisfies ascii_lower (Some "york") 0 200 ["wifi"]) three_hotels
    (filter_hotels ascii_lower three_hotels (Some "york") 0 200 ["wifi"])
  /\ filter_hotels ascii_lower three_hotels (Some "york") 0 200 ["wifi"] =
     firstn 2 three_hotels.
Proof.
  split.
  - apply (filter_hotels_contract ascii_lower eq_refl three_hotels).
  - reflexivity.
Defined.

Lemma filter_hotels_no_criteria_witness :
  filter_hotels_default ascii_lower three_hotels = three_hotels.
Proof.
  apply (filter_hotels_no_criteria ascii_lower three_hotels).
  repeat constructor.
Defined.

(** A hotel priced above the default upper bound is dropped although no
    criterion was supplied. *)
Lemma filter_hotels_no_criteria_drops :
  filter_hotels_default ascii_lower [sample_hotel 4 20000 5 []] = []
  /\ filter_hotels_default ascii_lower [sample_hotel 4 20000 5 []] <>
     [sample_hotel 4 20000 5 []].
Proof. split; [reflexivity | discriminate]. Qed.

Lemma filter_hotels_inverted_range_witness :
  (100 <? 300) = true /\
  filter_hotels ascii_lower three_hotels None 300 100 [] = [].
Proof.
  split; [reflexivity|].
  apply (filter_hotels_inverted_range ascii_lower three_hotels None 300 100 []).
  reflexivity.
Defined.

(** ** generate_recommendation_reason *)

Section ReasonProofs.

Variable strip : string -> string.
Variable repr_float : float -> string.
Variable World : Type.
Variable API_KEY : option string.
Variable generate_content : World -> string -> option string * World.

Lemma append_not_empty (a b : string) : a <> "" -> (a ++ b)%string <> "".
Proof. destruct a; [congruence | discriminate]. Qed.

(** When the text generation is unconfigured, or the call fails, or it
    returns an empty text, the result is the template sentence filled with
    the hotel's location, rating and price, and so a non-empty string. *)
Theorem reason_falls_back (w : World) (hotel : Hotel) (user_pref : UserPreference)
    (score : float) :
  truthy API_KEY = false \/
  fst (generate_content w (reason_prompt repr_float hotel user_pref)) = None \/
  fst (generate_content w (reason_prompt repr_float hotel user_pref)) = Some "" ->
  fst (generate_recommendation_reason strip repr_float World API_KEY
         generate_content w hotel user_pref score) =
    ("This hotel is a great match located in " ++ hotel.(location) ++
     " with a rating of " ++ repr_float hotel.(rating) ++
     ". It costs $" ++ repr_float hotel.(price) ++ " per night.")%string
  /\ fst (generate_recommendation_reason strip repr_float World API_KEY
            generate_content w hotel user_pref score) <> "".
Proof.
  intros H.
  assert (fst (generate_recommendation_reason strip repr_float World API_KEY
                 generate_content w hotel user_pref score) =
          fallback_reason repr_float hotel) as E.
  { unfold generate_recommendation_reason.
    destruct (truthy API_KEY); [|reflexivity].
    destruct H as [H|[H|H]]; [discriminate | |];
      destruct (generate_content w (reason_prompt repr_float hotel user_pref))
        as [[text|] w']; simpl in *; try discriminate; try reflexivity.
    injection H as ->. reflexivity. }
  rewrite E. split; [reflexivity | discriminate].
Qed.

End ReasonProofs.

Lemma reason_falls_back_witness :
  fst (generate_recommendation_reason ascii_strip repr_tenths unit (Some "key")
         (constant_remote None) tt (sample_hotel 2 150 4.5 ["WiFi"])
         (sample_pref None) 67) =
  "This hotel is a great match located in New York with a rating of 4.5. It costs $150.0 per night.".
Proof.
  refine (eq_trans (proj1 (reason_falls_back ascii_strip repr_tenths unit (Some "key")
            (constant_remote None) tt (sample_hotel 2 150 4.5 ["WiFi"])
            (sample_pref None) 67 _)) _).
  - right. left. reflexivity.
  - reflexivity.
Defined.

(** C6.  The result is not always a non-empty string, and an empty text is
    not always replaced by the template sentence: the reply is tested for
    emptiness before the newlines are replaced and the text is stripped,
    and so a reply that holds only white space, here a single newline, is
    accepted and returned as the empty string. *)
Lemma reason_can_be_empty :
  fst (generate_recommendation_reason ascii_strip repr_tenths unit (Some "key")
         (constant_remote (Some nl)) tt (sample_hotel 2 150 4.5 ["WiFi"])
         (sample_pref None) 67) = "".
Proof. reflexivity. Qed.

(** ** rerank_hotels *)

Section RerankProofs.

Variable strip : string -> string.
Variable repr_float : float -> string.
Variable json_loads : string -> option json.
Variable World : Type.
Variable API_KEY : option string.
Variable generate_content : World -> string -> option string * World.

Local Abbreviation rerank := (rerank_hotels strip repr_float json_loads World API_KEY generate_content).
Local Abbreviation remote :=
  (remote_reply repr_float World generate_content).
Local Abbreviation parsed :=
  (parsed_reply strip repr_float json_loads World generate_content).

Lemma rank_loop_objects hotels items acc r :
  rank_loop hotels items acc = Some r -> exists ranks, items = map JObj ranks.
Proof.
  revert acc. induction items as [|j items IH]; intros acc H.
  - now exists [].
  - destruct j as [|b|z|f|s|l|fields]; simpl in H; try discriminate.
    assert (exists acc', rank_loop hotels items acc' = Some r) as [acc' H'].
    { destruct (index_in_range _ _) as [[|]|]; try discriminate.
      - destruct (subscript hotels _); [eauto | discriminate].
      - eauto. }
    destruct (IH _ H') as [ranks ->]. now exists (fields :: ranks).
Qed.

Lemma index_in_range_empty idx : index_in_range idx 0 <> Some true.
Proof.
  destruct idx as [|b|z|f|s|items|fields]; simpl; try discriminate.
  - destruct (0 <=? z)%Z eqn:E1; simpl; [|discriminate].
    destruct (z <? 0)%Z eqn:E2; [lia | discriminate].
  - destruct (0 <=? f) eqn:E; simpl; [|discriminate].
    change (float_of_nat 0) with 0%float. now rewrite (leb_not_ltb _ _ E).
Qed.

Lemma rank_loop_no_hotels items acc r :
  rank_loop [] items acc = Some r -> r = acc.
Proof.
  revert acc. induction items as [|j items IH]; intros acc H; simpl in H.
  - congruence.
  - destruct j as [|b|z|f|s|l|fields]; try discriminate.
    pose proof (index_in_range_empty (dict_get_default "index" JNull fields)) as N.
    simpl in H. destruct (index_in_range _ 0) as [[|]|]; try discriminate.
    + congruence.
    + now apply IH.
Qed.

Lemma rerank_unfold w hotels user_pref :
  truthy user_pref.(trip_description) = true -> truthy API_KEY = true ->
  fst (rerank w hotels user_pref) =
  match parsed w hotels user_pref with
  | None => []
  | Some rankings =>
      match iter_items rankings with
      | None => []
      | Some items =>
          match rank_loop hotels items [] with
          | None => []
          | Some results => results
          end
      end
  end.
Proof.
  intros H1 H2. unfold rerank_hotels, parsed_reply, remote_reply.
  rewrite H1, H2. simpl.
  destruct (generate_content w _) as [[text|] w']; simpl; [|reflexivity].
  destruct (json_loads _) as [rankings|]; [|reflexivity].
  destruct (iter_items rankings) as [items|]; [|reflexivity].
  now destruct (rank_loop hotels items []).
Qed.

Lemma rerank_gate w hotels user_pref :
  truthy user_pref.(trip_description) = false \/ truthy API_KEY = false ->
  fst (rerank w hotels user_pref) = [].
Proof.
  intros H. unfold rerank_hotels.
  destruct (truthy user_pref.(trip_description)), (truthy API_KEY);
    simpl; try reflexivity.
  destruct H; discriminate.
Qed.

(** C7. [rerank_hotels] returns the empty list when the preference has no
    trip description, when no API key is configured, when the remote call
    fails, when its reply does not parse, when the parsed reply is not an
    array of objects, and, whatever the remote replies, when there are no
    candidates. *)
Theorem rerank_hotels_empty w hotels user_pref :
  (truthy user_pref.(trip_description) = false ->
   fst (rerank w hotels user_pref) = [])
  /\ (truthy API_KEY = false -> fst (rerank w hotels user_pref) = [])
  /\ (remote w hotels user_pref = None ->
      fst (rerank w hotels user_pref) = [])
  /\ (parsed w hotels user_pref = None ->
      fst (rerank w hotels user_pref) = [])
  /\ (forall j, parsed w hotels user_pref = Some j ->
      ~ array_of_objects j -> fst (rerank w hotels user_pref) = [])
  /\ fst (rerank w [] user_pref) = [].
Proof.
  assert (forall hs, truthy user_pref.(trip_description) = false \/
                     truthy API_KEY = false \/
                     fst (rerank w hs user_pref) =
                     match parsed w hs user_pref with
                     | None => []
                     | Some rankings =>
                         match iter_items rankings with
                         | None => []
                         | Some items =>
                             match rank_loop hs items [] with
                             | None => []
                             | Some results => results
                             end
                         end
                     end) as U.
  { intros hs. destruct (truthy user_pref.(trip_description)) eqn:E1; [|now left].
    destruct (truthy API_KEY) eqn:E2; [|now right; left].
    right. right. now apply rerank_unfold. }
  repeat split.
  - intros H. apply rerank_gate. now left.
  - intros H. apply rerank_gate. now right.
  - intros H. destruct (U hotels) as [E|[E|E]]; try (apply rerank_gate; tauto).
    rewrite E. unfold parsed_reply. now rewrite H.
  - intros H. destruct (U hotels) as [E|[E|E]]; try (apply rerank_gate; tauto).
    rewrite E. now rewrite H.
  - intros j H N. destruct (U hotels) as [E|[E|E]]; try (apply rerank_gate; tauto).
    rewrite E, H.
    destruct (iter_items j) as [items|] eqn:Ei; [|reflexivity].
    destruct (rank_loop hotels items []) as [results|] eqn:Er; [|reflexivity].
    destruct (rank_loop_objects _ _ _ _ Er) as [ranks ->].
    destruct j as [|b|z|f|s|l|fields]; try discriminate; simpl in Ei.
    + destruct (list_ascii_of_string s) as [|c cs]; [|destruct ranks; discriminate].
      destruct ranks; [|discriminate]. simpl in Er. congruence.
    + exfalso. apply N. exists ranks. congruence.
    + destruct fields as [|kv fields]; [|destruct ranks; discriminate].
      destruct ranks; [|discriminate]. simpl in Er. congruence.
  - destruct (U []) as [E|[E|E]]; try (apply rerank_gate; tauto).
    rewrite E.
    destruct (parsed w [] user_pref) as [j|]; [|reflexivity].
    destruct (iter_items j) as [items|]; [|reflexivity].
    destruct (rank_loop [] items []) as [results|] eqn:Er; [|reflexivity].
    now apply rank_loop_no_hotels in Er.
Qed.

Lemma rank_loop_emitted hotels ranks acc :
  Forall (usable_item hotels) ranks ->
  rank_loop hotels (map JObj ranks) acc =
  Some (acc ++ flat_map (emitted hotels) ranks)%list.
Proof.
  intros H. revert acc. induction H as [|rank ranks Hr _ IH]; intros acc; simpl.
  - now rewrite app_nil_r.
  - unfold usable_item in Hr. unfold emitted at 1, item_index.
    unfold dict_get_default at 1 2.
    destruct (dict_get "index" rank) as [[|b|z|f|s|l|fields]|]; try contradiction;
      simpl; try apply IH.
    + assert (forall z : nat, (z = 0 \/ z = 1)%nat ->
                (0 <=? Z.of_nat z)%Z = true /\
                (Z.of_nat z <? Z.of_nat (List.length hotels))%Z
                = (z <? List.length hotels)%nat) as Hb.
      { intros z Hz. split; [apply Z.leb_le; lia|].
        destruct (Nat.ltb_spec z (List.length hotels));
          [apply Z.ltb_lt | apply Z.ltb_ge]; lia. }
      set (z := if b then 1%nat else 0%nat).
      assert ((if b then 1 else 0)%Z = Z.of_nat z) as Ez by now destruct b.
      rewrite Ez. destruct (Hb z) as [E1 E2]; [destruct b; auto|].
      rewrite E1, E2. simpl.
      destruct (Nat.ltb_spec z (List.length hotels)) as [Hlt|Hge]; [|apply IH].
      unfold py_index. rewrite E1, Nat2Z.id.
      destruct (nth_error hotels z) as [h|] eqn:En.
      * rewrite IH, <- app_assoc. reflexivity.
      * apply nth_error_None in En. lia.
    + destruct (0 <=? z)%Z eqn:E1; simpl; [|apply IH].
      destruct (z <? Z.of_nat (List.length hotels))%Z eqn:E2; simpl; [|apply IH].
      unfold py_index. rewrite E1.
      destruct (nth_error hotels (Z.to_nat z)) as [h|] eqn:En.
      * rewrite IH, <- app_assoc. reflexivity.
      * apply nth_error_None in En. lia.
    + rewrite Hr. apply IH.
Qed.

(** C8, as the code has it.  On a reply that parsed as a list of ranking
    items, none with an index that makes the range test or the subscript
    raise, [rerank_hotels] drops every item whose index is missing or
    outside [[0, len(hotels))] and, for every other item and in the order of
    the reply, emits the candidate at that index with the item's score and
    reasoning, or 0 and ["AI Recommended"] where the item has none. *)
Theorem rerank_hotels_maps_items w hotels user_pref ranks :
  truthy user_pref.(trip_description) = true ->
  truthy API_KEY = true ->
  parsed w hotels user_pref = Some (JArr (map JObj ranks)) ->
  Forall (usable_item hotels) ranks ->
  fst (rerank w hotels user_pref) = flat_map (emitted hotels) ranks.
Proof.
  intros H1 H2 Hp Ht. rewrite rerank_unfold, Hp by assumption. simpl.
  now rewrite rank_loop_emitted.
Qed.

End RerankProofs.

Lemma rerank_hotels_empty_witness :
  fst (rerank_hotels ascii_strip repr_tenths sample_loads unit (Some "key")
         (constant_remote (Some "7")) tt three_hotels (sample_pref (Some "quiet")))
  = [].
Proof.
  refine (proj1 (proj2 (proj2 (proj2 (proj2
    (rerank_hotels_empty ascii_strip repr_tenths sample_loads unit (Some "key")
       (constant_remote (Some "7")) tt three_hotels (sample_pref (Some "quiet")))))))
    (JInt 7) eq_refl _).
  intros [ranks H]. discriminate.
Defined.

Lemma rerank_hotels_maps_items_witness :
  fst (rerank_hotels ascii_strip repr_tenths sample_loads unit (Some "key")
         (constant_remote (Some " ```jsonRANKING``` ")) tt three_hotels
         (sample_pref (Some "quiet")))
  = [ {| r_hotel := sample_hotel 2 150 4.5 ["WiFi"; "Gym"; "Spa"];
         r_score := JInt 90; r_reasoning := JStr "Great pool" |};
      {| r_hotel := sample_hotel 1 80 4 ["WiFi"; "Pool"];
         r_score := JInt 0; r_reasoning := JStr "AI Recommended" |} ].
Proof.
  refine (eq_trans
    (rerank_hotels_maps_items ascii_strip repr_tenths sample_loads unit (Some "key")
       (constant_remote (Some " ```jsonRANKING``` ")) tt three_hotels
       (sample_pref (Some "quiet"))
       [ [("index", JInt 1); ("score", JInt 90); ("reasoning", JStr "Great pool")];
         [("index", JInt 7); ("score", JInt 80)];
         [("score", JInt 70)];
         [("index", JInt 0)] ]
       eq_refl eq_refl eq_refl _) eq_refl).
  repeat constructor.
Defined.

(** The first item of [mixed_ranking] names the first candidate, and yet the
    result is empty: the index of the second item is a string, the range
    test raises on it, and the handler gives up what the loop had
    collected. *)
Lemma rerank_hotels_loses_items :
  parsed_reply ascii_strip repr_tenths mixed_loads unit (constant_remote (Some "[]"))
    tt three_hotels (sample_pref (Some "quiet"))
  = Some (JArr (map JObj [ [("index", JInt 0); ("score", JInt 90)];
                           [("index", JStr "1"); ("score", JInt 80)] ])) /\
  flat_map (emitted three_hotels)
    [ [("index", JInt 0); ("score", JInt 90)];
      [("index", JStr "1"); ("score", JInt 80)] ]
  = [ {| r_hotel := sample_hotel 1 80 4 ["WiFi"; "Pool"];
         r_score := JInt 90; r_reasoning := JStr "AI Recommended" |} ] /\
  fst (rerank_hotels ascii_strip repr_tenths mixed_loads unit (Some "key")
         (constant_remote (Some "[]")) tt three_hotels (sample_pref (Some "quiet")))
  = [].
Proof. repeat split. Qed.

(** ** calculate_recommendation_score *)

Lemma SFmul_comm x y : SFmul prec emax x y = SFmul prec emax y x.
Proof.
  destruct x as [sx|sx| |sx mx ex], y as [sy|sy| |sy my ey]; simpl;
    try reflexivity; try (now rewrite xorb_comm).
  now rewrite Pos.mul_comm, Z.add_comm, xorb_comm.
Qed.

Lemma mul_comm x y : x * y = y * x.
Proof.
  apply Prim2SF_inj. rewrite !mul_spec. apply SFmul_comm.
Qed.

Lemma score_unfold hotel user_pref :
  calculate_recommendation_score hotel user_pref =
  round1 (budget_points hotel.(price) user_pref.(max_price)
          + hotel.(rating) / 5 * 30
          + py_min (float_of_nat (List.length hotel.(amenities)) * 6) 30).
Proof. reflexivity. Qed.

Lemma budget_points_cases p m : budget_points p m = 0 \/ budget_points p m = 40.
Proof.
  unfold budget_points. destruct (0 <? m); [|now left].
  destruct (p / m <=? 1); [now right | now left].
Qed.

Lemma budget_points_finite p m : finite (budget_points p m).
Proof. destruct (budget_points_cases p m) as [-> | ->]; reflexivity. Qed.

(** The score is monotone in the rating, whatever the other two components
    are. *)
Lemma score_core_mono B a r1 r2 :
  finite B -> finite a -> (r1 <=? r2) = true ->
  (round1 (B + r1 / 5 * 30 + a) <=? round1 (B + r2 / 5 * 30 + a)) = true.
Proof.
  intros FB Fa H. apply round1_mono. apply add_mono_r; [exact Fa|].
  apply add_mono_l; [exact FB|]. apply mul_mono; [exact pos_finite_30|].
  apply div_mono; [exact pos_finite_5 | exact H].
Qed.

(** C1, as the code has it.  Unless the price and the budget are both
    infinite, the score is the flat 40 points for a price within a positive
    budget, plus [(rating / 5) * 30], plus [min(6 * amenity_count, 30)],
    rounded to one decimal place. *)
Theorem score_is_formula hotel user_pref :
  is_infinity hotel.(price) && is_infinity user_pref.(max_price) = false ->
  calculate_recommendation_score hotel user_pref = score_formula hotel user_pref.
Proof.
  intros Hinf. rewrite score_unfold. unfold score_formula, budget_points.
  rewrite (mul_comm 6). destruct (0 <? user_pref.(max_price)) eqn:Hm.
  - rewrite (budget_test _ _ Hm Hinf), andb_true_r.
    now destruct (hotel.(price) <=? user_pref.(max_price)).
  - now rewrite andb_false_r.
Qed.

(** C10. Of two hotels with the same price and the same amenities, the one
    with the lower rating has the lower or equal score. *)
Theorem score_monotone_in_rating h1 h2 user_pref :
  h1.(price) = h2.(price) -> h1.(amenities) = h2.(amenities) ->
  (h1.(rating) <=? h2.(rating)) = true ->
  (calculate_recommendation_score h1 user_pref <=?
   calculate_recommendation_score h2 user_pref) = true.
Proof.
  intros Ep Ea H. rewrite !score_unfold, Ep, Ea.
  apply score_core_mono; [apply budget_points_finite | apply amenity_term_finite | exact H].
Qed.

(** C3, as the code has it.  For a rating within [[0, 5]] the score lies
    within [[0, 100]]. *)
Theorem score_range hotel user_pref :
  (0 <=? hotel.(rating)) = true -> (hotel.(rating) <=? 5) = true ->
  (0 <=? calculate_recommendation_score hotel user_pref) = true /\
  (calculate_recommendation_score hotel user_pref <=? 100) = true.
Proof.
  intros H0 H5. rewrite score_unfold.
  set (a := py_min (float_of_nat (List.length hotel.(amenities)) * 6) 30).
  set (B := budget_points hotel.(price) user_pref.(max_price)).
  set (t := hotel.(rating) / 5 * 30).
  destruct (amenity_term_bounds (List.length hotel.(amenities))) as [A0 A30].
  fold a in A0, A30.
  pose proof (amenity_term_finite (List.length hotel.(amenities))) as Fa. fold a in Fa.
  assert ((0 <=? t) = true) as T0.
  { exact (mul_mono _ _ 30 pos_finite_30 (div_mono _ _ 5 pos_finite_5 H0)). }
  assert ((t <=? 30) = true) as T30.
  { exact (mul_mono _ _ 30 pos_finite_30 (div_mono _ _ 5 pos_finite_5 H5)). }
  assert ((0 <=? B + t) = true /\ (B + t <=? 70) = true) as [S0 S70].
  { pose proof (budget_points_finite hotel.(price) user_pref.(max_price)) as FB.
    fold B in FB.
    pose proof (add_mono_l _ _ B FB T0) as L. pose proof (add_mono_l _ _ B FB T30) as U.
    destruct (budget_points_cases hotel.(price) user_pref.(max_price)) as [E|E];
      fold B in E; rewrite E in L, U |- *; split.
    - exact L.
    - apply (leb_trans _ _ _ U). reflexivity.
    - refine (leb_trans _ (40 + 0) _ _ L). reflexivity.
    - exact U. }
  assert ((0 <=? B + t + a) = true) as R0.
  { apply (leb_trans _ (0 + a)).
    - exact (add_mono_l _ _ 0 eq_refl A0).
    - now apply add_mono_r. }
  assert ((B + t + a <=? 100) = true) as R100.
  { apply (leb_trans _ (70 + a)).
    - now apply add_mono_r.
    - exact (add_mono_l _ _ 70 eq_refl A30). }
  split.
  - exact (round1_mono _ _ R0).
  - exact (round1_mono _ _ R100).
Qed.

Lemma score_is_formula_witness :
  calculate_recommendation_score well_equipped_hotel (sample_pref None) =
  score_formula well_equipped_hotel (sample_pref None).
Proof.
  apply (score_is_formula well_equipped_hotel (sample_pref None)). reflexivity.
Defined.

(** When the price and the budget are both infinite the ratio of the two is
    not a number, the test [price_ratio <= 1.0] fails and no point is given
    for the price, although the price is within the budget. *)
Lemma score_infinite_budget :
  (priceless_hotel.(price) <=? unlimited_pref.(max_price)) = true /\
  (0 <? unlimited_pref.(max_price)) = true /\
  calculate_recommendation_score priceless_hotel unlimited_pref = 0 /\
  score_formula priceless_hotel unlimited_pref = 40 /\
  calculate_recommendation_score priceless_hotel unlimited_pref <>
  score_formula priceless_hotel unlimited_pref.
Proof.
  repeat split; try reflexivity.
  intros E. apply (f_equal (fun x => x <=? 1)) in E. vm_compute in E.
  discriminate E.
Qed.

Lemma score_monotone_in_rating_witness :
  (3.5 <=? 4.5) = true /\
  (calculate_recommendation_score (sample_hotel 1 80 3.5 ["WiFi"]) (sample_pref None) <=?
   calculate_recommendation_score (sample_hotel 1 80 4.5 ["WiFi"]) (sample_pref None))
  = true.
Proof.
  split; [reflexivity|].
  apply (score_monotone_in_rating (sample_hotel 1 80 3.5 ["WiFi"])
           (sample_hotel 1 80 4.5 ["WiFi"]) (sample_pref None));
    reflexivity.
Defined.

Lemma score_range_witness :
  (0 <=? calculate_recommendation_score well_equipped_hotel (sample_pref None)) = true /\
  (calculate_recommendation_score well_equipped_hotel (sample_pref None) <=? 100) = true.
Proof.
  apply (score_range well_equipped_hotel (sample_pref None)); reflexivity.
Defined.

(** A hotel rated 4.0 with five amenities, priced 100 against a budget of
    200, scores 40 + 24 + 30 = 94.0, which is above 70. *)
Lemma score_above_70 :
  (0 <=? well_equipped_hotel.(rating)) = true /\
  (well_equipped_hotel.(rating) <=? 5) = true /\
  calculate_recommendation_score well_equipped_hotel (sample_pref None) = 94 /\
  (calculate_recommendation_score well_equipped_hotel (sample_pref None) <=? 70) = false.
Proof. repeat split; reflexivity. Qed.

(** ** The order of the scores *)

Lemma is_nan_not_nan x : is_nan x = false -> not_nan x.
Proof.
  intros H. unfold not_nan, Prim2SF. rewrite H.
  destruct (is_zero x); [reflexivity|].
  destruct (is_infinity x); [reflexivity|].
  destruct (Z.frexp x) as [r e]. destruct (shr_fexp _ _ _ _ _) as [mrs e'].
  destruct (shr_m mrs); reflexivity.
Qed.

Lemma ER_lt_le a b : ER_lt a b -> ER_le a b.
Proof. destruct a, b; simpl; auto. apply Rlt_le. Qed.

Lemma leb_refl x : not_nan x -> (x <=? x) = true.
Proof. intros N. apply leb_iff. auto using ER_le_refl. Qed.

Lemma ltb_leb x y : (x <? y) = true -> (x <=? y) = true.
Proof.
  intros H. apply ltb_iff in H. destruct H as [Nx [Ny H]].
  apply leb_iff. auto using ER_lt_le.
Qed.

Lemma leb_total x y :
  not_nan x -> not_nan y -> (x <? y) = false -> (y <=? x) = true.
Proof.
  intros Nx Ny H. apply leb_iff. repeat split; auto.
  apply ER_not_lt. intros L.
  assert ((x <? y) = true) as T by (apply ltb_iff; auto).
  congruence.
Qed.

Lemma score_not_nan hotel user_pref :
  is_nan hotel.(rating) = false ->
  not_nan (calculate_recommendation_score hotel user_pref).
Proof.
  intros N.
  assert ((calculate_recommendation_score hotel user_pref <=?
           calculate_recommendation_score hotel user_pref) = true) as H.
  { rewrite score_unfold. apply score_core_mono.
    - apply budget_points_finite.
    - apply amenity_term_finite.
    - apply leb_refl, is_nan_not_nan, N. }
  apply leb_iff in H. tauto.
Qed.

Lemma ER_lt_le_trans a b c : ER_lt a b -> ER_le b c -> ER_lt a c.
Proof. destruct a, b, c; simpl; try tauto. intros. lra. Qed.

Lemma ltb_leb_trans x y z :
  (x <? y) = true -> (y <=? z) = true -> (x <? z) = true.
Proof.
  intros H1 H2. apply ltb_iff in H1. apply leb_iff in H2.
  destruct H1 as [Nx [Ny H1]], H2 as [_ [Nz H2]].
  apply ltb_iff. eauto using ER_lt_le_trans.
Qed.

(** ** Sorting by decreasing key *)

Lemma nth_error_skipn {A : Type} (l : list A) p y :
  nth_error l p = Some y -> skipn p l = y :: skipn (S p) l.
Proof.
  revert l. induction p as [|p IH]; intros [|x l] H; try discriminate.
  - now injection H as ->.
  - simpl in H. now apply IH.
Qed.

Lemma nth_error_firstn {A : Type} (l : list A) p y :
  nth_error l p = Some y -> firstn (S p) l = (firstn p l ++ [y])%list.
Proof.
  revert l. induction p as [|p IH]; intros [|x l] H; try discriminate.
  - now injection H as ->.
  - simpl in H. change (firstn (S (S p)) (x :: l)) with (x :: firstn (S p) l).
    now rewrite (IH _ H).
Qed.

Lemma firstn_add {A : Type} (a b : nat) (l : list A) :
  firstn (a + b) l = (firstn a l ++ firstn b (skipn a l))%list.
Proof.
  revert l. induction a as [|a IH]; intros l; [reflexivity|].
  destruct l as [|x l]; simpl.
  - now rewrite firstn_nil.
  - now rewrite IH.
Qed.

Lemma StronglySorted_app {A : Type} (R : A -> A -> Prop) (l1 l2 : list A) :
  StronglySorted R l1 -> StronglySorted R l2 ->
  (forall a b, In a l1 -> In b l2 -> R a b) ->
  StronglySorted R (l1 ++ l2).
Proof.
  intros S1 S2 H. induction S1 as [|x l1 S1 IH F]; simpl; [exact S2|].
  constructor.
  - apply IH. intros a b Ha Hb. apply H; [now right | exact Hb].
  - apply Forall_app. split; [exact F|].
    apply Forall_forall. intros b Hb. apply H; [now left | exact Hb].
Qed.

Lemma StronglySorted_app_inv {A : Type} (R : A -> A -> Prop) (l1 l2 : list A) :
  StronglySorted R (l1 ++ l2) ->
  StronglySorted R l1 /\ StronglySorted R l2 /\
  (forall a b, In a l1 -> In b l2 -> R a b).
Proof.
  induction l1 as [|x l1 IH]; simpl; intros S.
  - repeat split; [constructor | exact S | intros a b []].
  - inversion S as [|? ? S' F]; subst. destruct (IH S') as [S1 [S2 H]].
    apply Forall_app in F. destruct F as [F1 F2].
    repeat split; [now constructor | exact S2|].
    intros a b [<- | Ha] Hb; [|now apply H].
    rewrite Forall_forall in F2. now apply F2.
Qed.

Lemma StronglySorted_rev {A : Type} (R : A -> A -> Prop) (l : list A) :
  StronglySorted R l -> StronglySorted (fun a b => R b a) (rev l).
Proof.
  induction 1 as [|x l S IH F]; simpl; [constructor|].
  apply StronglySorted_app; [exact IH | repeat constructor|].
  intros a b Ha [<- | []]. apply in_rev in Ha.
  rewrite Forall_forall in F. now apply F.
Qed.

Section SortDesc.

Context {A : Type} (key : A -> float).

(** Ascending order, for the sort before the final reversal. *)
Local Abbreviation ascending := (StronglySorted (fun a b => (key a <=? key b) = true)).

Lemma binary_insert_perm sorted pivot :
  Permutation (binary_insert key sorted pivot) (pivot :: sorted).
Proof.
  unfold binary_insert.
  set (l := bisect key _ sorted pivot 0 _).
  apply Permutation_trans with (pivot :: firstn l sorted ++ skipn l sorted)%list;
    [|now rewrite firstn_skipn].
  symmetry. apply Permutation_middle.
Qed.

Lemma binarysort_perm rest : forall sorted,
  Permutation (binarysort key sorted rest) (sorted ++ rest).
Proof.
  unfold binarysort. induction rest as [|x rest IH]; intros sorted; simpl.
  - now rewrite app_nil_r.
  - rewrite IH, binary_insert_perm. simpl. apply Permutation_middle.
Qed.

(** The search ends between the elements that do not exceed the pivot and
    those that do. *)
Lemma bisect_spec pivot sorted : ascending sorted ->
  forall steps l r,
    (l <= r <= List.length sorted)%nat -> (r - l < 2 ^ steps)%nat ->
    Forall (fun e => (key pivot <? key e) = false) (firstn l sorted) ->
    Forall (fun e => (key pivot <? key e) = true) (skipn r sorted) ->
    let l' := bisect key steps sorted pivot l r in
    Forall (fun e => (key pivot <? key e) = false) (firstn l' sorted) /\
    Forall (fun e => (key pivot <? key e) = true) (skipn l' sorted).
Proof.
  intros Hs steps. induction steps as [|steps IH]; intros l r B P Hl Hr;
    cbv zeta; cbn [bisect].
  - simpl in P. assert (l = r) as -> by lia. now split.
  - destruct (Nat.ltb_spec l r) as [Lt|Ge];
      [|assert (l = r) as -> by lia; now split].
    pose proof (Nat.div_mod_eq (r - l) 2) as E.
    pose proof (Nat.mod_upper_bound (r - l) 2 ltac:(lia)) as M.
    rewrite Nat.pow_succ_r' in P.
    set (p := (l + (r - l) / 2)%nat) in *.
    assert (l <= p < r)%nat as Bp by (unfold p; lia).
    assert (p - l < 2 ^ steps)%nat as Half by (unfold p; lia).
    assert (r - S p < 2 ^ steps)%nat as Half' by (unfold p; lia).
    destruct (nth_error sorted p) as [y|] eqn:En;
      [|apply nth_error_None in En; lia].
    pose proof (nth_error_skipn _ _ _ En) as Es.
    pose proof (nth_error_firstn _ _ _ En) as Ef.
    rewrite <- (firstn_skipn p sorted), Es in Hs.
    apply StronglySorted_app_inv in Hs. destruct Hs as [_ [S2 S12]].
    inversion S2 as [|? ? _ F2]; subst.
    destruct (key pivot <? key y) eqn:C.
    + apply IH; [lia | exact Half | exact Hl|].
      rewrite Es. constructor; [exact C|].
      eapply Forall_impl; [|exact F2]. intros e He.
      exact (ltb_leb_trans _ _ _ C He).
    + apply IH; [lia | exact Half' | | exact Hr].
      rewrite Ef. apply Forall_app. split; [|now repeat constructor].
      apply Forall_forall. intros e He.
      destruct (key pivot <? key e) eqn:Ce; [|reflexivity].
      rewrite <- C. symmetry. apply (ltb_leb_trans _ _ _ Ce).
      apply S12; [exact He | now left].
Qed.

Lemma binary_insert_ascending sorted pivot :
  not_nan (key pivot) -> Forall (fun e => not_nan (key e)) sorted ->
  ascending sorted -> ascending (binary_insert key sorted pivot).
Proof.
  intros Np Ns S. unfold binary_insert.
  destruct (bisect_spec pivot sorted S (List.length sorted) 0 (List.length sorted))
    as [F1 F2].
  - lia.
  - rewrite Nat.sub_0_r. apply Nat.pow_gt_lin_r. lia.
  - constructor.
  - rewrite skipn_all. constructor.
  - set (l := bisect key _ sorted pivot 0 _) in *.
    rewrite <- (firstn_skipn l sorted) in S, Ns.
    apply StronglySorted_app_inv in S. destruct S as [S1 [S2 S12]].
    apply Forall_app in Ns. destruct Ns as [N1 N2].
    rewrite Forall_forall in F1, F2, N1, N2.
    apply StronglySorted_app; [exact S1| |].
    + constructor; [exact S2|]. apply Forall_forall. intros e He.
      apply ltb_leb. now apply F2.
    + intros a b Ha [<- | Hb].
      * apply leb_total; auto.
      * now apply S12.
Qed.

Lemma binarysort_ascending rest : forall sorted,
  Forall (fun e => not_nan (key e)) sorted ->
  Forall (fun e => not_nan (key e)) rest ->
  ascending sorted -> ascending (binarysort key sorted rest).
Proof.
  unfold binarysort. induction rest as [|x rest IH]; intros sorted Ns Nr S; simpl.
  - exact S.
  - inversion Nr as [|? ? Nx Nr']; subst. apply IH; [|exact Nr'|].
    + apply (Permutation_Forall (Permutation_sym (binary_insert_perm sorted x))).
      now constructor.
    + now apply binary_insert_ascending.
Qed.

Lemma ascending_run_sorted : forall l x,
  Forall (fun e => not_nan (key e)) (x :: l) ->
  Sorted (fun a b => (key a <=? key b) = true)
    (firstn (S (ascending_run key x l)) (x :: l)).
Proof.
  induction l as [|y l IH]; intros x N; simpl.
  - repeat constructor.
  - inversion N as [|? ? Nx N']; subst. inversion N' as [|? ? Ny _]; subst.
    destruct (key y <? key x) eqn:C.
    + repeat constructor.
    + constructor; [exact (IH y N')|].
      constructor. now apply leb_total.
Qed.

Lemma descending_run_sorted : forall l x,
  Sorted (fun a b => (key b <=? key a) = true)
    (firstn (S (descending_run key x l)) (x :: l)).
Proof.
  induction l as [|y l IH]; intros x; simpl.
  - repeat constructor.
  - destruct (key y <? key x) eqn:C.
    + constructor; [exact (IH y)|]. constructor. now apply ltb_leb.
    + repeat constructor.
Qed.

Lemma leb_transitive_asc :
  Relations_1.Transitive (fun a b : A => (key a <=? key b) = true).
Proof. intros a b c. apply leb_trans. Qed.

Lemma leb_transitive_desc :
  Relations_1.Transitive (fun a b : A => (key b <=? key a) = true).
Proof. intros a b c H1 H2. exact (leb_trans _ _ _ H2 H1). Qed.

Lemma count_run_ascending l :
  Forall (fun e => not_nan (key e)) l ->
  let (n, descending) := count_run key l in
  ascending (if descending then rev (firstn n l) else firstn n l).
Proof.
  intros N. destruct l as [|x [|y l]]; simpl.
  - constructor.
  - repeat constructor.
  - inversion N as [|? ? Nx N']; subst. inversion N' as [|? ? Ny _]; subst.
    destruct (key y <? key x) eqn:C.
    + assert (StronglySorted (fun a b => (key b <=? key a) = true)
                (x :: firstn (S (descending_run key y l)) (y :: l))) as S.
      { apply Sorted_StronglySorted; [exact leb_transitive_desc|].
        constructor; [apply descending_run_sorted|].
        constructor. now apply ltb_leb. }
      exact (StronglySorted_rev _ _ S).
    + apply Sorted_StronglySorted; [exact leb_transitive_asc|].
      constructor; [now apply ascending_run_sorted|].
      constructor. now apply leb_total.
Qed.

Lemma ascending_run_all : forall l x,
  ascending (x :: l) -> ascending_run key x l = List.length l.
Proof.
  induction l as [|y l IH]; intros x S; simpl; [reflexivity|].
  inversion S as [|? ? S' F]; subst. inversion F as [|? ? Hy _]; subst.
  now rewrite (leb_not_ltb _ _ Hy), (IH y S').
Qed.

End SortDesc.

(** *** The searches and the merges *)

(** ** The searches *)

Section Search.

Variable P : nat -> bool.
Variable n : nat.
Hypothesis monotone : forall i j, (i <= j < n)%nat -> P i = true -> P j = true.

Lemma monotone_false i j : (i <= j < n)%nat -> P j = false -> P i = false.
Proof.
  intros B H. destruct (P i) eqn:E; [|reflexivity].
  rewrite (monotone i j B E) in H. discriminate.
Qed.

Lemma bsearch_spec : forall fuel lo hi,
  (hi - lo <= fuel)%nat -> (lo <= hi <= n)%nat ->
  (forall i, (i < lo)%nat -> P i = false) ->
  (forall i, (hi <= i < n)%nat -> P i = true) ->
  threshold P n (bsearch fuel P lo hi).
Proof.
  induction fuel as [|fuel IH]; intros lo hi F B L H; cbn [bsearch].
  - assert (lo = hi) as -> by lia. repeat split; auto; lia.
  - destruct (Nat.ltb_spec lo hi) as [Lt|Ge].
    + cbv zeta.
      pose proof (Nat.div_mod_eq (hi - lo) 2) as E.
      pose proof (Nat.mod_upper_bound (hi - lo) 2 ltac:(lia)) as M.
      set (m := (lo + (hi - lo) / 2)%nat) in *.
      assert (lo <= m < hi)%nat as Bm by (unfold m; lia).
      destruct (P m) eqn:Pm.
      * apply IH; [lia | lia | exact L|].
        intros i Bi. apply (monotone m i); [lia | exact Pm].
      * apply IH; [lia | lia | | exact H].
        intros i Bi. apply (monotone_false i m); [lia | exact Pm].
    + assert (lo = hi) as -> by lia. repeat split; auto; lia.
Qed.

Lemma gallop_loop_spec (stop : nat -> bool) (maxofs : nat) :
  forall fuel lastofs ofs,
  (maxofs - ofs < fuel)%nat -> (lastofs < ofs)%nat ->
  (lastofs < maxofs)%nat ->
  stop lastofs = false ->
  let r := gallop_loop fuel stop maxofs lastofs ofs in
  (fst r < snd r)%nat /\ (fst r < maxofs)%nat /\ stop (fst r) = false /\
  ((maxofs <= snd r)%nat \/ stop (snd r) = true).
Proof.
  induction fuel as [|fuel IH]; intros lastofs ofs F L M S; [lia|].
  cbn [gallop_loop]. destruct (Nat.ltb_spec ofs maxofs) as [Lt|Ge].
  - destruct (stop ofs) eqn:E; cbv zeta; simpl.
    + auto.
    + apply IH; [lia | lia | exact Lt | exact E].
  - cbv zeta; simpl. auto.
Qed.

Lemma gallop_spec hint : (hint < n)%nat -> threshold P n (gallop P n hint).
Proof.
  intros Hh. unfold gallop. destruct (P hint) eqn:Ph.
  - pose proof (gallop_loop_spec (fun ofs => negb (P (hint - ofs))) (S hint)
                  (S hint) 0 1) as G.
    destruct (gallop_loop (S hint) _ (S hint) 0 1) as [lastofs ofs].
    cbv zeta in G. simpl fst in G. simpl snd in G.
    destruct G as [G1 [G2 [G3 G4]]]; [lia | lia | lia | |].
    { rewrite Nat.sub_0_r, Ph. reflexivity. }
    apply negb_false_iff in G3.
    apply bsearch_spec; [lia | lia | |].
    + intros i Bi. destruct G4 as [G4|G4]; [lia|].
      apply negb_true_iff in G4.
      apply (monotone_false i (hint - ofs)); [lia | exact G4].
    + intros i Bi. apply (monotone (hint - lastofs) i); [lia | exact G3].
  - pose proof (gallop_loop_spec (fun ofs => P (hint + ofs)) (n - hint)
                  (n - hint) 0 1) as G.
    destruct (gallop_loop (n - hint) _ (n - hint) 0 1) as [lastofs ofs].
    cbv zeta in G. simpl fst in G. simpl snd in G.
    destruct G as [G1 [G2 [G3 G4]]]; [lia | lia | lia | |].
    { rewrite Nat.add_0_r. exact Ph. }
    apply bsearch_spec; [lia | lia | |].
    + intros i Bi. apply (monotone_false i (hint + lastofs)); [lia | exact G3].
    + intros i Bi. destruct G4 as [G4|G4]; [lia|].
      apply (monotone (hint + ofs) i); [lia | exact G4].
Qed.

End Search.

Lemma ER_le_lt_trans a b c : ER_le a b -> ER_lt b c -> ER_lt a c.
Proof. destruct a, b, c; simpl; try tauto. intros. lra. Qed.

Lemma leb_ltb_trans x y z :
  (x <=? y)%float = true -> (y <? z)%float = true -> (x <? z)%float = true.
Proof.
  intros H1 H2. apply leb_iff in H1. apply ltb_iff in H2.
  destruct H1 as [Nx [Ny H1]], H2 as [_ [Nz H2]].
  apply ltb_iff. eauto using ER_le_lt_trans.
Qed.

Lemma StronglySorted_nth {A : Type} (R : A -> A -> Prop) (d : A) (l : list A) :
  StronglySorted R l ->
  forall i j, (i < j < List.length l)%nat -> R (nth i l d) (nth j l d).
Proof.
  induction 1 as [|x l S IH F]; intros i j B; simpl in B; [lia|].
  destruct j as [|j]; [lia|]. destruct i as [|i]; simpl.
  - rewrite Forall_forall in F. apply F, nth_In. lia.
  - apply IH. lia.
Qed.

Lemma Forall_firstn_nth {A : Type} (Q : A -> Prop) (d : A) (l : list A) k :
  (forall i, (i < k)%nat -> (i < List.length l)%nat -> Q (nth i l d)) ->
  Forall Q (firstn k l).
Proof.
  revert k. induction l as [|x l IH]; intros k H.
  - rewrite firstn_nil. constructor.
  - destruct k as [|k]; simpl; constructor.
    + apply (H 0%nat); simpl; lia.
    + apply IH. intros i B1 B2. apply (H (S i)); simpl; lia.
Qed.

Lemma Forall_skipn_nth {A : Type} (Q : A -> Prop) (d : A) (l : list A) k :
  (forall i, (k <= i < List.length l)%nat -> Q (nth i l d)) ->
  Forall Q (skipn k l).
Proof.
  revert k. induction l as [|x l IH]; intros k H.
  - rewrite skipn_nil. constructor.
  - destruct k as [|k]; simpl.
    + constructor.
      * apply (H 0%nat); simpl; lia.
      * apply (IH 0%nat). intros i B. apply (H (S i)); simpl; lia.
    + apply IH. intros i B. apply (H (S i)); simpl; lia.
Qed.

Section Merge.

Context {A : Type} (key : A -> float).

Local Abbreviation asc := (StronglySorted (fun a b => (key a <=? key b)%float = true)).
Local Abbreviation desc := (StronglySorted (fun a b => (key b <=? key a)%float = true)).
Local Abbreviation nn := (Forall (fun e => not_nan (key e))).

Lemma gallop_right_spec x a hint :
  asc a -> (hint < List.length a)%nat ->
  let k := gallop_right key x a hint in
  (k <= List.length a)%nat /\
  Forall (fun e => (key x <? key e)%float = false) (firstn k a) /\
  Forall (fun e => (key x <? key e)%float = true) (skipn k a).
Proof.
  intros S Hh k.
  destruct (gallop_spec (fun i => (key x <? key (nth i a x))%float) (List.length a))
    with (hint := hint) as [T0 [T1 T2]]; [|exact Hh|].
  { intros i j B H. destruct (Nat.eq_dec i j) as [->|N]; [exact H|].
    apply (ltb_leb_trans _ _ _ H).
    apply (StronglySorted_nth _ x a S). lia. }
  split; [exact T0|]. split.
  - apply (Forall_firstn_nth _ x). intros i B _. now apply T1.
  - apply (Forall_skipn_nth _ x). intros i B. now apply T2.
Qed.

Lemma gallop_left_spec x a hint :
  asc a -> (hint < List.length a)%nat ->
  let k := gallop_left key x a hint in
  (k <= List.length a)%nat /\
  Forall (fun e => (key e <? key x)%float = true) (firstn k a) /\
  Forall (fun e => (key e <? key x)%float = false) (skipn k a).
Proof.
  intros S Hh k.
  destruct (gallop_spec (fun i => negb (key (nth i a x) <? key x)%float)
              (List.length a))
    with (hint := hint) as [T0 [T1 T2]]; [|exact Hh|].
  { intros i j B H. destruct (Nat.eq_dec i j) as [->|N]; [exact H|].
    apply negb_true_iff in H. apply negb_true_iff.
    destruct (key (nth j a x) <? key x)%float eqn:E; [|reflexivity].
    rewrite <- H. symmetry. apply (fun L => leb_ltb_trans _ _ _ L E).
    apply (StronglySorted_nth _ x a S). lia. }
  split; [exact T0|]. split.
  - apply (Forall_firstn_nth _ x). intros i B _. apply negb_false_iff. now apply T1.
  - apply (Forall_skipn_nth _ x). intros i B. apply negb_true_iff. now apply T2.
Qed.

Lemma rev_split (l : list A) g :
  (g <= List.length l)%nat ->
  firstn (List.length l - g) (rev l) = rev (skipn g l) /\
  skipn (List.length l - g) (rev l) = rev (firstn g l).
Proof.
  intros H. rewrite firstn_rev, skipn_rev.
  now replace (List.length l - (List.length l - g))%nat with g by lia.
Qed.

(** The same searches seen from the end of the slice, as [merge_hi] uses
    them. *)
Lemma gallop_right_rev x ra :
  desc ra -> ra <> [] ->
  let k := (List.length ra - gallop_right key x (rev ra) (List.length ra - 1))%nat in
  Forall (fun e => (key x <? key e)%float = true) (firstn k ra) /\
  Forall (fun e => (key x <? key e)%float = false) (skipn k ra).
Proof.
  intros S Hne k.
  assert (0 < List.length ra)%nat as Hlen by (destruct ra; [contradiction | simpl; lia]).
  pose proof (StronglySorted_rev _ _ S) as Sr.
  destruct (gallop_right_spec x (rev ra) (List.length ra - 1) Sr) as [G0 [G1 G2]].
  { rewrite length_rev. lia. }
  rewrite length_rev in G0.
  destruct (rev_split (rev ra) _ ltac:(rewrite length_rev; exact G0)) as [E1 E2].
  rewrite length_rev, rev_involutive in E1, E2. fold k in E1, E2.
  rewrite E1, E2. split.
  - apply Forall_forall. intros e He. apply in_rev in He.
    rewrite Forall_forall in G2. now apply G2.
  - apply Forall_forall. intros e He. apply in_rev in He.
    rewrite Forall_forall in G1. now apply G1.
Qed.

Lemma gallop_left_rev x rb :
  desc rb -> rb <> [] ->
  let k := (List.length rb - gallop_left key x (rev rb) (List.length rb - 1))%nat in
  Forall (fun e => (key e <? key x)%float = false) (firstn k rb) /\
  Forall (fun e => (key e <? key x)%float = true) (skipn k rb).
Proof.
  intros S Hne k.
  assert (0 < List.length rb)%nat as Hlen by (destruct rb; [contradiction | simpl; lia]).
  pose proof (StronglySorted_rev _ _ S) as Sr.
  destruct (gallop_left_spec x (rev rb) (List.length rb - 1) Sr) as [G0 [G1 G2]].
  { rewrite length_rev. lia. }
  rewrite length_rev in G0.
  destruct (rev_split (rev rb) _ ltac:(rewrite length_rev; exact G0)) as [E1 E2].
  rewrite length_rev, rev_involutive in E1, E2. fold k in E1, E2.
  rewrite E1, E2. split.
  - apply Forall_forall. intros e He. apply in_rev in He.
    rewrite Forall_forall in G2. now apply G2.
  - apply Forall_forall. intros e He. apply in_rev in He.
    rewrite Forall_forall in G1. now apply G1.
Qed.

End Merge.

Section ShuffleFacts.

Context {A : Type}.
Implicit Types a b r f : list A.

Lemma shuffle_left a : Shuffle a [] a.
Proof. induction a; constructor; auto. Qed.

Lemma shuffle_right b : Shuffle [] b b.
Proof. induction b; constructor; auto. Qed.

Lemma shuffle_app_l f a b r : Shuffle a b r -> Shuffle (f ++ a) b (f ++ r).
Proof. intros H. induction f; simpl; [exact H | now constructor]. Qed.

Lemma shuffle_app_r f a b r : Shuffle a b r -> Shuffle a (f ++ b) (f ++ r).
Proof. intros H. induction f; simpl; [exact H | now constructor]. Qed.

Lemma shuffle_firstn_l k a b r :
  Shuffle (skipn k a) b r -> Shuffle a b (firstn k a ++ r).
Proof.
  intros H. apply (shuffle_app_l (firstn k a)) in H.
  now rewrite firstn_skipn in H.
Qed.

Lemma shuffle_firstn_r k a b r :
  Shuffle a (skipn k b) r -> Shuffle a b (firstn k b ++ r).
Proof.
  intros H. apply (shuffle_app_r (firstn k b)) in H.
  now rewrite firstn_skipn in H.
Qed.

Lemma shuffle_ab a b : Shuffle a b (a ++ b).
Proof.
  rewrite <- (app_nil_r a) at 1. apply shuffle_app_l, shuffle_right.
Qed.

Lemma shuffle_ba a b : Shuffle a b (b ++ a).
Proof.
  rewrite <- (app_nil_r b) at 1. apply shuffle_app_r, shuffle_left.
Qed.

Lemma shuffle_perm a b r : Shuffle a b r -> Permutation r (a ++ b).
Proof.
  induction 1; simpl.
  - constructor.
  - now constructor.
  - now apply Permutation_cons_app.
Qed.

Lemma shuffle_in a b r e : Shuffle a b r -> In e r -> In e a \/ In e b.
Proof.
  intros H Hin. apply (Permutation_in _ (shuffle_perm _ _ _ H)) in Hin.
  now apply in_app_or.
Qed.

Lemma shuffle_sym a b r : Shuffle a b r -> Shuffle b a r.
Proof. induction 1; now constructor. Qed.

End ShuffleFacts.

Create HintDb shuffle.
#[local] Hint Constructors Shuffle : shuffle.
#[local] Hint Resolve shuffle_left shuffle_right shuffle_ab shuffle_ba
  shuffle_firstn_l shuffle_firstn_r shuffle_app_l shuffle_app_r : shuffle.

Section MergePerm.

Context {A : Type} (key : A -> float).

Local Abbreviation next_shuffles next :=
  (forall g mg ac bc (a b : list A), Shuffle a b (fst (next g mg ac bc a b))).

Ltac shuf := solve [cbn [fst snd cons1 app1]; eauto 8 with shuffle].

(** The loops of [merge_lo] keep the elements of both runs, whatever the
    comparisons answer. *)
Lemma merge_lo_straight_shuffle next mg ac bc (a b : list A) :
  next_shuffles next ->
  Shuffle a b (fst (merge_lo_straight key next mg ac bc a b)).
Proof.
  intros Hn. unfold merge_lo_straight.
  destruct a as [|x a'], b as [|y b']; try solve [shuf].
  destruct (key y <? key x)%float.
  - destruct b' as [|y' b'']; [shuf|].
    destruct (mg <=? S bc)%nat; shuf.
  - destruct (List.length a' =? 1)%nat; [shuf|].
    destruct (mg <=? S ac)%nat; shuf.
Qed.

Lemma merge_lo_gallop_shuffle next mg (a b : list A) :
  next_shuffles next ->
  Shuffle a b (fst (merge_lo_gallop key next mg a b)).
Proof.
  intros Hn. unfold merge_lo_gallop.
  destruct b as [|y b']; [shuf|]. cbv zeta.
  set (k := gallop_right key y a 0).
  destruct ((0 <? k)%nat && (List.length (skipn k a) =? 1)%nat); [shuf|].
  destruct ((0 <? k)%nat && (List.length (skipn k a) =? 0)%nat) eqn:E0.
  { apply andb_true_iff in E0. destruct E0 as [_ E0].
    apply Nat.eqb_eq, length_zero_iff_nil in E0.
    rewrite <- (firstn_skipn k a) at 1. rewrite E0, app_nil_r. shuf. }
  cbn [fst snd cons1 app1]. apply shuffle_firstn_l. apply shuffle_r.
  destruct b' as [|y' b'']; [shuf|].
  destruct (skipn k a) as [|x1 a1']; [shuf|].
  set (k' := gallop_left key x1 (y' :: b'') 0).
  cbn [fst snd cons1 app1]. apply shuffle_firstn_r.
  destruct (skipn k' (y' :: b'')) as [|y1 b1']; [shuf|].
  cbn [fst snd cons1 app1]. apply shuffle_l.
  destruct (List.length a1' =? 1)%nat; [shuf|].
  destruct ((MIN_GALLOP <=? k)%nat || (MIN_GALLOP <=? k')%nat); shuf.
Qed.

Lemma merge_lo_loop_shuffle : forall fuel g mg ac bc (a b : list A),
  Shuffle a b (fst (merge_lo_loop key fuel g mg ac bc a b)).
Proof.
  induction fuel as [|fuel IH]; intros; simpl; [shuf|].
  destruct g.
  - now apply merge_lo_gallop_shuffle.
  - now apply merge_lo_straight_shuffle.
Qed.

Lemma merge_lo_shuffle mg (a b : list A) :
  Shuffle a b (fst (merge_lo key mg a b)).
Proof.
  unfold merge_lo. destruct b as [|y [|y' b'']]; try solve [shuf].
  cbn [fst snd cons1 app1]. apply shuffle_r.
  destruct (List.length a =? 1)%nat; [shuf|].
  apply merge_lo_loop_shuffle.
Qed.

Lemma merge_hi_straight_shuffle next mg ac bc (ra rb : list A) :
  next_shuffles next ->
  Shuffle ra rb (fst (merge_hi_straight key next mg ac bc ra rb)).
Proof.
  intros Hn. unfold merge_hi_straight.
  destruct ra as [|x ra'], rb as [|y rb']; try solve [shuf].
  destruct (key y <? key x)%float.
  - destruct ra' as [|x' ra'']; [shuf|].
    destruct (mg <=? S ac)%nat; shuf.
  - destruct (List.length rb' =? 1)%nat; [shuf|].
    destruct (mg <=? S bc)%nat; shuf.
Qed.

Lemma merge_hi_gallop_shuffle next mg (ra rb : list A) :
  next_shuffles next ->
  Shuffle ra rb (fst (merge_hi_gallop key next mg ra rb)).
Proof.
  intros Hn. unfold merge_hi_gallop.
  destruct rb as [|y rb']; [shuf|]. cbv zeta.
  set (k := (List.length ra - gallop_right key y (rev ra) (List.length ra - 1))%nat).
  destruct ((0 <? k)%nat && (List.length (skipn k ra) =? 0)%nat) eqn:E0.
  { apply andb_true_iff in E0. destruct E0 as [_ E0].
    apply Nat.eqb_eq, length_zero_iff_nil in E0.
    rewrite <- (firstn_skipn k ra) at 1. rewrite E0, app_nil_r. shuf. }
  cbn [fst snd cons1 app1]. apply shuffle_firstn_l. apply shuffle_r.
  destruct (List.length rb' =? 1)%nat; [shuf|].
  destruct (skipn k ra) as [|x1 ra1']; [shuf|].
  destruct rb' as [|y' rb'']; [shuf|].
  set (k' := (List.length (y' :: rb'') -
              gallop_left key x1 (rev (y' :: rb'')) (List.length (y' :: rb'') - 1))%nat).
  destruct ((0 <? k')%nat && (List.length (skipn k' (y' :: rb'')) =? 1)%nat);
    [shuf|].
  destruct ((0 <? k')%nat && (List.length (skipn k' (y' :: rb'')) =? 0)%nat) eqn:E1.
  { apply andb_true_iff in E1. destruct E1 as [_ E1].
    apply Nat.eqb_eq, length_zero_iff_nil in E1.
    rewrite <- (firstn_skipn k' (y' :: rb'')) at 1. rewrite E1, app_nil_r. shuf. }
  cbn [fst snd cons1 app1]. apply shuffle_firstn_r. apply shuffle_l.
  destruct ra1' as [|x2 ra2]; [shuf|].
  destruct ((MIN_GALLOP <=? k)%nat || (MIN_GALLOP <=? k')%nat); shuf.
Qed.

Lemma merge_hi_loop_shuffle : forall fuel g mg ac bc (ra rb : list A),
  Shuffle ra rb (fst (merge_hi_loop key fuel g mg ac bc ra rb)).
Proof.
  induction fuel as [|fuel IH]; intros; simpl; [shuf|].
  destruct g.
  - now apply merge_hi_gallop_shuffle.
  - now apply merge_hi_straight_shuffle.
Qed.

Lemma merge_lo_perm mg (a b : list A) :
  Permutation (fst (merge_lo key mg a b)) (a ++ b).
Proof. apply shuffle_perm, merge_lo_shuffle. Qed.

Lemma merge_hi_rev_shuffle mg (a b : list A) :
  Shuffle (rev a) (rev b) (rev (fst (merge_hi key mg a b))).
Proof.
  unfold merge_hi. cbn [fst snd cons1 app1]. rewrite rev_involutive.
  destruct (rev a) as [|x [|x' ra'']]; try solve [shuf].
  cbn [fst snd cons1 app1]. apply shuffle_l.
  destruct (List.length (rev b) =? 1)%nat; [shuf|].
  apply merge_hi_loop_shuffle.
Qed.

Lemma merge_hi_perm mg (a b : list A) :
  Permutation (fst (merge_hi key mg a b)) (a ++ b).
Proof.
  pose proof (shuffle_perm _ _ _ (merge_hi_rev_shuffle mg a b)) as P.
  rewrite <- Permutation_rev in P. rewrite P.
  rewrite <- !Permutation_rev. reflexivity.
Qed.

Lemma merge_at_perm mg (a b : list A) :
  Permutation (fst (merge_at key mg a b)) (a ++ b).
Proof.
  unfold merge_at. destruct b as [|y b']; [now rewrite app_nil_r|].
  cbv zeta. set (k := gallop_right key y a 0).
  destruct (rev (skipn k a)) as [|z ra]; [reflexivity|].
  set (nb := gallop_left key z (y :: b') (List.length (y :: b') - 1)).
  destruct (nb =? 0)%nat; [reflexivity|]. cbn [fst snd cons1 app1].
  assert (Permutation
            (fst (if (List.length (skipn k a) <=? List.length (firstn nb (y :: b')))%nat
                  then merge_lo key mg (skipn k a) (firstn nb (y :: b'))
                  else merge_hi key mg (skipn k a) (firstn nb (y :: b'))))
            (skipn k a ++ firstn nb (y :: b'))) as P.
  { destruct (_ <=? _)%nat; [apply merge_lo_perm | apply merge_hi_perm]. }
  rewrite P. rewrite <- (firstn_skipn k a) at 3.
  rewrite <- (firstn_skipn nb (y :: b')) at 3.
  now rewrite <- !app_assoc.
Qed.

End MergePerm.

Section GMerge.

Context {A : Type} (t : A -> A -> bool).

Lemma gmerge_nil_r a : gmerge t a [] = a.
Proof. now destruct a. Qed.

Lemma gmerge_cons x a y b :
  gmerge t (x :: a) (y :: b) =
  if t x y then y :: gmerge t (x :: a) b else x :: gmerge t a (y :: b).
Proof. reflexivity. Qed.

Lemma gmerge_prefix_l f a y b :
  Forall (fun e => t e y = false) f ->
  gmerge t (f ++ a) (y :: b) = f ++ gmerge t a (y :: b).
Proof.
  induction 1 as [|x f Hx _ IH]; [reflexivity|].
  change ((x :: f) ++ a) with (x :: (f ++ a)).
  now rewrite gmerge_cons, Hx, IH.
Qed.

Lemma gmerge_prefix_r x a f b :
  Forall (fun e => t x e = true) f ->
  gmerge t (x :: a) (f ++ b) = f ++ gmerge t (x :: a) b.
Proof.
  induction 1 as [|y f Hy _ IH]; [reflexivity|].
  change ((y :: f) ++ b) with (y :: (f ++ b)).
  now rewrite gmerge_cons, Hy, IH.
Qed.

Lemma gmerge_last z b :
  Forall (fun e => t z e = true) b -> gmerge t [z] b = b ++ [z].
Proof.
  intros H. rewrite <- (app_nil_r b) at 1. now rewrite gmerge_prefix_r.
Qed.

Lemma gmerge_first a y :
  Forall (fun e => t e y = false) a -> gmerge t a [y] = a ++ [y].
Proof.
  intros H. rewrite <- (app_nil_r a) at 1. now rewrite gmerge_prefix_l.
Qed.

Lemma gmerge_all_l a b :
  (forall p, hd_error b = Some p -> Forall (fun e => t e p = false) a) ->
  gmerge t a b = a ++ b.
Proof.
  intros H. destruct b as [|p b]; [now rewrite gmerge_nil_r, app_nil_r|].
  rewrite <- (app_nil_r a) at 1. rewrite gmerge_prefix_l; auto.
Qed.

(** What follows the last element of the first list in the second one stays
    where it is. *)
Lemma gmerge_suffix z post : forall a b,
  Forall (fun e => t z e = true) b ->
  (forall p, hd_error post = Some p -> Forall (fun e => t e p = false) (a ++ [z])) ->
  gmerge t (a ++ [z]) (b ++ post) = gmerge t (a ++ [z]) b ++ post.
Proof.
  induction a as [|x a IHa]; intros b Hb Hp.
  - change ([] ++ [z]) with [z] in *.
    rewrite (gmerge_prefix_r z [] b post Hb), (gmerge_last z b Hb).
    rewrite <- app_assoc. f_equal. now apply gmerge_all_l.
  - induction Hb as [|y b Hy Hb IHb].
    + simpl app at 2. rewrite gmerge_nil_r. now apply gmerge_all_l.
    + change ((x :: a) ++ [z]) with (x :: (a ++ [z])) in *.
      change ((y :: b) ++ post) with (y :: (b ++ post)).
      rewrite !gmerge_cons. destruct (t x y).
      * now rewrite IHb.
      * change (y :: (b ++ post)) with ((y :: b) ++ post).
        rewrite IHa; [reflexivity | now constructor|].
        intros p Ep. specialize (Hp p Ep). now inversion Hp.
Qed.

Lemma gmerge_shuffle : forall a b, Shuffle a b (gmerge t a b).
Proof.
  induction a as [|x a IHa]; intros b; [apply shuffle_right|].
  induction b as [|y b IHb]; [apply shuffle_left|].
  rewrite gmerge_cons. destruct (t x y); now constructor.
Qed.

(** The merge of two sorted lists is sorted, when [take_second] agrees with
    the order. *)
Lemma gmerge_sorted (R : A -> A -> Prop) (D : A -> Prop) :
  (forall x y z, R x y -> R y z -> R x z) ->
  (forall x y, D x -> D y -> t x y = true -> R y x) ->
  (forall x y, D x -> D y -> t x y = false -> R x y) ->
  forall a b, Forall D a -> Forall D b ->
  StronglySorted R a -> StronglySorted R b ->
  StronglySorted R (gmerge t a b).
Proof.
  intros Tr T1 T0.
  induction a as [|x a IHa]; intros b Da Db Sa Sb; [exact Sb|].
  induction b as [|y b IHb]; [exact Sa|].
  rewrite gmerge_cons.
  inversion Sa as [|? ? Sa' Fa]; subst. inversion Sb as [|? ? Sb' Fb]; subst.
  inversion Da as [|? ? Dx Da']; subst. inversion Db as [|? ? Dy Db']; subst.
  destruct (t x y) eqn:E.
  - constructor; [now apply IHb|].
    apply Forall_forall. intros e He.
    destruct (shuffle_in _ _ _ _ (gmerge_shuffle (x :: a) b) He) as [[<-|Ha]|Hb].
    + now apply T1.
    + apply Tr with x; [now apply T1|].
      rewrite Forall_forall in Fa. now apply Fa.
    + rewrite Forall_forall in Fb. now apply Fb.
  - constructor; [now apply IHa|].
    apply Forall_forall. intros e He.
    destruct (shuffle_in _ _ _ _ (gmerge_shuffle a (y :: b)) He) as [Ha|[<-|Hb]].
    + rewrite Forall_forall in Fa. now apply Fa.
    + now apply T0.
    + apply Tr with y; [now apply T0|].
      rewrite Forall_forall in Fb. now apply Fb.
Qed.

End GMerge.

Lemma StronglySorted_skipn {A : Type} (R : A -> A -> Prop) k (l : list A) :
  StronglySorted R l -> StronglySorted R (skipn k l).
Proof.
  intros S. rewrite <- (firstn_skipn k l) in S.
  now apply StronglySorted_app_inv in S.
Qed.

Lemma StronglySorted_firstn {A : Type} (R : A -> A -> Prop) k (l : list A) :
  StronglySorted R l -> StronglySorted R (firstn k l).
Proof.
  intros S. rewrite <- (firstn_skipn k l) in S.
  now apply StronglySorted_app_inv in S.
Qed.

Lemma Forall_skipn' {A : Type} (Q : A -> Prop) k (l : list A) :
  Forall Q l -> Forall Q (skipn k l).
Proof.
  intros F. rewrite <- (firstn_skipn k l) in F. now apply Forall_app in F.
Qed.

Lemma Forall_firstn' {A : Type} (Q : A -> Prop) k (l : list A) :
  Forall Q l -> Forall Q (firstn k l).
Proof.
  intros F. rewrite <- (firstn_skipn k l) in F. now apply Forall_app in F.
Qed.

Lemma last_skipn {A : Type} (z : A) : forall k (l : list A),
  skipn k l <> [] -> last (skipn k l) z = last l z.
Proof.
  induction k as [|k IH]; intros l H; [reflexivity|].
  destruct l as [|x l]; [reflexivity|]. simpl skipn in *.
  rewrite (IH l H). destruct l as [|y l]; [|reflexivity].
  rewrite skipn_nil in H. contradiction.
Qed.

Lemma last_single {A : Type} (z : A) (l : list A) :
  List.length l = 1%nat -> last l z = z -> l = [z].
Proof.
  destruct l as [|w [|w' l]]; try discriminate. simpl. now intros _ ->.
Qed.

Section MergeLo.

Context {A : Type} (key : A -> float).

Local Abbreviation asc := (StronglySorted (fun a b => (key a <=? key b)%float = true)).
Local Abbreviation smerge := (gmerge (fun x y => (key y <? key x)%float)).

Local Abbreviation next_merges next N z :=
  (forall g mg ac bc (a b : list A),
     (List.length a + List.length b <= N)%nat -> lo_ready key z a b ->
     fst (next g mg ac bc a b) = smerge a b).

Ltac red1 := cbn [fst snd cons1 app1].
Ltac ready := unfold lo_ready; repeat apply conj; auto; simpl in *; try lia.

Lemma merge_lo_straight_eq next N z mg ac bc (a b : list A) :
  next_merges next N z ->
  (List.length a + List.length b <= S N)%nat -> lo_ready key z a b ->
  fst (merge_lo_straight key next mg ac bc a b) = smerge a b.
Proof.
  intros Hn Hsize [Sa [Sb [La [Fb [Na Nb]]]]]. unfold merge_lo_straight.
  destruct a as [|x a']; [simpl in Na; lia|].
  destruct b as [|y b']; [simpl in Nb; lia|].
  rewrite gmerge_cons. simpl in Hsize, Na.
  inversion Sa as [|? ? Sa' _]; subst. inversion Sb as [|? ? Sb' _]; subst.
  inversion Fb as [|? ? _ Fb']; subst.
  destruct (key y <? key x)%float; red1; f_equal.
  - destruct b' as [|y' b'']; [now rewrite gmerge_nil_r|].
    destruct (mg <=? S bc)%nat; apply Hn; try (simpl in *; lia); ready.
  - assert (last a' z = z) as La'.
    { destruct a' as [|w a'']; [simpl in Na; lia | exact La]. }
    destruct (Nat.eqb_spec (List.length a') 1) as [E1|N1].
    + red1. rewrite (last_single z a' E1 La'). symmetry. now apply gmerge_last.
    + destruct (mg <=? S ac)%nat; apply Hn; try (simpl in *; lia); ready.
Qed.

Lemma merge_lo_gallop_eq next N z mg (a b : list A) :
  next_merges next N z ->
  (List.length a + List.length b <= S N)%nat -> lo_ready key z a b ->
  fst (merge_lo_gallop key next mg a b) = smerge a b.
Proof.
  intros Hn Hsize [Sa [Sb [La [Fb [Na Nb]]]]]. unfold merge_lo_gallop.
  destruct b as [|y b']; [simpl in Nb; lia|]. cbv zeta.
  destruct (gallop_right_spec key y a 0 Sa ltac:(lia)) as [_ [F1 F2]].
  set (k := gallop_right key y a 0) in *.
  pose proof (firstn_skipn k a) as Ea.
  pose proof (StronglySorted_skipn _ k a Sa) as Sa1.
  assert (skipn k a <> [] -> last (skipn k a) z = z) as La1.
  { intros H. now rewrite last_skipn. }
  assert (List.length a = List.length (firstn k a) + List.length (skipn k a))%nat
    as Elen by (now rewrite <- length_app, Ea).
  assert (k = 0%nat -> skipn k a = a) as Ek0 by (now intros ->).
  revert F1 F2 Ea Sa1 La1 Elen Ek0.
  generalize (firstn k a) (skipn k a). intros f a1 F1 F2 Ea Sa1 La1 Elen Ek0.
  rewrite <- Ea. rewrite (gmerge_prefix_l _ f a1 y b' F1).
  inversion Sb as [|? ? Sb' _]; subst. inversion Fb as [|? ? Fy Fb']; subst.
  simpl in Hsize.
  set (mg' := (mg - (if (1 <? mg)%nat then 1 else 0))%nat).
  assert ((2 <= List.length a1)%nat ->
          fst (app1 f
                 (cons1 y
                    match b', a1 with
                    | [], _ => (a1, mg')
                    | _, [] => (b', mg')
                    | _ :: _, x1 :: a1' =>
                        app1 (firstn (gallop_left key x1 b' 0) b')
                          match skipn (gallop_left key x1 b' 0) b' with
                          | [] => (a1, mg')
                          | _ :: _ =>
                              cons1 x1
                                (if (List.length a1' =? 1)%nat
                                 then (skipn (gallop_left key x1 b' 0) b' ++ a1', mg')
                                 else if (MIN_GALLOP <=? k)%nat
                                         || (MIN_GALLOP <=? gallop_left key x1 b' 0)%nat
                                 then next true mg' O O a1'
                                        (skipn (gallop_left key x1 b' 0) b')
                                 else next false (S mg') O O a1'
                                        (skipn (gallop_left key x1 b' 0) b'))
                          end
                    end))
          = f ++ smerge a1 (y :: b')) as Cont.
  { intros H2. red1. f_equal.
    destruct a1 as [|x1 a1']; [simpl in H2; lia|].
    inversion F2 as [|? ? Fx1 _]; subst.
    rewrite gmerge_cons, Fx1. f_equal.
    destruct b' as [|y' b'']; [now rewrite gmerge_nil_r|].
    destruct (gallop_left_spec key x1 (y' :: b'') 0 Sb' ltac:(simpl; lia)) as [_ [G1 G2]].
    set (k' := gallop_left key x1 (y' :: b'') 0) in *.
    pose proof (firstn_skipn k' (y' :: b'')) as Eb.
    revert G1 G2 Eb. generalize (firstn k' (y' :: b'')) (skipn k' (y' :: b'')).
    intros f' b1 G1 G2 Eb. rewrite <- Eb.
    rewrite (gmerge_prefix_r _ x1 a1' f' b1 G1). red1. f_equal.
    rewrite <- Eb in Sb', Fb'. apply StronglySorted_app_inv in Sb'.
    destruct Sb' as [_ [Sb1 _]]. apply Forall_app in Fb'. destruct Fb' as [_ Fb1].
    assert (List.length f' + List.length b1 = S (List.length b''))%nat as Elb.
    { rewrite <- length_app, Eb. reflexivity. }
    destruct b1 as [|y1 b1']; [now rewrite gmerge_nil_r|].
    inversion G2 as [|? ? Gy1 _]; subst.
    rewrite gmerge_cons, Gy1. red1. f_equal.
    inversion Sa1 as [|? ? Sa1' _]; subst.
    assert (last a1' z = z) as La1'.
    { destruct a1' as [|w a1'']; [simpl in H2; lia|]. apply La1. discriminate. }
    destruct (Nat.eqb_spec (List.length a1') 1) as [E1|N1].
    - red1. rewrite (last_single z a1' E1 La1'). symmetry. now apply gmerge_last.
    - destruct ((MIN_GALLOP <=? k)%nat || (MIN_GALLOP <=? k')%nat);
        apply Hn; try (simpl in *; lia); ready. }
  destruct (Nat.ltb_spec 0 k) as [Kpos|K0]; cbn [andb].
  - destruct (Nat.eqb_spec (List.length a1) 1) as [E1|N1].
    { red1. f_equal. rewrite (last_single z a1 E1); [|apply La1].
      - symmetry. apply gmerge_last. now constructor.
      - intros ->. discriminate. }
    destruct (Nat.eqb_spec (List.length a1) 0) as [E0|N0].
    { red1. f_equal. now apply length_zero_iff_nil in E0 as ->. }
    apply Cont. lia.
  - apply Cont. rewrite Ek0 by lia. exact Na.
Qed.

Lemma merge_lo_loop_eq z : forall fuel g mg ac bc (a b : list A),
  (List.length a + List.length b <= fuel)%nat -> lo_ready key z a b ->
  fst (merge_lo_loop key fuel g mg ac bc a b) = smerge a b.
Proof.
  induction fuel as [|fuel IH]; intros g mg ac bc a b Hsize R.
  - destruct R as [_ [_ [_ [_ [Na _]]]]]. lia.
  - cbn [merge_lo_loop]. destruct g.
    + now apply (merge_lo_gallop_eq _ fuel z).
    + now apply (merge_lo_straight_eq _ fuel z).
Qed.

(** [merge_lo] is the stable merge when every element of [a] is greater
    than the first one of [b] and the last one of [a] is greater than every
    element of [b], as [merge_at] makes sure. *)
Lemma merge_lo_eq z mg (a b : list A) :
  asc a -> asc b -> a <> [] -> b <> [] -> last a z = z ->
  Forall (fun y => (key y <? key z)%float = true) b ->
  Forall (fun x => (key (hd z b) <? key x)%float = true) a ->
  fst (merge_lo key mg a b) = smerge a b.
Proof.
  intros Sa Sb Ha Hb La Fb Fa. unfold merge_lo.
  destruct b as [|y b']; [contradiction|]. simpl hd in Fa.
  destruct a as [|x a']; [contradiction|].
  inversion Fa as [|? ? Fx _]; subst. rewrite gmerge_cons, Fx. red1. f_equal.
  inversion Sb as [|? ? Sb' _]; subst. inversion Fb as [|? ? _ Fb']; subst.
  destruct b' as [|y' b'']; [now rewrite gmerge_nil_r|].
  destruct (Nat.eqb_spec (List.length (x :: a')) 1) as [E1|N1].
  - red1. rewrite (last_single z (x :: a') E1 La). symmetry. now apply gmerge_last.
  - apply (merge_lo_loop_eq z); [lia|]. ready.
Qed.

End MergeLo.

Section MergeHi.

Context {A : Type} (key : A -> float).

Local Abbreviation desc := (StronglySorted (fun a b => (key b <=? key a)%float = true)).
Local Abbreviation rmerge := (gmerge (fun x y => negb (key y <? key x)%float)).

Local Abbreviation next_merges next N z :=
  (forall g mg ac bc (ra rb : list A),
     (List.length ra + List.length rb <= N)%nat -> hi_ready key z ra rb ->
     fst (next g mg ac bc ra rb) = rmerge ra rb).

Ltac red1 := cbn [fst snd cons1 app1].
Ltac ready := unfold hi_ready; repeat apply conj; auto; simpl in *; try lia.

Lemma negb_ltb_false (x y : float) : (y <? x)%float = true -> negb (y <? x)%float = false.
Proof. now intros ->. Qed.

Lemma negb_ltb_true (x y : float) : (y <? x)%float = false -> negb (y <? x)%float = true.
Proof. now intros ->. Qed.

Lemma Forall_negb_false (z : A) (l : list A) :
  Forall (fun x => (key z <? key x)%float = true) l ->
  Forall (fun e => negb (key z <? key e)%float = false) l.
Proof. apply Forall_impl. intros e. apply negb_ltb_false. Qed.

Lemma merge_hi_straight_eq next N z mg ac bc (ra rb : list A) :
  next_merges next N z ->
  (List.length ra + List.length rb <= S N)%nat -> hi_ready key z ra rb ->
  fst (merge_hi_straight key next mg ac bc ra rb) = rmerge ra rb.
Proof.
  intros Hn Hsize [Sa [Sb [Lb [Fa [Na Nb]]]]]. unfold merge_hi_straight.
  destruct ra as [|x ra']; [simpl in Na; lia|].
  destruct rb as [|y rb']; [simpl in Nb; lia|].
  rewrite gmerge_cons. simpl in Hsize, Nb.
  inversion Sa as [|? ? Sa' _]; subst. inversion Sb as [|? ? Sb' _]; subst.
  inversion Fa as [|? ? _ Fa']; subst.
  destruct (key y <? key x)%float; cbn [negb]; red1; f_equal.
  - destruct ra' as [|x' ra'']; [reflexivity|].
    destruct (mg <=? S ac)%nat; apply Hn; try (simpl in *; lia); ready.
  - assert (last rb' z = z) as Lb'.
    { destruct rb' as [|w rb'']; [simpl in Nb; lia | exact Lb]. }
    destruct (Nat.eqb_spec (List.length rb') 1) as [E1|N1].
    + red1. rewrite (last_single z rb' E1 Lb'). symmetry.
      apply gmerge_first. now apply Forall_negb_false.
    + destruct (mg <=? S bc)%nat; apply Hn; try (simpl in *; lia); ready.
Qed.

Lemma merge_hi_gallop_eq next N z mg (ra rb : list A) :
  next_merges next N z ->
  (List.length ra + List.length rb <= S N)%nat -> hi_ready key z ra rb ->
  fst (merge_hi_gallop key next mg ra rb) = rmerge ra rb.
Proof.
  intros Hn Hsize [Sa [Sb [Lb [Fa [Na Nb]]]]]. unfold merge_hi_gallop.
  destruct rb as [|y rb']; [simpl in Nb; lia|]. cbv zeta.
  assert (ra <> []) as Hra by (destruct ra; [simpl in Na; lia | discriminate]).
  destruct (gallop_right_rev key y ra Sa Hra) as [F1 F2].
  set (k := (List.length ra - gallop_right key y (rev ra) (List.length ra - 1))%nat) in *.
  pose proof (firstn_skipn k ra) as Ea.
  pose proof (StronglySorted_skipn _ k ra Sa) as Sa1.
  pose proof (Forall_skipn' _ k ra Fa) as Fa1.
  assert (List.length ra = List.length (firstn k ra) + List.length (skipn k ra))%nat
    as Elen by (now rewrite <- length_app, Ea).
  assert (k = 0%nat -> skipn k ra = ra) as Ek0 by (now intros ->).
  revert F1 F2 Ea Sa1 Fa1 Elen Ek0.
  generalize (firstn k ra) (skipn k ra). intros f ra1 F1 F2 Ea Sa1 Fa1 Elen Ek0.
  rewrite <- Ea.
  rewrite (gmerge_prefix_l _ f ra1 y rb'
             (Forall_impl _ (fun e => negb_ltb_false (key e) (key y)) F1)).
  inversion Sb as [|? ? Sb' _]; subst.
  simpl in Hsize, Nb.
  assert (last rb' z = z) as Lb'.
  { destruct rb' as [|w rb'']; [simpl in Nb; lia | exact Lb]. }
  set (mg' := (mg - (if (1 <? mg)%nat then 1 else 0))%nat).
  assert ((1 <= List.length ra1)%nat ->
          fst (app1 f
                 (cons1 y
                    (if (List.length rb' =? 1)%nat then (ra1 ++ rb', mg')
                     else
                       match ra1, rb' with
                       | [], _ => (rb', mg')
                       | _, [] => (ra1, mg')
                       | x1 :: ra1', _ :: _ =>
                           let nb := List.length rb' in
                           let k' := (nb - gallop_left key x1 (rev rb') (nb - 1))%nat in
                           let rb1 := skipn k' rb' in
                           if (0 <? k')%nat && (List.length rb1 =? 1)%nat
                           then (firstn k' rb' ++ ra1 ++ rb1, mg')
                           else if (0 <? k')%nat && (List.length rb1 =? 0)%nat
                           then (firstn k' rb' ++ ra1, mg')
                           else
                             app1 (firstn k' rb')
                               (cons1 x1
                                  match ra1' with
                                  | [] => (rb1, mg')
                                  | _ :: _ =>
                                      if (MIN_GALLOP <=? k)%nat || (MIN_GALLOP <=? k')%nat
                                      then next true mg' O O ra1' rb1
                                      else next false (S mg') O O ra1' rb1
                                  end)
                       end)))
          = f ++ rmerge ra1 (y :: rb')) as Cont.
  { intros H1. red1. f_equal.
    destruct ra1 as [|x1 ra1']; [simpl in H1; lia|].
    inversion F2 as [|? ? Fx1 _]; subst.
    rewrite gmerge_cons, Fx1. cbn [negb]. f_equal.
    destruct (Nat.eqb_spec (List.length rb') 1) as [E1|N1].
    { red1. rewrite (last_single z rb' E1 Lb'). symmetry.
      apply gmerge_first. now apply Forall_negb_false. }
    destruct rb' as [|y' rb'']; [simpl in Nb; lia|]. cbv zeta.
    destruct (gallop_left_rev key x1 (y' :: rb'') Sb' ltac:(discriminate)) as [G1 G2].
    set (k' := (List.length (y' :: rb'') -
                gallop_left key x1 (rev (y' :: rb'')) (List.length (y' :: rb'') - 1))%nat)
      in *.
    pose proof (firstn_skipn k' (y' :: rb'')) as Eb.
    pose proof (StronglySorted_skipn _ k' (y' :: rb'') Sb') as Sb1.
    assert (skipn k' (y' :: rb'') <> [] -> last (skipn k' (y' :: rb'')) z = z) as Lb1.
    { intros H. now rewrite last_skipn. }
    assert (k' = 0%nat -> skipn k' (y' :: rb'') = y' :: rb'') as Ek0' by (now intros ->).
    revert G1 G2 Eb Sb1 Lb1 Ek0'.
    generalize (firstn k' (y' :: rb'')) (skipn k' (y' :: rb'')).
    intros f' rb1 G1 G2 Eb Sb1 Lb1 Ek0'. rewrite <- Eb.
    rewrite (gmerge_prefix_r _ x1 ra1' f' rb1
               (Forall_impl _ (fun e => negb_ltb_true (key x1) (key e)) G1)).
    assert (List.length f' + List.length rb1 = S (List.length rb''))%nat as Elb.
    { rewrite <- length_app, Eb. reflexivity. }
    assert ((2 <= List.length rb1)%nat ->
            fst (app1 f'
                   (cons1 x1
                      match ra1' with
                      | [] => (rb1, mg')
                      | _ :: _ =>
                          if (MIN_GALLOP <=? k)%nat || (MIN_GALLOP <=? k')%nat
                          then next true mg' O O ra1' rb1
                          else next false (S mg') O O ra1' rb1
                      end))
            = f' ++ rmerge (x1 :: ra1') rb1) as Cont'.
    { intros H2. red1. f_equal.
      destruct rb1 as [|y1 rb1']; [simpl in H2; lia|].
      inversion G2 as [|? ? Gy1 _]; subst.
      rewrite gmerge_cons, Gy1. cbn [negb]. f_equal.
      inversion Sa1 as [|? ? Sa1' _]; subst.
      inversion Fa1 as [|? ? _ Fa1']; subst.
      destruct ra1' as [|x2 ra2]; [reflexivity|].
      destruct ((MIN_GALLOP <=? k)%nat || (MIN_GALLOP <=? k')%nat);
        apply Hn; try (simpl in *; lia); ready; apply Lb1; discriminate. }
    destruct (Nat.ltb_spec 0 k') as [Kpos|K0]; cbn [andb].
    - destruct (Nat.eqb_spec (List.length rb1) 1) as [E1|N1'].
      { red1. f_equal. rewrite (last_single z rb1 E1); [|apply Lb1].
        - symmetry. apply gmerge_first. now apply Forall_negb_false.
        - intros ->. discriminate. }
      destruct (Nat.eqb_spec (List.length rb1) 0) as [E0|N0].
      { red1. f_equal. apply length_zero_iff_nil in E0 as ->.
        now rewrite gmerge_nil_r. }
      apply Cont'. lia.
    - apply Cont'. rewrite Ek0' by lia. simpl in *. lia. }
  destruct (Nat.ltb_spec 0 k) as [Kpos|K0]; cbn [andb].
  - destruct (Nat.eqb_spec (List.length ra1) 0) as [E0|N0].
    { red1. f_equal. now apply length_zero_iff_nil in E0 as ->. }
    apply Cont. lia.
  - apply Cont. rewrite Ek0 by lia. exact Na.
Qed.

Lemma merge_hi_loop_eq z : forall fuel g mg ac bc (ra rb : list A),
  (List.length ra + List.length rb <= fuel)%nat -> hi_ready key z ra rb ->
  fst (merge_hi_loop key fuel g mg ac bc ra rb) = rmerge ra rb.
Proof.
  induction fuel as [|fuel IH]; intros g mg ac bc ra rb Hsize R.
  - destruct R as [_ [_ [_ [_ [_ Nb]]]]]. lia.
  - cbn [merge_hi_loop]. destruct g.
    + now apply (merge_hi_gallop_eq _ fuel z).
    + now apply (merge_hi_straight_eq _ fuel z).
Qed.

(** What [merge_hi] returns is the reverse of the stable merge of the
    reversed runs. *)
Lemma merge_hi_eq z mg (a b : list A) :
  desc (rev a) -> desc (rev b) -> a <> [] -> b <> [] -> last (rev b) z = z ->
  Forall (fun x => (key z <? key x)%float = true) a ->
  Forall (fun y => (key y <? key (hd z (rev a)))%float = true) b ->
  fst (merge_hi key mg a b) = rev (rmerge (rev a) (rev b)).
Proof.
  intros Sa Sb Ha Hb Lb Fa Fb. unfold merge_hi. cbv zeta. cbn [fst]. f_equal.
  assert (rev a <> []) as Hra.
  { intros E. apply Ha. now rewrite <- (rev_involutive a), E. }
  assert (rev b <> []) as Hrb.
  { intros E. apply Hb. now rewrite <- (rev_involutive b), E. }
  assert (Forall (fun x => (key z <? key x)%float = true) (rev a)) as Fra.
  { apply Forall_forall. intros e He. apply in_rev in He.
    rewrite Forall_forall in Fa. now apply Fa. }
  assert (Forall (fun y => (key y <? key (hd z (rev a)))%float = true) (rev b)) as Frb.
  { apply Forall_forall. intros e He. apply in_rev in He.
    rewrite Forall_forall in Fb. now apply Fb. }
  revert Sa Sb Hra Hrb Lb Fra Frb. generalize (rev a) (rev b).
  intros ra rb Sa Sb Hra Hrb Lb Fra Frb.
  destruct ra as [|x ra']; [contradiction|]. simpl hd in Frb.
  destruct rb as [|y rb']; [contradiction|].
  inversion Frb as [|? ? Fy _]; subst. rewrite gmerge_cons, Fy. cbn [negb]. red1.
  f_equal.
  inversion Sa as [|? ? Sa' _]; subst. inversion Fra as [|? ? _ Fra']; subst.
  destruct ra' as [|x' ra'']; [reflexivity|].
  destruct (Nat.eqb_spec (List.length (y :: rb')) 1) as [E1|N1].
  - red1. rewrite (last_single z (y :: rb') E1 Lb). symmetry.
    apply gmerge_first. now apply Forall_negb_false.
  - apply (merge_hi_loop_eq z); [lia|]. ready.
Qed.

End MergeHi.

Section MergeAt.

Context {A : Type} (key : A -> float).

Local Abbreviation asc := (StronglySorted (fun a b => (key a <=? key b)%float = true)).
Local Abbreviation desc := (StronglySorted (fun a b => (key b <=? key a)%float = true)).
Local Abbreviation nn := (Forall (fun e => not_nan (key e))).
Local Abbreviation smerge := (gmerge (fun x y => (key y <? key x)%float)).
Local Abbreviation rmerge := (gmerge (fun x y => negb (key y <? key x)%float)).

Lemma smerge_sorted (a b : list A) :
  nn a -> nn b -> asc a -> asc b -> asc (smerge a b).
Proof.
  apply (gmerge_sorted _ (fun a b => (key a <=? key b)%float = true)
           (fun e => not_nan (key e))).
  - intros x y z. apply leb_trans.
  - intros x y _ _. apply ltb_leb.
  - intros x y Nx Ny H. now apply leb_total.
Qed.

Lemma rmerge_sorted (ra rb : list A) :
  nn ra -> nn rb -> desc ra -> desc rb -> desc (rmerge ra rb).
Proof.
  apply (gmerge_sorted _ (fun a b => (key b <=? key a)%float = true)
           (fun e => not_nan (key e))).
  - intros x y z H1 H2. exact (leb_trans _ _ _ H2 H1).
  - intros x y Nx Ny H. apply negb_true_iff in H. now apply leb_total.
  - intros x y _ _ H. apply negb_false_iff in H. now apply ltb_leb.
Qed.

Lemma nn_rev (l : list A) : nn l -> nn (rev l).
Proof. apply Permutation_Forall, Permutation_rev. Qed.

Lemma asc_rev_desc (l : list A) : asc l -> desc (rev l).
Proof. apply (StronglySorted_rev (fun a b => (key a <=? key b)%float = true)). Qed.

Lemma desc_rev_asc (l : list A) : desc l -> asc (rev l).
Proof. apply (StronglySorted_rev (fun a b => (key b <=? key a)%float = true)). Qed.

Lemma last_rev_cons (y d : A) (l : list A) : last (rev (y :: l)) d = y.
Proof. simpl. apply last_last. Qed.

(** [merge_at] returns a sorted run. *)
Lemma merge_at_sorted mg (a b : list A) :
  nn a -> nn b -> asc a -> asc b -> asc (fst (merge_at key mg a b)).
Proof.
  intros Na Nb Sa Sb. unfold merge_at.
  destruct b as [|y b']; [exact Sa|]. cbv zeta.
  destruct a as [|x0 a0] eqn:Ea0; [rewrite skipn_nil; exact Sb|]. rewrite <- Ea0 in *.
  assert (0 < List.length a)%nat as Hla by (rewrite Ea0; simpl; lia).
  clear Ea0 x0 a0.
  destruct (gallop_right_spec key y a 0 Sa Hla) as [_ [F1 F2]].
  set (k := gallop_right key y a 0) in *.
  pose proof (firstn_skipn k a) as Ea.
  revert F1 F2 Ea. generalize (firstn k a) (skipn k a). intros f a1 F1 F2 Ea.
  subst a. clear Hla.
  apply StronglySorted_app_inv in Sa. destruct Sa as [Sf [Sa1 Cfa]].
  apply Forall_app in Na. destruct Na as [Nf Na1].
  inversion Nb as [|? ? Ny Nb']; subst.
  assert (forall e, In e f -> (key e <=? key y)%float = true) as Cfy.
  { intros e He. rewrite Forall_forall in F1, Nf. apply leb_total; auto. }
  assert (forall e, In e (y :: b') -> (key y <=? key e)%float = true) as Cyb.
  { intros e [<-|He]; [now apply leb_refl|].
    inversion Sb as [|? ? _ Fy]; subst. rewrite Forall_forall in Fy. auto. }
  destruct (rev a1) as [|z ra] eqn:Era.
  { (* every element of [a] belongs before [b] *)
    assert (a1 = []) as -> by (now rewrite <- (rev_involutive a1), Era).
    cbn [fst]. rewrite app_nil_r in *. apply StronglySorted_app; auto.
    intros e e' He He'. apply leb_trans with (key y); auto. }
  assert (a1 = rev ra ++ [z]) as Ea1.
  { now rewrite <- (rev_involutive a1), Era. }
  assert (last a1 z = z) as La1 by (rewrite Ea1; apply last_last).
  assert (forall e, In e a1 -> (key e <=? key z)%float = true) as Caz.
  { intros e He. rewrite Ea1 in He, Sa1, Na1. apply in_app_or in He.
    destruct He as [He|[<-|[]]].
    - apply StronglySorted_app_inv in Sa1. destruct Sa1 as [_ [_ C]].
      apply C; [exact He | now left].
    - apply Forall_app in Na1. destruct Na1 as [_ Nz].
      inversion Nz; subst. now apply leb_refl. }
  assert (not_nan (key z)) as Nz.
  { rewrite Ea1 in Na1. apply Forall_app in Na1. destruct Na1 as [_ Nz].
    now inversion Nz. }
  destruct (gallop_left_spec key z (y :: b') (List.length (y :: b') - 1) Sb
              ltac:(simpl; lia)) as [_ [G1 G2]].
  set (nb := gallop_left key z (y :: b') (List.length (y :: b') - 1)) in *.
  destruct (Nat.eqb_spec nb 0) as [E0|N0].
  { (* every element of [b] belongs after [a] *)
    cbn [fst]. rewrite E0 in G2. simpl skipn in G2.
    apply StronglySorted_app; [|exact Sb|].
    - apply StronglySorted_app; auto.
    - intros e e' He He'. apply leb_trans with (key z).
      + apply in_app_or in He. destruct He as [He|He]; [|now apply Caz].
        rewrite Ea1 in Cfa. apply Cfa; [exact He|]. apply in_or_app. right. now left.
      + rewrite Forall_forall in G2, Nb. apply leb_total; auto. }
  pose proof (firstn_skipn nb (y :: b')) as Eb.
  assert (hd z (firstn nb (y :: b')) = y) as Hhd.
  { destruct nb; [contradiction | reflexivity]. }
  assert (firstn nb (y :: b') <> []) as Hb1.
  { destruct nb; [contradiction | discriminate]. }
  revert G1 G2 Eb Hhd Hb1. generalize (firstn nb (y :: b')) (skipn nb (y :: b')).
  intros b1 post G1 G2 Eb Hhd Hb1.
  rewrite <- Eb in Sb, Nb, Cyb. clear Eb N0 nb.
  apply StronglySorted_app_inv in Sb. destruct Sb as [Sb1 [Spost Cbp]].
  apply Forall_app in Nb. destruct Nb as [Nb1 Npost].
  assert (a1 <> []) as Ha1 by (rewrite Ea1; now destruct (rev ra)).
  set (m := fst (if (List.length a1 <=? List.length b1)%nat
                 then merge_lo key mg a1 b1 else merge_hi key mg a1 b1)).
  assert (Permutation m (a1 ++ b1)) as Pm.
  { unfold m. destruct (_ <=? _)%nat; [apply merge_lo_perm | apply merge_hi_perm]. }
  assert (asc m) as Sm.
  { unfold m. destruct (_ <=? _)%nat.
    - rewrite (merge_lo_eq key z); auto.
      + now apply smerge_sorted.
      + now rewrite Hhd.
    - rewrite (merge_hi_eq key y); auto.
      + apply desc_rev_asc, rmerge_sorted; auto using nn_rev, asc_rev_desc.
      + now apply asc_rev_desc.
      + now apply asc_rev_desc.
      + destruct b1 as [|y1 b1']; [contradiction|]. simpl in Hhd. subst y1.
        apply last_rev_cons.
      + now rewrite Era. }
  cbn [fst]. fold m.
  apply StronglySorted_app; [exact Sf| |].
  - apply StronglySorted_app; [exact Sm | exact Spost|].
    intros e e' He He'. apply (Permutation_in _ Pm) in He.
    apply in_app_or in He. destruct He as [He|He].
    + apply leb_trans with (key z); [now apply Caz|].
      rewrite Forall_forall in G2, Npost. apply leb_total; auto.
    + now apply Cbp.
  - intros e e' He He'. apply in_app_or in He'. destruct He' as [He'|He'].
    + apply (Permutation_in _ Pm) in He'. apply in_app_or in He'.
      destruct He' as [He'|He']; [now apply Cfa|].
      apply leb_trans with (key y); [now apply Cfy|].
      apply Cyb, in_or_app. now left.
    + apply leb_trans with (key y); [now apply Cfy|].
      apply Cyb, in_or_app. now right.
Qed.

End MergeAt.

Section Driver.

Context {A : Type} (key : A -> float).

Local Abbreviation asc := (StronglySorted (fun a b => (key a <=? key b)%float = true)).
Local Abbreviation nn := (Forall (fun e => not_nan (key e))).

Lemma flat_cons (r : list A) (p : nat) pending :
  flat ((r, p) :: pending) = flat pending ++ r.
Proof. unfold flat. simpl. now rewrite concat_app, (app_nil_r r : List.concat [r] = r). Qed.

Lemma merge_at_nn mg (a b : list A) : nn a -> nn b -> nn (fst (merge_at key mg a b)).
Proof.
  intros Na Nb.
  apply (Permutation_Forall (Permutation_sym (merge_at_perm key mg a b))).
  apply Forall_app. now split.
Qed.

Lemma found_new_run_loop_perm : forall fuel power top below mg,
  Permutation
    (flat (snd (fst (found_new_run_loop key fuel power top below mg))) ++
     fst (fst (found_new_run_loop key fuel power top below mg)))
    (flat below ++ top).
Proof.
  induction fuel as [|fuel IH]; intros power top below mg; [reflexivity|].
  cbn [found_new_run_loop]. destruct below as [|[run p] below']; [reflexivity|].
  destruct (power <? p)%nat; [|reflexivity].
  rewrite IH, flat_cons, merge_at_perm. now rewrite app_assoc.
Qed.

Lemma found_new_run_loop_sorted : forall fuel power top below mg,
  runs_sorted key below -> nn top -> asc top ->
  runs_sorted key (snd (fst (found_new_run_loop key fuel power top below mg))) /\
  nn (fst (fst (found_new_run_loop key fuel power top below mg))) /\
  asc (fst (fst (found_new_run_loop key fuel power top below mg))).
Proof.
  induction fuel as [|fuel IH]; intros power top below mg Hb Nt St; [now repeat split|].
  cbn [found_new_run_loop]. destruct below as [|[run p] below']; [now repeat split|].
  destruct (power <? p)%nat; [|now repeat split].
  inversion Hb as [|? ? [Nr Sr] Hb']; subst. simpl in Nr, Sr.
  apply IH; [exact Hb' | now apply merge_at_nn | now apply merge_at_sorted].
Qed.

Lemma found_new_run_perm pending mg s n2 n :
  Permutation (flat (fst (found_new_run key pending mg s n2 n))) (flat pending).
Proof.
  unfold found_new_run. destruct pending as [|[top p] below]; [reflexivity|].
  cbv zeta.
  pose proof (found_new_run_loop_perm (List.length below)
                (powerloop (s - List.length top) (List.length top) n2 n)
                top below mg) as P.
  destruct (found_new_run_loop key _ _ top below mg) as [[t b] m].
  cbn [fst snd] in *. now rewrite !flat_cons.
Qed.

Lemma found_new_run_sorted pending mg s n2 n :
  runs_sorted key pending ->
  runs_sorted key (fst (found_new_run key pending mg s n2 n)).
Proof.
  intros H. unfold found_new_run. destruct pending as [|[top p] below]; [constructor|].
  cbv zeta. inversion H as [|? ? [Nt St] Hb]; subst. simpl in Nt, St.
  pose proof (found_new_run_loop_sorted (List.length below)
                (powerloop (s - List.length top) (List.length top) n2 n)
                top below mg Hb Nt St) as P.
  destruct (found_new_run_loop key _ _ top below mg) as [[t b] m].
  cbn [fst snd] in *. destruct P as [P1 [P2 P3]]. now constructor.
Qed.

Lemma merge_force_collapse_perm : forall fuel pending mg,
  Permutation (flat (fst (merge_force_collapse key fuel pending mg))) (flat pending).
Proof.
  induction fuel as [|fuel IH]; intros pending mg; [reflexivity|].
  cbn [merge_force_collapse].
  destruct pending as [|[r0 p0] [|[r1 p1] [|[r2 p2] below]]]; try reflexivity.
  - rewrite IH, !flat_cons, merge_at_perm. now rewrite app_assoc.
  - destruct (List.length r2 <? List.length r0)%nat; rewrite IH, !flat_cons, merge_at_perm;
      now rewrite <- !app_assoc.
Qed.

Lemma merge_force_collapse_sorted : forall fuel pending mg,
  runs_sorted key pending ->
  runs_sorted key (fst (merge_force_collapse key fuel pending mg)).
Proof.
  induction fuel as [|fuel IH]; intros pending mg H; [exact H|].
  cbn [merge_force_collapse].
  destruct pending as [|[r0 p0] [|[r1 p1] [|[r2 p2] below]]]; try exact H.
  - inversion H as [|? ? [N0 S0] H']; subst. inversion H' as [|? ? [N1 S1] _]; subst.
    simpl in *. apply IH. constructor; [|constructor]. simpl.
    split; [now apply merge_at_nn | now apply merge_at_sorted].
  - inversion H as [|? ? [N0 S0] H']; subst. inversion H' as [|? ? [N1 S1] H'']; subst.
    inversion H'' as [|? ? [N2 S2] H3]; subst. simpl in *.
    destruct (List.length r2 <? List.length r0)%nat; apply IH.
    + constructor; [now split|]. constructor; [|exact H3]. simpl.
      split; [now apply merge_at_nn | now apply merge_at_sorted].
    + constructor; [|exact H'']. simpl.
      split; [now apply merge_at_nn | now apply merge_at_sorted].
Qed.

Lemma merge_force_collapse_length : forall fuel pending mg,
  (List.length pending <= S fuel)%nat ->
  (List.length (fst (merge_force_collapse key fuel pending mg)) <= 1)%nat.
Proof.
  induction fuel as [|fuel IH]; intros pending mg H; [exact H|].
  cbn [merge_force_collapse].
  destruct pending as [|[r0 p0] [|[r1 p1] [|[r2 p2] below]]]; simpl; try lia.
  - apply IH. simpl. lia.
  - destruct (List.length r2 <? List.length r0)%nat; apply IH; simpl in *; lia.
Qed.

Lemma count_run_bounds (l : list A) :
  l <> [] -> (1 <= fst (count_run key l) <= List.length l)%nat.
Proof.
  assert (forall l x, (ascending_run key x l <= List.length l)%nat) as Ha.
  { induction l0 as [|y l0 IH]; intros x; simpl; [lia|].
    destruct (key y <? key x)%float; [lia|]. specialize (IH y). lia. }
  assert (forall l x, (descending_run key x l <= List.length l)%nat) as Hd.
  { induction l0 as [|y l0 IH]; intros x; simpl; [lia|].
    destruct (key y <? key x)%float; [|lia]. specialize (IH y). lia. }
  intros Hne. destruct l as [|x [|y l]]; [contradiction | simpl; lia|].
  unfold count_run. destruct (key y <? key x)%float; simpl.
  - specialize (Hd l y). lia.
  - specialize (Ha l y). lia.
Qed.

Lemma firstn_firstn_skipn (l : list A) c f :
  (c <= f)%nat -> firstn c l ++ firstn (f - c) (skipn c l) = firstn f l.
Proof.
  intros H. replace f with (c + (f - c))%nat at 2 by lia.
  now rewrite firstn_add.
Qed.

(** One run of the march: the run found at the head of [rest], extended to
    [force] elements. *)
Lemma next_run_perm (rest : list A) minrun :
  rest <> [] ->
  let cnt := fst (count_run key rest) in
  let descending := snd (count_run key rest) in
  let force := if (cnt <? minrun)%nat then Nat.min minrun (List.length rest) else cnt in
  (1 <= force <= List.length rest)%nat /\
  Permutation
    (binarysort key (if descending then rev (firstn cnt rest) else firstn cnt rest)
       (firstn (force - cnt) (skipn cnt rest)))
    (firstn force rest).
Proof.
  intros Hne cnt descending force.
  pose proof (count_run_bounds rest Hne) as B. fold cnt in B.
  assert (cnt <= force <= List.length rest)%nat as Bf.
  { unfold force. destruct (Nat.ltb_spec cnt minrun); lia. }
  split; [lia|].
  rewrite binarysort_perm, <- (firstn_firstn_skipn rest cnt force) by lia.
  apply Permutation_app_tail. destruct descending; [|reflexivity].
  symmetry. apply Permutation_rev.
Qed.

Lemma next_run_sorted (rest : list A) minrun :
  nn rest ->
  let cnt := fst (count_run key rest) in
  let descending := snd (count_run key rest) in
  let force := if (cnt <? minrun)%nat then Nat.min minrun (List.length rest) else cnt in
  asc (binarysort key (if descending then rev (firstn cnt rest) else firstn cnt rest)
         (firstn (force - cnt) (skipn cnt rest))).
Proof.
  intros N cnt descending force.
  pose proof (count_run_ascending key rest N) as R.
  unfold cnt, descending in *. destruct (count_run key rest) as [c d]. simpl in *.
  apply binarysort_ascending; [| |exact R].
  - destruct d; [apply (Permutation_Forall (Permutation_rev _))|];
      now apply Forall_firstn'.
  - now apply Forall_firstn', Forall_skipn'.
Qed.

Lemma runs_loop_perm n minrun : forall fuel pending mg s rest,
  (List.length rest <= fuel)%nat ->
  Permutation (flat (fst (runs_loop key fuel n minrun pending mg s rest)))
    (flat pending ++ rest).
Proof.
  induction fuel as [|fuel IH]; intros pending mg s rest Hf.
  - destruct rest; [|simpl in Hf; lia]. simpl. now rewrite app_nil_r.
  - cbn [runs_loop]. destruct rest as [|x rest'] eqn:Er; [now rewrite app_nil_r|].
    rewrite <- Er in *.
    destruct (next_run_perm rest minrun ltac:(rewrite Er; discriminate)) as [B P].
    destruct (count_run key rest) as [cnt d]. cbn [fst snd] in B, P. cbv zeta.
    set (force := if (cnt <? minrun)%nat
                  then Nat.min minrun (List.length rest) else cnt) in *.
    pose proof (found_new_run_perm pending mg s force n) as Q.
    destruct (found_new_run key pending mg s force n) as [pending' mg'].
    cbn [fst] in Q.
    rewrite IH by (rewrite length_skipn; lia).
    rewrite flat_cons, P, Q, <- app_assoc. now rewrite firstn_skipn.
Qed.

Lemma runs_loop_sorted n minrun : forall fuel pending mg s rest,
  runs_sorted key pending -> nn rest ->
  runs_sorted key (fst (runs_loop key fuel n minrun pending mg s rest)).
Proof.
  induction fuel as [|fuel IH]; intros pending mg s rest Hp Nr; [exact Hp|].
  cbn [runs_loop]. destruct rest as [|x rest'] eqn:Er; [exact Hp|].
  rewrite <- Er in *.
  destruct (next_run_perm rest minrun ltac:(rewrite Er; discriminate)) as [B P].
  pose proof (next_run_sorted rest minrun Nr) as S.
  destruct (count_run key rest) as [cnt d]. cbn [fst snd] in B, P, S. cbv zeta.
  set (force := if (cnt <? minrun)%nat
                then Nat.min minrun (List.length rest) else cnt) in *.
  pose proof (found_new_run_sorted pending mg s force n Hp) as Q.
  destruct (found_new_run key pending mg s force n) as [pending' mg'].
  cbn [fst] in Q.
  apply IH; [|now apply Forall_skipn'].
  constructor; [|exact Q]. simpl. split; [|exact S].
  apply (Permutation_Forall (Permutation_sym P)). now apply Forall_firstn'.
Qed.

Lemma flat_single (pending : list (list A * nat)) :
  (List.length pending <= 1)%nat -> runs_sorted key pending -> asc (flat pending).
Proof.
  destruct pending as [|[r p] [|? ?]]; simpl; intros H S; try lia.
  - constructor.
  - rewrite flat_cons. inversion S as [|? ? [_ Sr] _]; subst. exact Sr.
Qed.

(** [timsort] returns the elements of the list. *)
Theorem timsort_perm (l : list A) : Permutation (timsort key l) l.
Proof.
  unfold timsort. destruct (List.length l <? 2)%nat; [reflexivity|].
  pose proof (runs_loop_perm (List.length l) (merge_compute_minrun (List.length l))
                (List.length l) [] MIN_GALLOP 0 l (le_n _)) as P.
  destruct (runs_loop key _ _ _ [] MIN_GALLOP 0 l) as [pending mg]. cbn [fst] in P.
  pose proof (merge_force_collapse_perm (List.length pending) pending mg) as Q.
  destruct (merge_force_collapse key _ pending mg) as [pending' mg']. cbn [fst] in Q.
  fold (flat pending'). now rewrite Q, P.
Qed.

(** On keys that are numbers, [timsort] returns them in ascending order. *)
Theorem timsort_sorted (l : list A) : nn l -> asc (timsort key l).
Proof.
  intros N. unfold timsort. destruct (Nat.ltb_spec (List.length l) 2) as [Lt|Ge].
  - destruct l as [|x [|y l]]; simpl in Lt; try lia; repeat constructor.
  - pose proof (runs_loop_sorted (List.length l) (merge_compute_minrun (List.length l))
                  (List.length l) [] MIN_GALLOP 0 l ltac:(constructor) N) as P.
    destruct (runs_loop key _ _ _ [] MIN_GALLOP 0 l) as [pending mg]. cbn [fst] in P.
    pose proof (merge_force_collapse_sorted (List.length pending) pending mg P) as Q.
    pose proof (merge_force_collapse_length (List.length pending) pending mg
                  ltac:(lia)) as L.
    destruct (merge_force_collapse key _ pending mg) as [pending' mg']. cbn [fst] in *.
    now apply flat_single.
Qed.

(** A list that is in ascending order already is returned as it is. *)
Theorem timsort_id (l : list A) : asc l -> timsort key l = l.
Proof.
  intros Hs. unfold timsort. destruct (Nat.ltb_spec (List.length l) 2) as [Lt|Ge];
    [reflexivity|].
  destruct l as [|x [|y l]]; simpl in Ge; try lia.
  assert (count_run key (x :: y :: l) = (List.length (x :: y :: l), false)) as Ec.
  { unfold count_run.
    inversion Hs as [|? ? S' F]; subst. inversion F as [|? ? Hy _]; subst.
    now rewrite (leb_not_ltb _ _ Hy), (ascending_run_all key l y S'). }
  set (n := List.length (x :: y :: l)) in *.
  assert (n = S (S (List.length l))) as En by reflexivity.
  rewrite En at 1. cbn [runs_loop]. rewrite Ec.
  set (minrun := merge_compute_minrun n).
  assert ((if (n <? minrun)%nat then Nat.min minrun (List.length (x :: y :: l)) else n) = n)
    as ->.
  { fold n. destruct (Nat.ltb_spec n minrun); lia. }
  rewrite Nat.sub_diag. unfold n at 3 4. rewrite firstn_all, skipn_all.
  cbn [firstn binarysort fold_left found_new_run runs_loop].
  cbn [List.length merge_force_collapse map rev app List.concat fst].
  now rewrite app_nil_r.
Qed.

End Driver.

Section SortDescFacts.

Context {A : Type} (key : A -> float).

Lemma sort_desc_perm l : Permutation (sort_desc key l) l.
Proof.
  unfold sort_desc. rewrite <- Permutation_rev, timsort_perm.
  symmetry. apply Permutation_rev.
Qed.

Lemma sort_desc_descending l :
  Forall (fun y => not_nan (key y)) l -> descending key (sort_desc key l).
Proof.
  intros N. unfold sort_desc, descending.
  apply (StronglySorted_rev (fun a b => (key a <=? key b) = true)).
  apply timsort_sorted.
  exact (Permutation_Forall (Permutation_rev _) N).
Qed.

End SortDescFacts.

(** With a key that is NaN the order is the one the comparisons of the sort
    leave, not an order of the keys: here the binary search sends NaN to
    the end of the run 73, 85 found in the reversed list, and the last
    reversal brings it to the front. *)
Lemma sort_desc_with_nan :
  map fst (sort_desc snd [(1%Z, 70); (2%Z, nan); (3%Z, 73); (4%Z, 85)])
  = [2%Z; 4%Z; 3%Z; 1%Z].
Proof. vm_compute. reflexivity. Qed.

(** ** get_recommendations *)

Section RecommendationProofs.

Variable lower : string -> string.
Variable strip : string -> string.
Variable repr_float : float -> string.
Variable json_loads : string -> option json.
Variable World : Type.
Variable API_KEY : option string.
Variable generate_content : World -> string -> option string * World.
Variable supabase : bool.
Variable select_hotels : World -> option (list Hotel) * World.
Variable validate_response : Ranked -> option RecommendationResponse.

Local Abbreviation carries :=
  (carries_score_and_reasoning strip repr_float World API_KEY generate_content).
Local Abbreviation loop :=
  (recommendations_loop strip repr_float World API_KEY generate_content).

(** The fallback loop appends one entry per hotel, in the order of the
    hotels. *)
Lemma recommendations_loop_spec filtered : forall w user_pref recommendations,
  exists entries,
    fst (loop w filtered user_pref recommendations) = recommendations ++ entries /\
    map hotel entries = filtered /\
    Forall (carries user_pref) entries.
Proof.
  induction filtered as [|h rest IH]; intros w user_pref acc; simpl.
  - exists []. now rewrite app_nil_r.
  - destruct (generate_recommendation_reason strip repr_float World API_KEY
                generate_content w h user_pref
                (calculate_recommendation_score h user_pref))
      as [reason w'] eqn:G.
    destruct (IH w' user_pref
                (acc ++ [{| hotel := h;
                            score := calculate_recommendation_score h user_pref;
                            reasoning := reason |}]))
      as [entries [E [M F]]].
    eexists (_ :: entries). rewrite E, <- app_assoc. simpl.
    split; [reflexivity|]. split; [now rewrite M|].
    constructor; [|exact F]. split; [reflexivity|].
    exists w. simpl. now rewrite G.
Qed.

(** C9, as the code has it.  When there is no trip description, or the
    reranker returns nothing, the recommendations are one entry per filtered
    hotel, each with the computed score of its hotel and the reasoning
    generated for it; when no filtered hotel has a rating that is NaN, the
    entries are in descending order of score. *)
Theorem recommendations_fallback w user_pref :
  let all_hotels := get_all_hotels World supabase select_hotels w in
  let filtered :=
    filter_hotels lower (fst all_hotels) user_pref.(pref_location)
      user_pref.(min_price) user_pref.(max_price)
      user_pref.(required_amenities) in
  truthy user_pref.(trip_description) = false \/
  fst (rerank_hotels strip repr_float json_loads World API_KEY generate_content
         (snd all_hotels) (top_candidates filtered user_pref) user_pref) = [] ->
  exists result,
    fst (get_recommendations lower strip repr_float json_loads World API_KEY
           generate_content supabase select_hotels validate_response w user_pref)
    = Some result /\
    Permutation (map hotel result) filtered /\
    List.length result = List.length filtered /\
    Forall (carries user_pref) result /\
    ((forall h, In h filtered -> is_nan h.(rating) = false) ->
     descending score result).
Proof.
  intros all_hotels filtered Hpath.
  assert (forall w', exists result,
            fst (let (recommendations, w'') := loop w' filtered user_pref [] in
                 (Some (sort_desc score recommendations), w''))
            = Some result /\
            Permutation (map hotel result) filtered /\
            List.length result = List.length filtered /\
            Forall (carries user_pref) result /\
            ((forall h, In h filtered -> is_nan h.(rating) = false) ->
             descending score result)) as Fallback.
  { intros w'.
    destruct (recommendations_loop_spec filtered w' user_pref [])
      as [entries [E [M F]]].
    destruct (loop w' filtered user_pref []) as [recommendations w''].
    simpl in E. subst recommendations.
    exists (sort_desc score entries). simpl.
    pose proof (sort_desc_perm score entries) as P.
    split; [reflexivity|]. split; [|split; [|split]].
    - rewrite <- M. now apply Permutation_map.
    - rewrite (Permutation_length P), <- M. symmetry. apply length_map.
    - exact (Permutation_Forall (Permutation_sym P) F).
    - intros Hnum. apply sort_desc_descending.
      rewrite Forall_forall in F |- *. intros r Hr.
      destruct (F r Hr) as [-> _]. apply score_not_nan, Hnum.
      rewrite <- M. now apply in_map. }
  unfold get_recommendations. fold all_hotels.
  destruct all_hotels as [hotels w1] eqn:EA. simpl in filtered, Hpath.
  fold filtered.
  destruct (truthy user_pref.(trip_description)).
  - destruct Hpath as [Hd | Hr]; [discriminate|].
    destruct (rerank_hotels _ _ _ _ _ _ w1 _ _) as [reranked w2].
    simpl in Hr. subst reranked. apply Fallback.
  - apply Fallback.
Qed.

End RecommendationProofs.

Lemma recommendations_fallback_witness :
  exists result,
    fst (get_recommendations ascii_lower ascii_strip repr_tenths sample_loads unit
           None (constant_remote None) true sample_select (fun _ => None) tt
           (sample_pref None))
    = Some result /\
    Permutation (map hotel result)
      (filter_hotels ascii_lower three_hotels (Some "New York") 0 200 []) /\
    List.length result =
      List.length (filter_hotels ascii_lower three_hotels (Some "New York") 0 200 []) /\
    Forall (carries_score_and_reasoning ascii_strip repr_tenths unit None
              (constant_remote None) (sample_pref None)) result /\
    ((forall h,
        In h (filter_hotels ascii_lower three_hotels (Some "New York") 0 200 []) ->
        is_nan h.(rating) = false) ->
     descending score result).
Proof.
  apply (recommendations_fallback ascii_lower ascii_strip repr_tenths sample_loads
           unit None (constant_remote None) true sample_select (fun _ => None) tt
           (sample_pref None)).
  left. reflexivity.
Defined.

(** With a rating that is not a number, every comparison [list.sort] makes
    has the score NaN on one side and fails, so the entries stay as they
    were: the hotel of score 85 comes last, after the one of score 70. *)
Lemma recommendations_fallback_unsorted :
  exists result,
    fst (get_recommendations ascii_lower ascii_strip repr_tenths sample_loads unit
           None (constant_remote None) true unrated_select (fun _ => None) tt
           (sample_pref None))
    = Some result /\
    map (fun r => (r.(hotel).(id), r.(score))) result
    = [(1%Z, 70); (2%Z, nan); (3%Z, 85)] /\
    ~ descending score result.
Proof.
  eexists. split; [vm_compute; reflexivity|]. split; [reflexivity|].
  intros D. inversion D as [|? ? _ F]; subst.
  inversion F as [|? ? _ F']; subst. inversion F' as [|? ? H _]; subst.
  vm_compute in H. discriminate.
Qed.

(** * Further properties *)

(** ** filter_hotels: how filters compose *)

Lemma filter_absorb {A : Type} (f g : A -> bool) (l : list A) :
  (forall x, f x = true -> g x = true) -> filter f (filter g l) = filter f l.
Proof.
  intros H. induction l as [|x l IH]; simpl; [reflexivity|].
  destruct (g x) eqn:G; simpl.
  - now rewrite IH.
  - destruct (f x) eqn:F; [|exact IH]. apply H in F. congruence.
Qed.

Lemma filter_swap {A : Type} (f g : A -> bool) (l : list A) :
  filter f (filter g l) = filter g (filter f l).
Proof.
  induction l as [|x l IH]; simpl; [reflexivity|].
  destruct (g x) eqn:G, (f x) eqn:F; simpl; rewrite ?G, ?F, IH; reflexivity.
Qed.

Lemma not_nan_is_nan x : not_nan x -> is_nan x = false.
Proof.
  unfold not_nan, Prim2SF. destruct (is_nan x); [discriminate | reflexivity].
Qed.

Section FilterComposition.

Variable lower : string -> string.

(** X1. A collection can be filtered piece by piece: every hotel is judged on
    its own. *)
Theorem filter_hotels_app hotels1 hotels2 location min_price max_price amenities :
  filter_hotels lower (hotels1 ++ hotels2) location min_price max_price amenities =
  (filter_hotels lower hotels1 location min_price max_price amenities ++
   filter_hotels lower hotels2 location min_price max_price amenities)%list.
Proof. rewrite !filter_hotels_filter. apply filter_app. Qed.

(** X2. Filtering twice with the same criteria changes nothing, and two filters
    can be applied in either order. *)
Theorem filter_hotels_commute hotels loc1 min1 max1 am1 loc2 min2 max2 am2 :
  filter_hotels lower (filter_hotels lower hotels loc1 min1 max1 am1) loc1 min1 max1 am1 =
  filter_hotels lower hotels loc1 min1 max1 am1
  /\ filter_hotels lower (filter_hotels lower hotels loc1 min1 max1 am1)
       loc2 min2 max2 am2 =
     filter_hotels lower (filter_hotels lower hotels loc2 min2 max2 am2)
       loc1 min1 max1 am1.
Proof.
  rewrite !filter_hotels_filter. split.
  - now apply filter_absorb.
  - apply filter_swap.
Qed.

(** X3. Narrowing the price range of an earlier search gives what the narrow
    range gives on the whole collection. *)
Theorem filter_hotels_narrowing hotels location amenities
    min_price max_price min_price' max_price' :
  (min_price' <=? min_price) = true -> (max_price <=? max_price') = true ->
  filter_hotels lower (filter_hotels lower hotels location min_price' max_price' amenities)
    location min_price max_price amenities =
  filter_hotels lower hotels location min_price max_price amenities.
Proof.
  intros Hmin Hmax. rewrite !filter_hotels_filter. apply filter_absorb.
  intros h. unfold filter_keeps.
  destruct (match location with Some _ => _ | None => _ end); [discriminate|].
  destruct (min_price <=? h.(price)) eqn:E1; [|discriminate].
  destruct (h.(price) <=? max_price) eqn:E2; [|discriminate].
  now rewrite (leb_trans _ _ _ Hmin E1), (leb_trans _ _ _ E2 Hmax).
Qed.

(** X4. A hotel whose price is not a number is never returned, and a bound that
    is not a number empties the result. *)
Theorem filter_hotels_nan hotels location min_price max_price amenities :
  (forall h, In h (filter_hotels lower hotels location min_price max_price amenities) ->
             is_nan h.(price) = false)
  /\ (is_nan min_price = true \/ is_nan max_price = true ->
      filter_hotels lower hotels location min_price max_price amenities = []).
Proof.
  rewrite filter_hotels_filter. split.
  - intros h Hin. apply filter_In in Hin. destruct Hin as [_ K].
    unfold filter_keeps in K.
    destruct (match location with Some _ => _ | None => _ end); [discriminate|].
    destruct (min_price <=? h.(price)) eqn:E1; [|discriminate].
    apply leb_iff in E1. apply not_nan_is_nan. tauto.
  - intros Hnan. apply filter_none. intros h. unfold filter_keeps.
    destruct (match location with Some _ => _ | None => _ end); [reflexivity|].
    destruct (min_price <=? h.(price)) eqn:E1; [|reflexivity].
    destruct (h.(price) <=? max_price) eqn:E2; [|reflexivity].
    apply leb_iff in E1. apply leb_iff in E2.
    destruct E1 as [N1 _], E2 as [_ [N2 _]].
    apply not_nan_is_nan in N1. apply not_nan_is_nan in N2.
    destruct Hnan; congruence.
Qed.

Lemma amenity_check amenities (l : list string) :
  match amenities with
  | [] => false
  | _ :: _ => missing_amenity_loop lower amenities l
  end = missing_amenity_loop lower amenities l.
Proof. now destruct amenities. Qed.

Lemma missing_amenity_loop_map amenities (l : list string) :
  missing_amenity_loop lower amenities l =
  existsb (fun a => negb (list_in a l)) (map lower amenities).
Proof.
  induction amenities as [|a rest IH]; simpl; [reflexivity|].
  rewrite <- IH. now destruct (list_in (lower a) l).
Qed.

(** X5. The letter case of the criteria does not matter: a location and
    amenities that differ from others only in what [lower] removes select
    the same hotels. *)
Theorem filter_hotels_case_insensitive hotels min_price max_price
    loc1 loc2 am1 am2 :
  lower loc1 = lower loc2 -> str_truthy loc1 = str_truthy loc2 ->
  map lower am1 = map lower am2 ->
  filter_hotels lower hotels (Some loc1) min_price max_price am1 =
  filter_hotels lower hotels (Some loc2) min_price max_price am2.
Proof.
  intros Hloc Htruthy Ham. rewrite !filter_hotels_filter. apply filter_ext.
  intros h. unfold filter_keeps.
  rewrite !amenity_check, !missing_amenity_loop_map, Hloc, Htruthy, Ham.
  reflexivity.
Qed.

(** X6. The order of the required amenities, and how often each is listed, do
    not matter. *)
Theorem filter_hotels_amenity_set hotels location min_price max_price am1 am2 :
  (forall a, In a am1 <-> In a am2) ->
  filter_hotels lower hotels location min_price max_price am1 =
  filter_hotels lower hotels location min_price max_price am2.
Proof.
  intros Hset. rewrite !filter_hotels_filter. apply filter_ext.
  intros h. unfold filter_keeps. rewrite !amenity_check.
  assert (missing_amenity_loop lower am1 (map lower h.(Models.amenities)) =
          missing_amenity_loop lower am2 (map lower h.(Models.amenities))) as ->;
    [|reflexivity].
  pose proof (missing_amenity_loop_false lower am1 (map lower h.(Models.amenities))) as H1.
  pose proof (missing_amenity_loop_false lower am2 (map lower h.(Models.amenities))) as H2.
  destruct (missing_amenity_loop lower am1 _), (missing_amenity_loop lower am2 _);
    try reflexivity.
  - apply (proj2 H1). intros a Ha. apply (proj1 H2 eq_refl). now apply Hset.
  - symmetry. apply (proj2 H2). intros a Ha. apply (proj1 H1 eq_refl).
    now apply Hset.
Qed.

End FilterComposition.

Lemma filter_hotels_narrowing_witness :
  filter_hotels ascii_lower
    (filter_hotels ascii_lower three_hotels None 0 1000 []) None 100 200 [] =
  filter_hotels ascii_lower three_hotels None 100 200 [].
Proof.
  apply (filter_hotels_narrowing ascii_lower three_hotels None [] 100 200 0 1000);
    reflexivity.
Defined.

Lemma filter_hotels_nan_witness :
  is_nan (sample_hotel 1 80 4 ["WiFi"; "Pool"]).(price) = false /\
  filter_hotels ascii_lower three_hotels None nan 200 [] = [].
Proof.
  split.
  - apply (proj1 (filter_hotels_nan ascii_lower three_hotels (Some "york") 0 200 [])).
    left. reflexivity.
  - apply (proj2 (filter_hotels_nan ascii_lower three_hotels None nan 200 [])).
    left. reflexivity.
Defined.

Lemma filter_hotels_case_insensitive_witness :
  filter_hotels ascii_lower three_hotels (Some "YORK") 0 200 ["WIFI"] =
  filter_hotels ascii_lower three_hotels (Some "york") 0 200 ["wifi"].
Proof.
  apply (filter_hotels_case_insensitive ascii_lower three_hotels 0 200
           "YORK" "york" ["WIFI"] ["wifi"]); reflexivity.
Defined.

Lemma filter_hotels_amenity_set_witness :
  filter_hotels ascii_lower three_hotels None 0 200 ["wifi"; "pool"] =
  filter_hotels ascii_lower three_hotels None 0 200 ["pool"; "wifi"; "pool"].
Proof.
  apply (filter_hotels_amenity_set ascii_lower three_hotels None 0 200
           ["wifi"; "pool"] ["pool"; "wifi"; "pool"]).
  intros a. simpl. tauto.
Defined.

(** ** calculate_recommendation_score: the three components *)

Lemma float_of_nat_mono n m :
  (n <= m)%nat -> (float_of_nat n <=? float_of_nat m) = true.
Proof.
  intros H. apply leb_iff. unfold not_nan, FE, float_of_nat.
  rewrite !Prim2SF_float_of_Z.
  destruct (binary_normalize_rounds (Z.of_nat n) 0) as [_ [N1 R1]].
  destruct (binary_normalize_rounds (Z.of_nat m) 0) as [_ [N2 R2]].
  split; [exact N1|]. split; [exact N2|].
  apply (rounds_mono (Fin (F2R (Z.of_nat n) 0)) (Fin (F2R (Z.of_nat m) 0)));
    [|exact R1|exact R2].
  simpl. unfold F2R. rewrite bpow_0, !Rmult_1_r. apply IZR_le. lia.
Qed.

Lemma py_min_mono x x' :
  (x <=? x') = true -> (py_min x 30 <=? py_min x' 30) = true.
Proof.
  intros H. pose proof H as H'. apply leb_iff in H'. destruct H' as [Nx [Nx' _]].
  unfold py_min. destruct (30 <? x) eqn:E, (30 <? x') eqn:E'.
  - reflexivity.
  - rewrite (ltb_leb_trans _ _ _ E H) in E'. discriminate.
  - apply leb_total; [reflexivity | exact Nx | exact E].
  - exact H.
Qed.

Lemma amenity_term_mono n m :
  (n <= m)%nat ->
  (py_min (float_of_nat n * 6) 30 <=? py_min (float_of_nat m * 6) 30) = true.
Proof.
  intros H. apply py_min_mono, mul_mono; [exact pos_finite_6|].
  now apply float_of_nat_mono.
Qed.

Lemma amenity_term_cap n : (5 <= n)%nat -> py_min (float_of_nat n * 6) 30 = 30.
Proof.
  intros H. destruct (Nat.eq_dec n 5) as [->|Hn]; [reflexivity|].
  assert ((float_of_nat 6 * 6 <=? float_of_nat n * 6) = true) as L.
  { apply mul_mono; [exact pos_finite_6|]. apply float_of_nat_mono. lia. }
  unfold py_min.
  now rewrite (ltb_leb_trans 30 (float_of_nat 6 * 6) _ eq_refl L).
Qed.

Lemma rating_term_bounds r :
  (0 <=? r) = true -> (r <=? 5) = true ->
  (0 <=? r / 5 * 30) = true /\ (r / 5 * 30 <=? 30) = true.
Proof.
  intros H0 H5. split.
  - exact (mul_mono _ _ 30 pos_finite_30 (div_mono _ _ 5 pos_finite_5 H0)).
  - exact (mul_mono _ _ 30 pos_finite_30 (div_mono _ _ 5 pos_finite_5 H5)).
Qed.

(** The sum of the price points [B] (0 or 40) and the rating term. *)
Lemma base_bounds B r :
  B = 0 \/ B = 40 -> (0 <=? r) = true -> (r <=? 5) = true ->
  (B <=? B + r / 5 * 30) = true /\ (B + r / 5 * 30 <=? B + 30) = true /\
  finite (B + r / 5 * 30).
Proof.
  intros HB H0 H5. destruct (rating_term_bounds r H0 H5) as [T0 T30].
  assert (finite B) as FB by (destruct HB as [-> | ->]; reflexivity).
  pose proof (add_mono_l _ _ B FB T0) as L.
  pose proof (add_mono_l _ _ B FB T30) as U.
  assert ((B <=? B + r / 5 * 30) = true) as L'.
  { destruct HB as [-> | ->]; exact L. }
  split; [exact L'|]. split; [exact U|].
  apply (bounded_finite B (B + 30)); auto.
  destruct HB as [-> | ->]; reflexivity.
Qed.

(** X7. With the same price and a rating within [[0, 5]], a hotel that lists
    more amenities never scores lower. *)
Theorem score_monotone_in_amenities h1 h2 user_pref :
  h1.(price) = h2.(price) -> h1.(rating) = h2.(rating) ->
  (0 <=? h1.(rating)) = true -> (h1.(rating) <=? 5) = true ->
  (List.length h1.(amenities) <= List.length h2.(amenities))%nat ->
  (calculate_recommendation_score h1 user_pref <=?
   calculate_recommendation_score h2 user_pref) = true.
Proof.
  intros Ep Er H0 H5 Hn. rewrite !score_unfold, <- Ep, <- Er.
  apply round1_mono, add_mono_l; [|now apply amenity_term_mono].
  now apply base_bounds; [apply budget_points_cases | |].
Qed.

(** X8. Amenities beyond the fifth add nothing: two hotels of the same price and
    rating with at least five amenities each have the same score. *)
Theorem score_amenity_cap h1 h2 user_pref :
  h1.(price) = h2.(price) -> h1.(rating) = h2.(rating) ->
  (5 <= List.length h1.(amenities))%nat ->
  (5 <= List.length h2.(amenities))%nat ->
  calculate_recommendation_score h1 user_pref =
  calculate_recommendation_score h2 user_pref.
Proof.
  intros Ep Er H1 H2.
  now rewrite !score_unfold, Ep, Er, !amenity_term_cap.
Qed.

(** X9. For a rating within [[0, 5]], a hotel within a positive budget scores at
    least 40 and any other hotel scores at most 60 (the price and the budget
    not being both infinite). *)
Theorem score_budget_split hotel user_pref :
  (0 <=? hotel.(rating)) = true -> (hotel.(rating) <=? 5) = true ->
  is_infinity hotel.(price) && is_infinity user_pref.(max_price) = false ->
  if (hotel.(price) <=? user_pref.(max_price)) && (0 <? user_pref.(max_price))
  then (40 <=? calculate_recommendation_score hotel user_pref) = true
  else (calculate_recommendation_score hotel user_pref <=? 60) = true.
Proof.
  intros H0 H5 Hinf. rewrite score_unfold.
  set (a := py_min (float_of_nat (List.length hotel.(amenities)) * 6) 30).
  destruct (amenity_term_bounds (List.length hotel.(amenities))) as [A0 A30].
  pose proof (amenity_term_finite (List.length hotel.(amenities))) as Fa.
  fold a in A0, A30, Fa.
  assert (budget_points hotel.(price) user_pref.(max_price) =
          if (hotel.(price) <=? user_pref.(max_price)) && (0 <? user_pref.(max_price))
          then 40 else 0) as ->.
  { unfold budget_points. destruct (0 <? user_pref.(max_price)) eqn:Hm.
    - rewrite (budget_test _ _ Hm Hinf), andb_true_r.
      now destruct (hotel.(price) <=? user_pref.(max_price)).
    - now rewrite andb_false_r. }
  destruct ((hotel.(price) <=? user_pref.(max_price)) && (0 <? user_pref.(max_price))).
  - destruct (base_bounds 40 hotel.(rating) (or_intror eq_refl) H0 H5) as [L [_ F]].
    apply (round1_mono 40). apply (leb_trans _ (40 + 0)); [reflexivity|].
    apply (leb_trans _ (40 + a)); [now apply add_mono_l|].
    now apply add_mono_r.
  - destruct (base_bounds 0 hotel.(rating) (or_introl eq_refl) H0 H5) as [_ [U F]].
    apply (round1_mono _ 60). apply (leb_trans _ (0 + 30 + a)).
    + now apply add_mono_r.
    + now apply (add_mono_l a 30 (0 + 30)).
Qed.

Lemma score_monotone_in_amenities_witness :
  (calculate_recommendation_score (sample_hotel 1 80 4 ["WiFi"]) (sample_pref None) <=?
   calculate_recommendation_score (sample_hotel 2 80 4 ["WiFi"; "Pool"]) (sample_pref None))
  = true.
Proof.
  apply (score_monotone_in_amenities (sample_hotel 1 80 4 ["WiFi"])
           (sample_hotel 2 80 4 ["WiFi"; "Pool"]) (sample_pref None));
    try reflexivity.
  simpl. lia.
Defined.

Lemma score_amenity_cap_witness :
  calculate_recommendation_score well_equipped_hotel (sample_pref None) =
  calculate_recommendation_score
    (sample_hotel 6 100 4 ["WiFi"; "Pool"; "Gym"; "Spa"; "Bar"; "Parking"; "Breakfast"])
    (sample_pref None).
Proof.
  apply (score_amenity_cap well_equipped_hotel
           (sample_hotel 6 100 4
              ["WiFi"; "Pool"; "Gym"; "Spa"; "Bar"; "Parking"; "Breakfast"])
           (sample_pref None)); try reflexivity; simpl; lia.
Defined.

Lemma score_budget_split_witness :
  (40 <=? calculate_recommendation_score (sample_hotel 1 80 4 ["WiFi"]) (sample_pref None))
  = true /\
  (calculate_recommendation_score (sample_hotel 3 500 5 ["WiFi"]) (sample_pref None) <=? 60)
  = true.
Proof.
  split.
  - apply (score_budget_split (sample_hotel 1 80 4 ["WiFi"]) (sample_pref None));
      reflexivity.
  - apply (score_budget_split (sample_hotel 3 500 5 ["WiFi"]) (sample_pref None));
      reflexivity.
Defined.

(** ** rerank_hotels: what a reply can and cannot do *)

Lemma py_index_In {A : Type} (l : list A) z x : py_index l z = Some x -> In x l.
Proof.
  unfold py_index. destruct (0 <=? z)%Z.
  - apply nth_error_In.
  - destruct (_ <=? z)%Z; [apply nth_error_In | discriminate].
Qed.

Lemma subscript_In hotels idx h : subscript hotels idx = Some h -> In h hotels.
Proof. destruct idx; simpl; try discriminate; apply py_index_In. Qed.

(** What the loop adds to [results]: at most one entry per item, each with a
    hotel of the candidate list. *)
Lemma rank_loop_adds hotels items : forall acc res,
  rank_loop hotels items acc = Some res ->
  exists new,
    res = (acc ++ new)%list /\
    Forall (fun r => In r.(r_hotel) hotels) new /\
    (List.length new <= List.length items)%nat.
Proof.
  induction items as [|j items IH]; intros acc res H; simpl in H.
  - exists []. injection H as <-. rewrite app_nil_r. repeat split; auto.
  - destruct j as [|b|z|f|s|l|rank]; try discriminate.
    destruct (index_in_range _ _) as [[|]|]; try discriminate.
    + destruct (subscript hotels _) as [h|] eqn:Es; [|discriminate].
      destruct (IH _ _ H) as [new [-> [F L]]].
      eexists (_ :: new). rewrite <- app_assoc. split; [reflexivity|].
      split; [|simpl; lia].
      constructor; [|exact F]. simpl. exact (subscript_In _ _ _ Es).
    + destruct (IH _ _ H) as [new [-> [F L]]].
      exists new. repeat split; auto. simpl. lia.
Qed.

(** An item whose index cannot be compared or cannot index a list makes the
    loop fail, wherever it is in the reply. *)
Lemma rank_loop_ill_typed hotels items rank idx : forall acc,
  In (JObj rank) items ->
  dict_get "index" rank = Some idx ->
  match idx with
  | JStr _ | JArr _ | JObj _ => True
  | JFloat f => (0 <=? f) && (f <? float_of_nat (List.length hotels)) = true
  | _ => False
  end ->
  rank_loop hotels items acc = None.
Proof.
  induction items as [|j items IH]; intros acc Hin Hidx Hbad; [destruct Hin|].
  destruct Hin as [-> | Hin].
  - simpl.
    assert (dict_get_default "index" JNull rank = idx) as ->
      by (unfold dict_get_default; now rewrite Hidx).
    destruct idx as [|b|z|f|s|l|fields]; try contradiction; try reflexivity.
    unfold index_in_range. rewrite Hbad. reflexivity.
  - simpl. destruct j as [|b|z|f|s|l|rank']; try reflexivity.
    destruct (index_in_range _ _) as [[|]|]; try reflexivity.
    + destruct (subscript hotels _); [|reflexivity]. now apply IH.
    + now apply IH.
Qed.

Lemma length_append_string (a b : string) :
  String.length (a ++ b) = (String.length a + String.length b)%nat.
Proof. induction a as [|c a IH]; simpl; [reflexivity | now rewrite IH]. Qed.

Lemma substring_prefix (a b : string) : substring 0 (String.length a) (a ++ b) = a.
Proof.
  induction a as [|c a IH]; simpl.
  - now destruct b.
  - now rewrite IH.
Qed.

(** [text[7:-3]] removes an opening ["```json"] and a closing ["```"]. *)
Lemma slice_fenced body : slice_7_m3 ("```json" ++ body ++ "```")%string = body.
Proof.
  unfold slice_7_m3. rewrite !length_append_string.
  replace (String.length "```json" + (String.length body + String.length "```") - 3 - 7)%nat
    with (String.length body) by (simpl; lia).
  simpl. apply substring_prefix.
Qed.

Section RerankFurther.

Variable strip : string -> string.
Variable repr_float : float -> string.
Variable json_loads : string -> option json.
Variable World : Type.
Variable API_KEY : option string.
Variable generate_content : World -> string -> option string * World.

Local Abbreviation rerank :=
  (rerank_hotels strip repr_float json_loads World API_KEY generate_content).
Local Abbreviation remote := (remote_reply repr_float World generate_content).
Local Abbreviation parsed :=
  (parsed_reply strip repr_float json_loads World generate_content).

Lemma rerank_cases w hotels user_pref :
  fst (rerank w hotels user_pref) = [] \/
  exists items results,
    parsed w hotels user_pref = Some (JArr items) /\
    rank_loop hotels items [] = Some results /\
    fst (rerank w hotels user_pref) = results.
Proof.
  unfold rerank_hotels, parsed_reply, remote_reply.
  destruct (negb _ || negb _); [now left|].
  destruct (generate_content w _) as [[text|] w']; simpl; [|now left].
  destruct (json_loads _) as [rankings|]; [|now left].
  destruct (iter_items rankings) as [items|] eqn:Ei; [|now left].
  destruct (rank_loop hotels items []) as [results|] eqn:Er; [|now left].
  destruct rankings as [|b|z|f|s|l|fields]; simpl in Ei; try discriminate;
    injection Ei as <-.
  - destruct s as [|c s]; simpl in Er; [|discriminate].
    injection Er as <-. now left.
  - right. eauto.
  - destruct fields as [|[k v] fields]; simpl in Er; [|discriminate].
    injection Er as <-. now left.
Qed.

(** X10. Whatever the remote replies, every entry of the result holds one of the
    candidates, and there is at most one entry per item of the reply. *)
Theorem rerank_hotels_from_candidates w hotels user_pref :
  let results :=
    fst (rerank_hotels strip repr_float json_loads World API_KEY generate_content
           w hotels user_pref) in
  Forall (fun r => In r.(r_hotel) hotels) results
  /\ (forall items,
        parsed_reply strip repr_float json_loads World generate_content
          w hotels user_pref = Some (JArr items) ->
        (List.length results <= List.length items)%nat).
Proof.
  cbv zeta.
  destruct (rerank_cases w hotels user_pref) as [-> | [items [results [Hp [Hr ->]]]]].
  - split; [constructor | intros; simpl; lia].
  - destruct (rank_loop_adds _ _ _ _ Hr) as [new [-> [F L]]]. simpl.
    split; [exact F|]. intros items' Hp'. rewrite Hp in Hp'.
    now injection Hp' as <-.
Qed.

(** X11. One item whose index is a string, a list or a dict, or a float within
    range, discards the whole reply: the result is empty even when the other
    items are valid. *)
Theorem rerank_hotels_ill_typed_index w hotels user_pref items rank idx :
  parsed_reply strip repr_float json_loads World generate_content
    w hotels user_pref = Some (JArr items) ->
  In (JObj rank) items ->
  dict_get "index" rank = Some idx ->
  match idx with
  | JStr _ | JArr _ | JObj _ => True
  | JFloat f => (0 <=? f) && (f <? float_of_nat (List.length hotels)) = true
  | _ => False
  end ->
  fst (rerank_hotels strip repr_float json_loads World API_KEY generate_content
         w hotels user_pref) = [].
Proof.
  intros Hp Hin Hidx Hbad.
  destruct (rerank_cases w hotels user_pref) as [E | [items' [results [Hp' [Hr _]]]]];
    [exact E|].
  rewrite Hp in Hp'. injection Hp' as <-.
  now rewrite (rank_loop_ill_typed hotels items rank idx [] Hin Hidx Hbad) in Hr.
Qed.

(** X12. A reply wrapped in a code fence is parsed without the fence. *)
Theorem rerank_hotels_code_fence w hotels user_pref reply body :
  remote_reply repr_float World generate_content w hotels user_pref = Some reply ->
  strip reply = ("```json" ++ body ++ "```")%string ->
  parsed_reply strip repr_float json_loads World generate_content
    w hotels user_pref = json_loads body.
Proof.
  intros Hr Hs. unfold parsed_reply. rewrite Hr, Hs.
  now rewrite slice_fenced.
Qed.

End RerankFurther.

(** ** Slices and sorted lists *)

Lemma py_slice_window {A : Type} (l : list A) (start count : Z) :
  (0 <= start)%Z -> (0 <= count)%Z ->
  py_slice l start (start + count) =
  firstn (Z.to_nat count) (skipn (Z.to_nat start) l).
Proof.
  intros Hs Hc. unfold py_slice.
  destruct (start + count <? 0)%Z eqn:E; [lia|].
  destruct (Z_le_gt_dec (start + count) (Z.of_nat (List.length l))) as [Hle|Hgt].
  - f_equal. lia.
  - rewrite !firstn_all2; [reflexivity | |]; rewrite length_skipn; lia.
Qed.

Lemma py_slice_from_end {A : Type} (l : list A) (start end_ : Z) :
  (0 <= start)%Z -> (end_ < 0)%Z ->
  py_slice l start end_ =
  skipn (Z.to_nat start) (firstn (List.length l - Z.to_nat (- end_)) l).
Proof.
  intros Hs He. unfold py_slice.
  destruct (end_ <? 0)%Z eqn:E; [|lia].
  rewrite firstn_skipn_comm.
  set (n := List.length l).
  destruct (Z_le_gt_dec start (Z.max 0 (Z.of_nat n + end_))) as [Hle|Hgt].
  - do 2 f_equal. lia.
  - rewrite !skipn_all2; [reflexivity | |];
      (etransitivity; [apply firstn_le_length | lia]).
Qed.


(** A list already in descending order is left as it is: entries of equal
    key keep their order. *)
Lemma sort_desc_sorted {A : Type} (key : A -> float) (l : list A) :
  descending key l -> sort_desc key l = l.
Proof.
  intros D. unfold sort_desc. rewrite timsort_id; [apply rev_involutive|].
  exact (StronglySorted_rev _ _ D).
Qed.

(** ** search_hotels and get_recommendations: the endpoints *)

Section EndpointProofs.

Variable lower : string -> string.
Variable strip : string -> string.
Variable repr_float : float -> string.
Variable json_loads : string -> option json.
Variable World : Type.
Variable API_KEY : option string.
Variable generate_content : World -> string -> option string * World.
Variable supabase : bool.
Variable select_hotels : World -> option (list Hotel) * World.
Variable validate_response : Ranked -> option RecommendationResponse.

Local Abbreviation all_hotels := (get_all_hotels World supabase select_hotels).
Local Abbreviation search := (search_hotels lower World supabase select_hotels).
Local Abbreviation recommend :=
  (get_recommendations lower strip repr_float json_loads World API_KEY
     generate_content supabase select_hotels validate_response).
Local Abbreviation rerank :=
  (rerank_hotels strip repr_float json_loads World API_KEY generate_content).
Local Abbreviation loop :=
  (recommendations_loop strip repr_float World API_KEY generate_content).

(** The hotels the two endpoints work on. *)
Local Abbreviation found w location min_price max_price amenities :=
  (filter_hotels lower (fst (all_hotels w)) location min_price max_price amenities).
Local Abbreviation matching w user_pref :=
  (found w user_pref.(pref_location) user_pref.(min_price) user_pref.(max_price)
     user_pref.(required_amenities)).

Lemma search_hotels_slice w location min_price max_price amenities skip limit :
  fst (search w location min_price max_price amenities skip limit) =
  py_slice
    (found w location min_price max_price
       (match amenities with Some (a :: l) => a :: l | _ => [] end))
    skip (skip + limit).
Proof. unfold search_hotels. now destruct (all_hotels w). Qed.

(** X13. A page is the [limit] hotels that follow the first [skip] matching ones,
    and never holds more than [limit] hotels. *)
Theorem search_hotels_page w location min_price max_price amenities skip limit :
  (0 <= skip)%Z -> (0 <= limit)%Z ->
  let matching :=
    filter_hotels lower (fst (get_all_hotels World supabase select_hotels w))
      location min_price max_price
      (match amenities with Some (a :: l) => a :: l | _ => [] end) in
  let page :=
    fst (search_hotels lower World supabase select_hotels w location min_price max_price
           amenities skip limit) in
  page = firstn (Z.to_nat limit) (skipn (Z.to_nat skip) matching)
  /\ (Z.of_nat (List.length page) <= limit)%Z.
Proof.
  intros Hs Hl. rewrite search_hotels_slice, py_slice_window by assumption.
  split; [reflexivity|].
  pose proof (firstn_le_length (Z.to_nat limit)
    (skipn (Z.to_nat skip)
       (found w location min_price max_price
          (match amenities with Some (a :: l) => a :: l | _ => [] end)))).
  lia.
Qed.

(** X14. Consecutive pages of the same search join into the page that spans
    both. *)
Theorem search_hotels_pages_join w location min_price max_price amenities
    skip limit1 limit2 :
  (0 <= skip)%Z -> (0 <= limit1)%Z -> (0 <= limit2)%Z ->
  (fst (search_hotels lower World supabase select_hotels w location min_price max_price
           amenities skip limit1) ++
   fst (search_hotels lower World supabase select_hotels w location min_price max_price
           amenities (skip + limit1) limit2))%list =
  fst (search_hotels lower World supabase select_hotels w location min_price max_price
           amenities skip (limit1 + limit2)).
Proof.
  intros Hs H1 H2. rewrite !search_hotels_slice, !py_slice_window by lia.
  rewrite (Z2Nat.inj_add limit1 limit2), firstn_add, skipn_skipn by lia.
  do 3 f_equal. lia.
Qed.

(** X15. A negative [limit] that makes [skip + limit] negative is counted from
    the end of the matching hotels: the page is all of them but the first
    [skip] and the last [-(skip + limit)]. *)
Theorem search_hotels_negative_limit w location min_price max_price amenities
    skip limit :
  (0 <= skip)%Z -> (skip + limit < 0)%Z ->
  let matching :=
    filter_hotels lower (fst (get_all_hotels World supabase select_hotels w))
      location min_price max_price
      (match amenities with Some (a :: l) => a :: l | _ => [] end) in
  fst (search_hotels lower World supabase select_hotels w location min_price max_price
           amenities skip limit) =
  skipn (Z.to_nat skip)
    (firstn (List.length matching - Z.to_nat (- (skip + limit))) matching).
Proof.
  intros Hs Hl matching. rewrite search_hotels_slice.
  now apply py_slice_from_end.
Qed.

Lemma top_candidates_nil user_pref : top_candidates [] user_pref = [].
Proof. reflexivity. Qed.

Lemma rerank_no_candidates w user_pref : fst (rerank w [] user_pref) = [].
Proof.
  destruct (rerank_cases strip repr_float json_loads World API_KEY
              generate_content w [] user_pref)
    as [E | [items [results [_ [Hr ->]]]]]; [exact E|].
  now apply rank_loop_no_hotels in Hr.
Qed.

Lemma recommend_unfold w user_pref :
  fst (recommend w user_pref) =
  let fallback w' :=
    Some (sort_desc score (fst (loop w' (matching w user_pref) user_pref []))) in
  if truthy user_pref.(trip_description) then
    match fst (rerank (snd (all_hotels w))
                 (top_candidates (matching w user_pref) user_pref) user_pref) with
    | r :: reranked => validate_all validate_response (r :: reranked)
    | [] =>
        fallback (snd (rerank (snd (all_hotels w))
                         (top_candidates (matching w user_pref) user_pref) user_pref))
    end
  else fallback (snd (all_hotels w)).
Proof.
  unfold get_recommendations. destruct (all_hotels w) as [hotels w1]. simpl.
  destruct (truthy user_pref.(trip_description)).
  - destruct (rerank w1 _ user_pref) as [[|r reranked] w2]; simpl.
    + now destruct (loop w2 _ user_pref []).
    + reflexivity.
  - now destruct (loop w1 _ user_pref []).
Qed.

Lemma recommend_nothing w user_pref :
  matching w user_pref = [] ->
  fst (recommend w user_pref) = Some [].
Proof.
  intros E. rewrite recommend_unfold, E. simpl.
  rewrite rerank_no_candidates. now destruct (truthy _).
Qed.

(** X16. When no hotel matches, the recommendations are the empty list, whatever
    the remote replies. *)
Theorem recommendations_no_match w user_pref :
  filter_hotels lower (fst (get_all_hotels World supabase select_hotels w))
      user_pref.(pref_location) user_pref.(min_price) user_pref.(max_price)
      user_pref.(required_amenities) = [] ->
  fst (get_recommendations lower strip repr_float json_loads World API_KEY
           generate_content supabase select_hotels validate_response w user_pref)
  = Some [].
Proof. apply recommend_nothing. Qed.

(** X17. When the store is not configured or the query fails, both endpoints
    return an empty list and not an error. *)
Theorem store_unavailable w :
  supabase = false \/ fst (select_hotels w) = None ->
  fst (get_all_hotels World supabase select_hotels w) = []
  /\ (forall location min_price max_price amenities skip limit,
        fst (search_hotels lower World supabase select_hotels w location min_price max_price
           amenities skip limit) = [])
  /\ (forall user_pref,
        fst (get_recommendations lower strip repr_float json_loads World API_KEY
           generate_content supabase select_hotels validate_response w user_pref)
        = Some []).
Proof.
  intros H.
  assert (fst (all_hotels w) = []) as E.
  { unfold get_all_hotels. destruct supabase; simpl; [|reflexivity].
    destruct H as [H|H]; [discriminate|].
    destruct (select_hotels w) as [[data|] w']; simpl in *; [discriminate | reflexivity]. }
  split; [exact E|]. split.
  - intros. rewrite search_hotels_slice, E. unfold filter_hotels. simpl.
    unfold py_slice. simpl. now rewrite skipn_nil, firstn_nil.
  - intros user_pref. apply recommend_nothing. now rewrite E.
Qed.

Lemma rerank_without_key w hotels user_pref :
  truthy API_KEY = false -> rerank w hotels user_pref = ([], w).
Proof.
  intros H. unfold rerank_hotels. now rewrite H, orb_true_r.
Qed.

Lemma loop_without_key filtered : forall w user_pref recommendations,
  truthy API_KEY = false ->
  loop w filtered user_pref recommendations =
  ((recommendations ++
    map (fun h => {| hotel := h;
                     score := calculate_recommendation_score h user_pref;
                     reasoning := fallback_reason repr_float h |}) filtered)%list,
   w).
Proof.
  induction filtered as [|h rest IH]; intros w user_pref acc H; simpl.
  - now rewrite app_nil_r.
  - unfold generate_recommendation_reason. rewrite H, IH, <- app_assoc by exact H.
    reflexivity.
Qed.

(** X18. Without an API key the remote is never called: the state of the
    world is the one the store query left, and the recommendations are the
    matching hotels with their scores and the template sentence, in some
    order; when no matching hotel has a rating that is NaN, in descending
    order of score, as [list.sort] leaves them. *)
Theorem recommendations_without_key w user_pref :
  let filtered :=
    filter_hotels lower (fst (get_all_hotels World supabase select_hotels w))
      user_pref.(pref_location) user_pref.(min_price) user_pref.(max_price)
      user_pref.(required_amenities) in
  let template := fun h =>
    {| hotel := h;
       score := calculate_recommendation_score h user_pref;
       reasoning := fallback_reason repr_float h |} in
  truthy API_KEY = false ->
  exists result,
    get_recommendations lower strip repr_float json_loads World API_KEY
      generate_content supabase select_hotels validate_response w user_pref
    = (Some result, snd (get_all_hotels World supabase select_hotels w)) /\
    Permutation result (map template filtered) /\
    ((forall h, In h filtered -> is_nan h.(rating) = false) ->
     result = sort_desc score (map template filtered) /\
     descending score result).
Proof.
  cbv zeta. intros H.
  exists (sort_desc score
            (map (fun h => {| hotel := h;
                              score := calculate_recommendation_score h user_pref;
                              reasoning := fallback_reason repr_float h |})
               (matching w user_pref))).
  split; [|split].
  - unfold get_recommendations. destruct (all_hotels w) as [hotels w1].
    simpl. rewrite rerank_without_key, loop_without_key by exact H. simpl.
    now destruct (truthy user_pref.(trip_description)).
  - apply sort_desc_perm.
  - intros Hnum. split; [reflexivity|]. apply sort_desc_descending.
    apply Forall_forall. intros r Hr. apply in_map_iff in Hr.
    destruct Hr as [h [<- Hh]]. simpl. now apply score_not_nan, Hnum.
Qed.


Lemma rerank_result_candidates w hotels user_pref :
  Forall (fun r => In r.(r_hotel) hotels) (fst (rerank w hotels user_pref)).
Proof.
  destruct (rerank_cases strip repr_float json_loads World API_KEY
              generate_content w hotels user_pref)
    as [-> | [items [results [_ [Hr ->]]]]]; [constructor|].
  now destruct (rank_loop_adds _ _ _ _ Hr) as [new [-> [F _]]].
Qed.

Lemma validate_all_spec reranked : forall result,
  validate_all validate_response reranked = Some result ->
  Forall2 (fun r x => validate_response r = Some x) reranked result.
Proof.
  induction reranked as [|r rest IH]; intros result H; simpl in H.
  - injection H as <-. constructor.
  - destruct (validate_response r) as [x|] eqn:Ex; [|discriminate].
    destruct (validate_all validate_response rest) as [xs|]; [|discriminate].
    injection H as <-. constructor; auto.
Qed.

(** X20. On the reranker path the response has one entry per entry of the
    reranking, and holds only hotels of the shortlist, provided the
    validation of an entry keeps its hotel and no matching hotel has a
    rating that is NaN. *)
Theorem recommendations_reranked w user_pref result :
  let filtered :=
    filter_hotels lower (fst (get_all_hotels World supabase select_hotels w))
      user_pref.(pref_location) user_pref.(min_price) user_pref.(max_price)
      user_pref.(required_amenities) in
  let shortlist := top_candidates filtered user_pref in
  let reranked :=
    fst (rerank_hotels strip repr_float json_loads World API_KEY generate_content
           (snd (get_all_hotels World supabase select_hotels w)) shortlist user_pref) in
  (forall r x, validate_response r = Some x -> x.(hotel) = r.(r_hotel)) ->
  (forall h, In h filtered -> is_nan h.(rating) = false) ->
  truthy user_pref.(trip_description) = true ->
  reranked <> [] ->
  fst (get_recommendations lower strip repr_float json_loads World API_KEY
           generate_content supabase select_hotels validate_response w user_pref)
  = Some result ->
  Forall (fun x => In x.(hotel) shortlist) result
  /\ List.length result = List.length reranked.
Proof.
  cbv zeta.
  intros Hv _ Hd Hne. rewrite recommend_unfold, Hd. cbv zeta.
  pose proof (rerank_result_candidates (snd (all_hotels w))
                (top_candidates (matching w user_pref) user_pref) user_pref) as F.
  destruct (fst (rerank _ _ user_pref)) as [|r reranked]; [congruence|].
  intros H. apply validate_all_spec in H. clear Hne.
  revert F H. generalize (r :: reranked). intros l F H.
  induction H as [|r' x l xs Hx _ IH]; [split; [constructor | reflexivity]|].
  inversion F as [|? ? Fr Fl]; subst. destruct (IH Fl) as [IH1 IH2].
  split; [|simpl; now rewrite IH2].
  constructor; [|exact IH1]. now rewrite (Hv _ _ Hx).
Qed.

Lemma descending_entries user_pref (entries : list RecommendationResponse) :
  Forall (fun r => r.(score) = calculate_recommendation_score r.(hotel) user_pref)
    entries ->
  descending (fun h => calculate_recommendation_score h user_pref)
    (map hotel entries) ->
  descending score entries.
Proof.
  unfold descending. induction 1 as [|r entries Hr F IH]; simpl; intros S.
  - constructor.
  - inversion S as [|? ? S' Fa]; subst. constructor; [now apply IH|].
    rewrite Forall_forall in Fa, F |- *. intros b Hb.
    rewrite Hr, (F b Hb). apply Fa. now apply in_map.
Qed.

(** X21. On the fallback path, matching hotels that are already in descending
    order of score are returned in that order: hotels of equal score keep
    the order of the store. *)
Theorem recommendations_keep_order w user_pref :
  let filtered :=
    filter_hotels lower (fst (get_all_hotels World supabase select_hotels w))
      user_pref.(pref_location) user_pref.(min_price) user_pref.(max_price)
      user_pref.(required_amenities) in
  truthy user_pref.(trip_description) = false \/
  fst (rerank_hotels strip repr_float json_loads World API_KEY generate_content
         (snd (get_all_hotels World supabase select_hotels w))
         (top_candidates filtered user_pref) user_pref) = [] ->
  descending (fun h => calculate_recommendation_score h user_pref) filtered ->
  exists result,
    fst (get_recommendations lower strip repr_float json_loads World API_KEY
           generate_content supabase select_hotels validate_response w user_pref)
    = Some result /\
    map hotel result = filtered.
Proof.
  cbv zeta.
  intros Hpath Hd.
  assert (forall w', sort_desc score (fst (loop w' (matching w user_pref) user_pref []))
                     = fst (loop w' (matching w user_pref) user_pref []) /\
                     map hotel (fst (loop w' (matching w user_pref) user_pref []))
                     = matching w user_pref) as Fallback.
  { intros w'.
    destruct (recommendations_loop_spec strip repr_float World API_KEY
                generate_content (matching w user_pref) w' user_pref [])
      as [entries [-> [M F]]].
    simpl. split; [|exact M]. apply sort_desc_sorted.
    apply (descending_entries user_pref).
    - eapply Forall_impl; [|exact F]. now intros r [Hs _].
    - now rewrite M. }
  rewrite recommend_unfold. simpl.
  destruct (truthy user_pref.(trip_description)).
  - destruct Hpath as [Hp|Hp]; [discriminate|]. rewrite Hp.
    eexists. split; [reflexivity|]. destruct (Fallback (snd (rerank (snd (all_hotels w))
      (top_candidates (matching w user_pref) user_pref) user_pref))) as [-> M].
    exact M.
  - eexists. split; [reflexivity|].
    destruct (Fallback (snd (all_hotels w))) as [-> M]. exact M.
Qed.

End EndpointProofs.

(** ** The token, the admin endpoints and the bookings *)

Section AdminProofs.

Variable repr_float : float -> string.
Variable World : Type.
Variable supabase : bool.
Variable insert_row : World -> Hotel -> (string + json) * World.
Variable delete_row : World -> Z -> (string + json) * World.
Variable update_price_row : World -> Z -> float -> (string + json) * World.

Lemma verify_token_inr x_token token :
  verify_token x_token = inr token <-> x_token = "secret-token" /\ token = x_token.
Proof.
  unfold verify_token. destruct (String.eqb_spec x_token "secret-token"); simpl.
  - split; [intros [= <-]; auto | intros [_ ->]; reflexivity].
  - split; [discriminate | intros [H _]; contradiction].
Qed.

Lemma verify_token_inl x_token :
  x_token <> "secret-token" ->
  verify_token x_token =
  inl {| status_code := 400; detail := "Invalid X-Token header" |}.
Proof.
  intros H. unfold verify_token.
  now destruct (String.eqb_spec x_token "secret-token").
Qed.

(** X22. Without the right token no admin request reaches the store and no
    booking is taken: the reply is the error 400 and the store and the
    pending tasks are as before. *)
Theorem requests_need_token x_token :
  x_token <> "secret-token" ->
  let refused := {| status_code := 400; detail := "Invalid X-Token header" |} in
  (forall w hotel,
     create_hotel_request World supabase insert_row w x_token hotel
     = (inl refused, w))
  /\ (forall w hotel_id,
        delete_hotel_request World supabase delete_row w x_token hotel_id
        = (inl refused, w))
  /\ (forall w hotel_id price,
        update_hotel_price_request repr_float World supabase update_price_row
          w x_token hotel_id price
        = (inl refused, w))
  /\ (forall tasks booking,
        create_booking_request tasks x_token booking = (inl refused, tasks)).
Proof.
  intros H refused.
  unfold create_hotel_request, delete_hotel_request, update_hotel_price_request,
    create_booking_request, with_token.
  rewrite (verify_token_inl _ H). repeat split.
Qed.

(** X23. With the right token but no store configured, every admin request is
    answered 503 and nothing is sent to the store. *)
Theorem admin_store_unavailable :
  supabase = false ->
  let unavailable := {| status_code := 503; detail := "Database unavailable" |} in
  (forall w hotel,
     create_hotel_request World supabase insert_row w "secret-token" hotel
     = (inl unavailable, w))
  /\ (forall w hotel_id,
        delete_hotel_request World supabase delete_row w "secret-token" hotel_id
        = (inl unavailable, w))
  /\ (forall w hotel_id price,
        update_hotel_price_request repr_float World supabase update_price_row
          w "secret-token" hotel_id price
        = (inl unavailable, w)).
Proof.
  intros H unavailable.
  unfold create_hotel_request, delete_hotel_request, update_hotel_price_request,
    with_token, create_hotel, delete_hotel, update_hotel_price.
  simpl. rewrite H. repeat split.
Qed.

Lemma store_call_success (op : (string + json) * World) text reply :
  fst (match op with
       | (inr response_data, w') =>
           (inr {| message := text; data := response_data |}, w')
       | (inl e, w') => (inl {| status_code := 400; detail := e |}, w')
       end) = inr reply <->
  exists d, fst op = inr d /\ reply = {| message := text; data := d |}.
Proof.
  destruct op as [[e|d] w']; simpl.
  - split; [discriminate | intros [d [E _]]; discriminate].
  - split.
    + intros [= <-]. eauto.
    + intros [d' [[= <-] ->]]. reflexivity.
Qed.

Lemma with_token_success {A S : Type} x_token (s : S)
    (handler : string -> (HTTPException + A) * S) r s' :
  with_token x_token s handler = (inr r, s') <->
  x_token = "secret-token" /\ handler x_token = (inr r, s').
Proof.
  unfold with_token, verify_token.
  destruct (String.eqb_spec x_token "secret-token") as [E|N]; simpl.
  - tauto.
  - split; [discriminate | tauto].
Qed.

Lemma with_token_fst {A S : Type} x_token (s : S)
    (handler : string -> (HTTPException + A) * S) r :
  fst (with_token x_token s handler) = inr r <->
  x_token = "secret-token" /\ fst (handler x_token) = inr r.
Proof.
  unfold with_token, verify_token.
  destruct (String.eqb_spec x_token "secret-token") as [E|N]; simpl.
  - tauto.
  - split; [discriminate | tauto].
Qed.

Lemma admin_handler_success (op : (string + json) * World) text reply w :
  fst (if negb supabase
       then (inl {| status_code := 503; detail := "Database unavailable" |}, w)
       else
         match op with
         | (inr response_data, w') =>
             (inr {| message := text; data := response_data |}, w')
         | (inl e, w') => (inl {| status_code := 400; detail := e |}, w')
         end) = inr reply <->
  supabase = true /\
  exists d, fst op = inr d /\ reply = {| message := text; data := d |}.
Proof.
  destruct supabase; simpl.
  - rewrite store_call_success. tauto.
  - split; [discriminate | intros [E _]; discriminate].
Qed.

(** X24. A request succeeds exactly when the token is right and, for an admin
    request, the store is configured and the store request does not raise;
    the admin reply then carries what the store returned.  A booking needs
    the token only: it is confirmed whatever hotel it names, with one
    confirmation for the guest's address added behind the pending ones. *)
Theorem request_success w x_token :
  (forall hotel reply,
     fst (create_hotel_request World supabase insert_row w x_token hotel)
     = inr reply <->
     x_token = "secret-token" /\ supabase = true /\
     exists d, fst (insert_row w hotel) = inr d /\
               reply = {| message := "Hotel created successfully"; data := d |})
  /\ (forall hotel_id reply,
        fst (delete_hotel_request World supabase delete_row w x_token hotel_id)
        = inr reply <->
        x_token = "secret-token" /\ supabase = true /\
        exists d, fst (delete_row w hotel_id) = inr d /\
                  reply = {| message := "Hotel " ++ str_of_int hotel_id ++ " deleted";
                             data := d |})
  /\ (forall hotel_id price reply,
        fst (update_hotel_price_request repr_float World supabase update_price_row
               w x_token hotel_id price)
        = inr reply <->
        x_token = "secret-token" /\ supabase = true /\
        exists d, fst (update_price_row w hotel_id price) = inr d /\
                  reply = {| message := "Hotel " ++ str_of_int hotel_id ++
                                        " price updated to " ++ repr_float price;
                             data := d |})
  /\ (forall tasks booking reply tasks',
        create_booking_request tasks x_token booking = (inr reply, tasks') <->
        x_token = "secret-token" /\
        reply = {| status := "confirmed";
                   booking_message :=
                     "Booking received! Confirmation email will be sent shortly.";
                   user := booking.(guest_name) |} /\
        tasks' = (tasks ++ [{| email := booking.(user_email);
                               hotel_name := str_of_int booking.(hotel_id) |}])%list).
Proof.
  unfold create_hotel_request, delete_hotel_request, update_hotel_price_request,
    create_booking_request.
  split; [|split; [|split]]; intros.
  - rewrite with_token_fst. unfold create_hotel.
    now rewrite admin_handler_success.
  - rewrite with_token_fst. unfold delete_hotel.
    now rewrite admin_handler_success.
  - rewrite with_token_fst. unfold update_hotel_price.
    now rewrite admin_handler_success.
  - rewrite with_token_success. unfold create_booking. simpl.
    split.
    + intros [E [= <- <-]]. auto.
    + intros [E [-> ->]]. auto.
Qed.

End AdminProofs.

(** ** seed_db.py: the generated rows and the batches *)

Lemma float_of_Z_mono a b :
  (a <= b)%Z -> (float_of_Z a <=? float_of_Z b) = true.
Proof.
  intros H. apply leb_iff. unfold not_nan, FE. rewrite !Prim2SF_float_of_Z.
  destruct (binary_normalize_rounds a 0) as [_ [N1 R1]].
  destruct (binary_normalize_rounds b 0) as [_ [N2 R2]].
  split; [exact N1|]. split; [exact N2|].
  apply (rounds_mono (Fin (F2R a 0)) (Fin (F2R b 0))); [|exact R1|exact R2].
  simpl. unfold F2R. rewrite bpow_0, !Rmult_1_r. now apply IZR_le.
Qed.

Section SeedProofs.

Variable Rand : Type.
Variable choice : Rand -> list string -> string * Rand.
Variable randint : Rand -> Z -> Z -> Z * Rand.
Variable uniform : Rand -> float -> float -> float * Rand.
Variable sample : Rand -> list string -> Z -> option (list string) * Rand.

Local Abbreviation draw_name := (fresh_name Rand choice).
Local Abbreviation generate := (generate_loop Rand choice randint uniform sample).

Lemma fresh_name_unused steps : forall rng used name rng',
  draw_name steps rng used = Some (name, rng') -> ~ In name used.
Proof.
  induction steps as [|steps IH]; intros rng used name rng' H; simpl in H;
    [discriminate|].
  destruct (choice rng adjectives) as [a r1].
  destruct (choice r1 nouns) as [n r2].
  destruct (list_in _ used) eqn:E; simpl in H.
  - now apply IH in H.
  - injection H as <- <-. rewrite <- list_in_spec. congruence.
Qed.

(** One iteration of the [for] loop. *)
Lemma generate_loop_step steps n rng hotels used res :
  generate steps (S n) rng hotels used = Returned res ->
  exists row r0 r1 r2 r3 r4 r5 r6,
    draw_name steps rng used = Some (row.(row_name), r0) /\
    row.(row_location) = fst (choice r1 cities) /\
    row.(row_price) = float_of_Z (fst (randint r2 50 800)) /\
    row.(row_rating) = round1 (fst (uniform r3 3 5)) /\
    fst (sample r5 amenities_pool (fst (randint r4 3 8))) = Some row.(row_amenities) /\
    generate steps n r6 (hotels ++ [row]) (row.(row_name) :: used) = Returned res.
Proof.
  simpl. destruct (draw_name steps rng used) as [[name r0]|] eqn:Ename;
    [|discriminate].
  destruct (choice r0 cities) as [location r1] eqn:E1.
  destruct (randint r1 50 800) as [price r2] eqn:E2.
  destruct (uniform r2 3 5) as [u r3] eqn:E3.
  destruct (randint r3 3 8) as [k r4] eqn:E4.
  destruct (sample r4 amenities_pool k) as [[amenities|] r5] eqn:E5; [|discriminate].
  destruct (choice r5 closing_phrases) as [phrase r6] eqn:E6.
  intros H.
  exists {| row_name := name; row_location := location;
            row_price := float_of_Z price; row_rating := round1 u;
            row_amenities := amenities;
            row_description :=
              ("Experience the " ++ name ++ " in " ++ location ++ ". " ++ phrase)%string |}.
  exists r0, r0, r1, r2, r3, r4, r6.
  cbn [row_name row_location row_price row_rating row_amenities].
  rewrite E1, E2, E3, E4. cbn [fst]. rewrite E5. repeat split. exact H.
Qed.

(** The loop adds [n] rows, under names that differ from one another and
    from those already used. *)
Lemma generate_loop_names steps : forall n rng hotels used rows rng',
  generate steps n rng hotels used = Returned (rows, rng') ->
  exists new,
    rows = (hotels ++ new)%list /\ List.length new = n /\
    (forall x, In x (map row_name new) -> ~ In x used) /\
    NoDup (map row_name new).
Proof.
  intros n. induction n as [|n IH]; intros rng hotels used rows rng' H.
  - simpl in H. injection H as <- <-. exists []. rewrite app_nil_r.
    repeat split; auto; constructor.
  - apply generate_loop_step in H.
    destruct H as [row [r0 [r1 [r2 [r3 [r4 [r5 [r6 [Hn [_ [_ [_ [_ H]]]]]]]]]]]]].
    destruct (IH _ _ _ _ _ H) as [new [-> [L [U D]]]].
    exists (row :: new). rewrite <- app_assoc. split; [reflexivity|].
    split; [simpl; now rewrite L|]. split.
    + intros x [<- | Hx].
      * exact (fresh_name_unused _ _ _ _ _ Hn).
      * intros Hin. apply (U x Hx). now right.
    + simpl. constructor; [|exact D].
      intros Hin. apply (U _ Hin). now left.
Qed.

(** A property of the rows that every iteration establishes for the row it
    adds holds of all the rows returned. *)
Lemma generate_loop_forall (P : HotelRow -> Prop) steps :
  (forall row rng used r0 r1 r2 r3 r4 r5,
     draw_name steps rng used = Some (row.(row_name), r0) ->
     row.(row_location) = fst (choice r1 cities) ->
     row.(row_price) = float_of_Z (fst (randint r2 50 800)) ->
     row.(row_rating) = round1 (fst (uniform r3 3 5)) ->
     fst (sample r5 amenities_pool (fst (randint r4 3 8))) = Some row.(row_amenities) ->
     P row) ->
  forall n rng hotels used rows rng',
    generate steps n rng hotels used = Returned (rows, rng') ->
    Forall P hotels -> Forall P rows.
Proof.
  intros Hstep n. induction n as [|n IH]; intros rng hotels used rows rng' H F.
  - simpl in H. now injection H as <- <-.
  - apply generate_loop_step in H.
    destruct H as [row [r0 [r1 [r2 [r3 [r4 [r5 [r6 [Hn [Hl [Hp [Hr [Ha H]]]]]]]]]]]]].
    apply (IH _ _ _ _ _ H). apply Forall_app. split; [exact F|].
    constructor; [|constructor]. eapply Hstep; eauto.
Qed.

(** What the module [random] promises of its functions. *)
Hypothesis choice_In : forall r l, l <> [] -> In (fst (choice r l)) l.

Lemma fresh_name_pool steps : forall rng used name rng',
  draw_name steps rng used = Some (name, rng') -> In name name_pool.
Proof.
  induction steps as [|steps IH]; intros rng used name rng' H; simpl in H;
    [discriminate|].
  pose proof (choice_In rng adjectives) as Ha.
  destruct (choice rng adjectives) as [a r1].
  pose proof (choice_In r1 nouns) as Hn.
  destruct (choice r1 nouns) as [n r2].
  destruct (list_in _ used) eqn:E; simpl in H.
  - now apply IH in H.
  - injection H as <- <-. unfold name_pool. apply in_flat_map.
    exists a. split; [apply Ha; discriminate|].
    apply in_map_iff. exists n. split; [reflexivity|]. apply Hn. discriminate.
Qed.

Hypothesis randint_range :
  forall r a b, (a <= b)%Z -> (a <= fst (randint r a b) <= b)%Z.
Hypothesis uniform_range :
  forall r a b, (a <=? b) = true ->
    (a <=? fst (uniform r a b)) = true /\ (fst (uniform r a b) <=? b) = true.
Hypothesis sample_spec :
  forall r population k l, fst (sample r population k) = Some l ->
    Z.of_nat (List.length l) = k /\ incl l population /\
    (NoDup population -> NoDup l).

Lemma generated_row_step steps row rng used r0 r1 r2 r3 r4 r5 :
  draw_name steps rng used = Some (row.(row_name), r0) ->
  row.(row_location) = fst (choice r1 cities) ->
  row.(row_price) = float_of_Z (fst (randint r2 50 800)) ->
  row.(row_rating) = round1 (fst (uniform r3 3 5)) ->
  fst (sample r5 amenities_pool (fst (randint r4 3 8))) = Some row.(row_amenities) ->
  generated_row row.
Proof.
  intros Hn Hl Hp Hr Ha. unfold generated_row.
  split; [exact (fresh_name_pool _ _ _ _ _ Hn)|].
  split; [rewrite Hl; apply choice_In; discriminate|].
  destruct (randint_range r2 50 800 ltac:(lia)) as [P1 P2].
  split; [rewrite Hp; split|].
  - exact (float_of_Z_mono 50 _ P1).
  - exact (float_of_Z_mono _ 800 P2).
  - destruct (uniform_range r3 3 5 eq_refl) as [U1 U2].
    split; [rewrite Hr; split|].
    + exact (round1_mono 3 _ U1).
    + exact (round1_mono _ 5 U2).
    + destruct (sample_spec _ _ _ _ Ha) as [S1 [S2 S3]].
      destruct (randint_range r4 3 8 ltac:(lia)) as [K1 K2].
      split; [lia|]. split; [|exact S2].
      apply S3. unfold amenities_pool.
      repeat (constructor; [simpl; intuition discriminate|]). constructor.
Qed.

(** X25. When [generate_hotels(count)] returns, it returns [count] rows and no
    two of them have the same name. *)
Theorem generate_hotels_names steps count rng rows rng' :
  generate_hotels Rand choice randint uniform sample steps count rng
  = Returned (rows, rng') ->
  List.length rows = Z.to_nat count /\ NoDup (map row_name rows).
Proof.
  intros H. apply generate_loop_names in H.
  destruct H as [new [-> [L [_ D]]]]. now split.
Qed.

(** X26. There are only 195 names to draw from: asked for more rows,
    [generate_hotels] never returns, however long it runs. *)
Theorem generate_hotels_exhausts_names steps count rng :
  (195 < count)%Z ->
  forall result,
    generate_hotels Rand choice randint uniform sample steps count rng
    <> Returned result.
Proof.
  intros Hc [rows rng'] H.
  destruct (generate_loop_names _ _ _ _ _ _ _ H) as [new [E [L [_ D]]]].
  simpl in E. subst new.
  assert (Forall (fun r => In r.(row_name) name_pool) rows) as F.
  { eapply (generate_loop_forall (fun r => In r.(row_name) name_pool) steps);
      [|exact H|constructor].
    intros row rng0 used r0 _ _ _ _ _ Hn _ _ _ _.
    exact (fresh_name_pool _ _ _ _ _ Hn). }
  assert (incl (map row_name rows) name_pool) as I.
  { intros x Hx. apply in_map_iff in Hx. destruct Hx as [r [<- Hr]].
    rewrite Forall_forall in F. now apply F. }
  pose proof (NoDup_incl_length D I) as Len.
  rewrite length_map, L in Len.
  change (List.length name_pool) with 195%nat in Len. lia.
Qed.

(** X27. When [generate_hotels] returns, every row has a name of the pool, one
    of the cities, a price within [[50, 800]], a rating within [[3, 5]] and
    three to eight different amenities of the pool. *)
Theorem generate_hotels_rows steps count rng rows rng' :
  generate_hotels Rand choice randint uniform sample steps count rng
  = Returned (rows, rng') ->
  Forall generated_row rows.
Proof.
  intros H.
  eapply (generate_loop_forall generated_row steps); [|exact H|constructor].
  intros row rng0 used r0 r1 r2 r3 r4 r5. apply generated_row_step.
Qed.

End SeedProofs.

(** *** The batches *)

Lemma range_step_covers stop step :
  (0 < step)%nat ->
  (stop <= (stop + step - 1) / step * step)%nat /\
  (forall k, (k < (stop + step - 1) / step)%nat -> (k * step < stop)%nat).
Proof.
  intros Hs.
  pose proof (Nat.div_mod_eq (stop + step - 1) step) as E.
  pose proof (Nat.mod_upper_bound (stop + step - 1) step ltac:(lia)) as B.
  split; [nia|]. intros k Hk. nia.
Qed.

Lemma chunks_concat {A : Type} (size : nat) : forall (m : nat) (l : list A),
  (List.length l <= m * size)%nat ->
  List.concat (map (fun i => firstn size (skipn i l)) (map (fun k => k * size)%nat (seq 0 m)))
  = l.
Proof.
  induction m as [|m IH]; intros l H.
  - destruct l; [reflexivity | simpl in H; lia].
  - simpl. rewrite <- seq_shift, !map_map.
    rewrite (map_ext _ (fun k => firstn size (skipn (k * size) (skipn size l)))).
    + rewrite <- (map_map (fun k => (k * size)%nat)
                   (fun i => firstn size (skipn i (skipn size l)))).
      rewrite IH; [apply firstn_skipn|]. rewrite length_skipn. lia.
    + intros k. rewrite skipn_skipn. do 2 f_equal. lia.
Qed.

Section SeedBatches.

Variable Store : Type.
Variable insert_batch : Store -> list HotelRow -> bool * Store.

Lemma seed_loop_fold hotels_data : forall offsets db,
  seed_loop Store insert_batch db hotels_data offsets =
  fold_left (fun db batch => snd (insert_batch db batch))
    (map (fun i => firstn batch_size (skipn i hotels_data)) offsets) db.
Proof.
  induction offsets as [|i rest IH]; intros db; [reflexivity|].
  cbn [seed_loop map fold_left].
  rewrite (py_slice_window hotels_data (Z.of_nat i) (Z.of_nat batch_size)) by lia.
  rewrite !Nat2Z.id.
  destruct (insert_batch db _) as [ok db']. cbn [snd]. apply IH.
Qed.

(** X28. The rows are sent to the store in batches that, one after the other,
    make up the rows in their order; each batch holds between one and
    twenty rows, and a batch that fails does not stop the later ones. *)
Theorem seed_rows_batches db hotels_data :
  exists batches,
    seed_rows Store insert_batch db hotels_data =
    fold_left (fun db batch => snd (insert_batch db batch)) batches db /\
    List.concat batches = hotels_data /\
    Forall (fun batch => (1 <= List.length batch <= 20)%nat) batches /\
    List.length batches = ((List.length hotels_data + 19) / 20)%nat.
Proof.
  unfold seed_rows. rewrite seed_loop_fold. eexists. split; [reflexivity|].
  unfold range_step, batch_size.
  destruct (range_step_covers (List.length hotels_data) 20 ltac:(lia)) as [C K].
  replace (List.length hotels_data + 20 - 1)%nat
    with (List.length hotels_data + 19)%nat in * by lia.
  split; [now apply chunks_concat|]. split.
  - apply Forall_forall. intros batch Hb.
    apply in_map_iff in Hb. destruct Hb as [i [<- Hi]].
    apply in_map_iff in Hi. destruct Hi as [k [<- Hk]].
    apply in_seq in Hk. rewrite length_firstn, length_skipn.
    specialize (K k ltac:(lia)). lia.
  - now rewrite !length_map, length_seq.
Qed.

End SeedBatches.

(** *** The whole script *)

Section SeedData.

Variable Rand : Type.
Variable choice : Rand -> list string -> string * Rand.
Variable randint : Rand -> Z -> Z -> Z * Rand.
Variable uniform : Rand -> float -> float -> float * Rand.
Variable sample : Rand -> list string -> Z -> option (list string) * Rand.
Variable Store : Type.
Variable insert_batch : Store -> list HotelRow -> bool * Store.

(** X29. When [seed_data] returns, it has sent the store five batches of twenty
    rows each, and no two of the hundred rows have the same name. *)
Theorem seed_data_batches steps rng db db' :
  seed_data Rand choice randint uniform sample Store insert_batch steps rng db
  = Returned db' ->
  exists batches,
    db' = fold_left (fun db batch => snd (insert_batch db batch)) batches db /\
    List.length batches = 5%nat /\
    Forall (fun batch => List.length batch = 20%nat) batches /\
    NoDup (map row_name (List.concat batches)).
Proof.
  unfold seed_data, generate_hotels.
  destruct (generate_loop _ _ _ _ _ steps (Z.to_nat 100) rng [] [])
    as [[rows rng']| |] eqn:G; try discriminate.
  intros [= <-]. apply generate_loop_names in G.
  destruct G as [new [-> [L [_ D]]]]. simpl app in *.
  unfold seed_rows. rewrite seed_loop_fold, L.
  change (range_step (Z.to_nat 100) batch_size)
    with (map (fun k => k * 20)%nat (seq 0 5)).
  eexists. split; [reflexivity|]. split; [reflexivity|].
  assert (List.length new = 100%nat) as L' by (rewrite L; reflexivity).
  split.
  - apply Forall_forall. intros batch Hb.
    apply in_map_iff in Hb. destruct Hb as [i [<- Hi]].
    apply in_map_iff in Hi. destruct Hi as [k [<- Hk]].
    apply in_seq in Hk. unfold batch_size.
    rewrite length_firstn, length_skipn, L'. lia.
  - unfold batch_size.
    rewrite (chunks_concat 20 5 new) by (rewrite L'; lia). exact D.
Qed.

End SeedData.

(** ** generate_recommendation_reason: the text of the remote *)

Lemma replace_newlines_chars s :
  ~ In newline (list_ascii_of_string (replace_newlines s)).
Proof.
  induction s as [|c s IH]; simpl; [tauto|].
  intros [H|H]; [|contradiction].
  destruct (Ascii.eqb_spec c newline) as [->|N]; [discriminate | contradiction].
Qed.

Lemma list_ascii_of_string_app (a b : string) :
  list_ascii_of_string (a ++ b) =
  (list_ascii_of_string a ++ list_ascii_of_string b)%list.
Proof. induction a as [|c a IH]; simpl; [reflexivity | now rewrite IH]. Qed.

Lemma is_substring_chars (a b : string) c :
  is_substring a b -> In c (list_ascii_of_string a) -> In c (list_ascii_of_string b).
Proof.
  intros [pre [post ->]] H. rewrite !list_ascii_of_string_app.
  apply in_or_app. right. apply in_or_app. now left.
Qed.

Section ReasonFurther.

Variable strip : string -> string.
Variable repr_float : float -> string.
Variable World : Type.
Variable API_KEY : option string.
Variable generate_content : World -> string -> option string * World.

(** [str.strip] returns a part of its argument. *)
Hypothesis strip_part : forall s, is_substring (strip s) s.

(** X30. A text the remote returns is given back on a single line: with its
    newlines replaced by spaces and stripped, it holds no newline. *)
Theorem reason_single_line w hotel user_pref score text :
  truthy API_KEY = true ->
  fst (generate_content w (reason_prompt repr_float hotel user_pref)) = Some text ->
  str_truthy text = true ->
  fst (generate_recommendation_reason strip repr_float World API_KEY
         generate_content w hotel user_pref score)
  = strip (replace_newlines text)
  /\ ~ In newline
         (list_ascii_of_string
            (fst (generate_recommendation_reason strip repr_float World API_KEY
                    generate_content w hotel user_pref score))).
Proof.
  intros Hk Ht Hn.
  assert (fst (generate_recommendation_reason strip repr_float World API_KEY
                 generate_content w hotel user_pref score)
          = strip (replace_newlines text)) as E.
  { unfold generate_recommendation_reason. rewrite Hk.
    destruct (generate_content w _) as [[t|] w']; simpl in *; [|discriminate].
    injection Ht as ->. now rewrite Hn. }
  split; [exact E|]. rewrite E. intros H.
  apply (replace_newlines_chars text).
  exact (is_substring_chars _ _ _ (strip_part _) H).
Qed.

End ReasonFurther.

(** ** The properties at work on the sample data *)

Lemma rerank_hotels_from_candidates_witness :
  Forall (fun r => In r.(r_hotel) three_hotels)
    (fst (rerank_hotels ascii_strip repr_tenths sample_loads unit (Some "key")
            (constant_remote (Some "RANKING")) tt three_hotels
            (sample_pref (Some "quiet"))))
  /\ (List.length
        (fst (rerank_hotels ascii_strip repr_tenths sample_loads unit (Some "key")
                (constant_remote (Some "RANKING")) tt three_hotels
                (sample_pref (Some "quiet")))) <= 4)%nat.
Proof.
  destruct (rerank_hotels_from_candidates ascii_strip repr_tenths sample_loads unit
              (Some "key") (constant_remote (Some "RANKING")) tt three_hotels
              (sample_pref (Some "quiet"))) as [H1 H2].
  split; [exact H1|].
  exact (H2 (match sample_ranking with JArr items => items | _ => [] end) eq_refl).
Defined.

Lemma rerank_hotels_ill_typed_index_witness :
  fst (rerank_hotels ascii_strip repr_tenths mixed_loads unit (Some "key")
         (constant_remote (Some "[]")) tt three_hotels (sample_pref (Some "quiet")))
  = [].
Proof.
  apply (rerank_hotels_ill_typed_index ascii_strip repr_tenths mixed_loads unit
           (Some "key") (constant_remote (Some "[]")) tt three_hotels
           (sample_pref (Some "quiet"))
           (match mixed_ranking with JArr items => items | _ => [] end)
           [("index", JStr "1"); ("score", JInt 80)] (JStr "1")).
  - reflexivity.
  - right. left. reflexivity.
  - reflexivity.
  - exact I.
Defined.

Lemma rerank_hotels_code_fence_witness :
  parsed_reply ascii_strip repr_tenths sample_loads unit
    (constant_remote (Some " ```jsonRANKING``` ")) tt three_hotels
    (sample_pref (Some "quiet"))
  = sample_loads "RANKING".
Proof.
  apply (rerank_hotels_code_fence ascii_strip repr_tenths sample_loads unit
           (constant_remote (Some " ```jsonRANKING``` ")) tt three_hotels
           (sample_pref (Some "quiet")) " ```jsonRANKING``` " "RANKING");
    reflexivity.
Defined.

Lemma search_hotels_page_witness :
  fst (search_hotels ascii_lower unit true sample_select tt None 0 1000 None 1 1) =
  [sample_hotel 2 150 4.5 ["WiFi"; "Gym"; "Spa"]]
  /\ (Z.of_nat (List.length
        (fst (search_hotels ascii_lower unit true sample_select tt None 0 1000
                None 1 1))) <= 1)%Z.
Proof.
  destruct (search_hotels_page ascii_lower unit true sample_select tt None 0 1000
              None 1 1 ltac:(lia) ltac:(lia)) as [H1 H2].
  split; [rewrite H1; reflexivity | exact H2].
Defined.

Lemma search_hotels_pages_join_witness :
  (fst (search_hotels ascii_lower unit true sample_select tt None 0 1000 None 0 1) ++
   fst (search_hotels ascii_lower unit true sample_select tt None 0 1000 None (0 + 1) 2))%list
  = fst (search_hotels ascii_lower unit true sample_select tt None 0 1000 None 0 (1 + 2)).
Proof.
  apply (search_hotels_pages_join ascii_lower unit true sample_select tt None 0 1000
           None 0 1 2); lia.
Defined.

Lemma search_hotels_negative_limit_witness :
  fst (search_hotels ascii_lower unit true sample_select tt None 0 1000 None 0 (-1)) =
  firstn 2 three_hotels.
Proof.
  rewrite (search_hotels_negative_limit ascii_lower unit true sample_select tt None
             0 1000 None 0 (-1) ltac:(lia) ltac:(lia)).
  reflexivity.
Defined.

Lemma recommendations_no_match_witness :
  fst (get_recommendations ascii_lower ascii_strip repr_tenths sample_loads unit
         (Some "key") (constant_remote (Some "RANKING")) true sample_select
         (fun _ => None) tt
         {| pref_location := Some "Atlantis"; min_price := 0; max_price := 200;
            required_amenities := []; trip_description := Some "quiet" |})
  = Some [].
Proof.
  apply (recommendations_no_match ascii_lower ascii_strip repr_tenths sample_loads
           unit (Some "key") (constant_remote (Some "RANKING")) true sample_select
           (fun _ => None) tt).
  reflexivity.
Defined.

Lemma store_unavailable_witness :
  fst (search_hotels ascii_lower unit false sample_select tt None 0 1000 None 0 10) = []
  /\ fst (get_recommendations ascii_lower ascii_strip repr_tenths sample_loads unit
            (Some "key") (constant_remote (Some "RANKING")) false sample_select
            (fun _ => None) tt (sample_pref (Some "quiet")))
     = Some [].
Proof.
  destruct (store_unavailable ascii_lower ascii_strip repr_tenths sample_loads unit
              (Some "key") (constant_remote (Some "RANKING")) false sample_select
              (fun _ => None) tt (or_introl eq_refl)) as [_ [H1 H2]].
  split; [apply H1 | apply H2].
Defined.

Lemma recommendations_without_key_witness :
  exists result,
    get_recommendations ascii_lower ascii_strip repr_tenths sample_loads unit
      None (constant_remote (Some "RANKING")) true sample_select
      (fun _ => None) tt (sample_pref (Some "quiet"))
    = (Some result, tt) /\
    result =
      [ {| hotel := sample_hotel 2 150 4.5 ["WiFi"; "Gym"; "Spa"]; score := 85;
           reasoning := "This hotel is a great match located in New York with a rating of 4.5. It costs $150.0 per night." |};
        {| hotel := sample_hotel 1 80 4 ["WiFi"; "Pool"]; score := 76;
           reasoning := "This hotel is a great match located in New York with a rating of 4.0. It costs $80.0 per night." |} ].
Proof.
  destruct (recommendations_without_key ascii_lower ascii_strip repr_tenths
              sample_loads unit None (constant_remote (Some "RANKING")) true
              sample_select (fun _ => None) tt (sample_pref (Some "quiet")) eq_refl)
    as [result [E [_ O]]].
  exists result. split; [exact E|].
  destruct O as [-> _]; [|reflexivity].
  intros h Hin. vm_compute in Hin.
  repeat (destruct Hin as [<- | Hin]; [reflexivity|]). destruct Hin.
Defined.


Lemma recommendations_reranked_witness :
  exists result,
    fst (get_recommendations ascii_lower ascii_strip repr_tenths sample_loads unit
           (Some "key") (constant_remote (Some "RANKING")) true sample_select
           (fun r => Some {| hotel := r.(r_hotel); score := 0; reasoning := "" |})
           tt (sample_pref (Some "quiet")))
    = Some result /\
    Forall (fun x => In x.(hotel)
                       (top_candidates
                          (filter_hotels ascii_lower three_hotels (Some "New York")
                             0 200 [])
                          (sample_pref (Some "quiet"))))
      result /\
    List.length result = 2%nat.
Proof.
  eexists. split; [reflexivity|].
  apply (recommendations_reranked ascii_lower ascii_strip repr_tenths sample_loads
           unit (Some "key") (constant_remote (Some "RANKING")) true sample_select
           (fun r => Some {| hotel := r.(r_hotel); score := 0; reasoning := "" |})
           tt (sample_pref (Some "quiet"))).
  - intros r x [= <-]. reflexivity.
  - intros h Hin. vm_compute in Hin.
    repeat (destruct Hin as [<- | Hin]; [reflexivity|]). destruct Hin.
  - reflexivity.
  - discriminate.
  - reflexivity.
Defined.

Lemma recommendations_keep_order_witness :
  exists result,
    fst (get_recommendations ascii_lower ascii_strip repr_tenths sample_loads unit
           None (constant_remote None) true
           (fun w => (Some [sample_hotel 2 150 4.5 ["WiFi"; "Gym"; "Spa"];
                            sample_hotel 1 80 4 ["WiFi"; "Pool"]], w))
           (fun _ => None) tt (sample_pref None))
    = Some result /\
    map hotel result =
    [sample_hotel 2 150 4.5 ["WiFi"; "Gym"; "Spa"]; sample_hotel 1 80 4 ["WiFi"; "Pool"]].
Proof.
  apply (recommendations_keep_order ascii_lower ascii_strip repr_tenths sample_loads
           unit None (constant_remote None) true
           (fun w => (Some [sample_hotel 2 150 4.5 ["WiFi"; "Gym"; "Spa"];
                            sample_hotel 1 80 4 ["WiFi"; "Pool"]], w))
           (fun _ => None) tt (sample_pref None)).
  - left. reflexivity.
  - repeat constructor.
Defined.

Lemma requests_need_token_witness :
  create_hotel_request (list Hotel) true list_insert [] "guess"
    (sample_hotel 9 120 4 ["WiFi"])
  = (inl {| status_code := 400; detail := "Invalid X-Token header" |}, [])
  /\ create_booking_request [] "guess"
       {| hotel_id := 9; user_email := "guest@example.org"; guest_name := "Ada" |}
     = (inl {| status_code := 400; detail := "Invalid X-Token header" |}, []).
Proof.
  assert ("guess" <> "secret-token") as N by discriminate.
  destruct (requests_need_token repr_tenths (list Hotel) true list_insert list_delete
              list_update "guess" N) as [H1 [_ [_ H4]]].
  split; [apply H1 | apply H4].
Defined.

Lemma admin_store_unavailable_witness :
  delete_hotel_request (list Hotel) false list_delete three_hotels "secret-token" 2
  = (inl {| status_code := 503; detail := "Database unavailable" |}, three_hotels).
Proof.
  destruct (admin_store_unavailable repr_tenths (list Hotel) false list_insert
              list_delete list_update eq_refl) as [_ [H2 _]].
  apply H2.
Defined.

Lemma request_success_witness :
  fst (delete_hotel_request (list Hotel) true list_delete three_hotels
         "secret-token" 2)
  = inr {| message := "Hotel 2 deleted"; data := JArr [] |}
  /\ (forall reply,
        fst (update_hotel_price_request repr_tenths (list Hotel) true list_update
               three_hotels "secret-token" 2 99) <> inr reply)
  /\ create_booking_request [] "secret-token"
       {| hotel_id := 9; user_email := "guest@example.org"; guest_name := "Ada" |}
     = (inr {| status := "confirmed";
               booking_message :=
                 "Booking received! Confirmation email will be sent shortly.";
               user := "Ada" |},
        [{| email := "guest@example.org"; hotel_name := "9" |}]).
Proof.
  destruct (request_success repr_tenths (list Hotel) true list_insert list_delete
              list_update three_hotels "secret-token") as [_ [H2 [H3 H4]]].
  split; [|split].
  - apply H2. repeat split. exists (JArr []). split; reflexivity.
  - intros reply H. apply H3 in H. destruct H as [_ [_ [d [E _]]]]. discriminate E.
  - apply H4. repeat split.
Defined.

(** The walking generator keeps the promises of the module [random]. *)
Lemma walk_choice_In r l : l <> [] -> In (fst (walk_choice r l)) l.
Proof.
  intros H. simpl. apply nth_In. apply Nat.mod_upper_bound.
  destruct l; [contradiction | discriminate].
Qed.

Lemma walk_randint_range r a b :
  (a <= b)%Z -> (a <= fst (walk_randint r a b) <= b)%Z.
Proof.
  intros H. simpl.
  pose proof (Z.mod_pos_bound (Z.of_nat r) (b - a + 1) ltac:(lia)). lia.
Qed.

Lemma walk_uniform_range r a b :
  (a <=? b) = true ->
  (a <=? fst (walk_uniform r a b)) = true /\ (fst (walk_uniform r a b) <=? b) = true.
Proof.
  intros H. simpl. split; [|exact H].
  apply leb_refl. apply leb_iff in H. tauto.
Qed.

Lemma walk_sample_spec r population k l :
  fst (walk_sample r population k) = Some l ->
  Z.of_nat (List.length l) = k /\ incl l population /\
  (NoDup population -> NoDup l).
Proof.
  unfold walk_sample.
  destruct ((0 <=? k)%Z && (k <=? Z.of_nat (List.length population))%Z) eqn:E;
    simpl; [|discriminate].
  intros [= <-]. apply andb_true_iff in E. destruct E as [E1 E2].
  split; [rewrite length_firstn; lia|]. split.
  - intros x Hx. rewrite <- (firstn_skipn (Z.to_nat k) population).
    apply in_or_app. now left.
  - intros D. rewrite <- (firstn_skipn (Z.to_nat k) population) in D.
    now apply NoDup_app_remove_r in D.
Qed.

Lemma generate_hotels_names_witness :
  exists rows rng',
    generate_hotels nat walk_choice walk_randint walk_uniform walk_sample 3 4 0%nat
    = Returned (rows, rng') /\
    List.length rows = 4%nat /\ NoDup (map row_name rows).
Proof.
  eexists _, _. split; [vm_compute; reflexivity|].
  eapply (generate_hotels_names nat walk_choice walk_randint walk_uniform walk_sample
            3 4 0%nat).
  vm_compute. reflexivity.
Defined.

Lemma generate_hotels_exhausts_names_witness :
  match generate_hotels nat walk_choice walk_randint walk_uniform walk_sample
          2 196 0%nat with
  | Returned _ => False
  | Raised | Running => True
  end.
Proof.
  destruct (generate_hotels nat walk_choice walk_randint walk_uniform walk_sample
              2 196 0%nat) as [result| |] eqn:E; [|exact I|exact I].
  exact (generate_hotels_exhausts_names nat walk_choice walk_randint walk_uniform
           walk_sample walk_choice_In 2 196 0%nat ltac:(lia) result E).
Defined.

Lemma generate_hotels_rows_witness :
  exists rows rng',
    generate_hotels nat walk_choice walk_randint walk_uniform walk_sample 3 4 0%nat
    = Returned (rows, rng') /\
    Forall generated_row rows.
Proof.
  eexists _, _. split; [vm_compute; reflexivity|].
  eapply (generate_hotels_rows nat walk_choice walk_randint walk_uniform walk_sample
           walk_choice_In walk_randint_range walk_uniform_range walk_sample_spec
           3 4 0%nat).
  vm_compute. reflexivity.
Defined.

Lemma seed_rows_batches_witness :
  exists batches,
    seed_rows (list (list HotelRow)) log_insert [] (repeat
      {| row_name := "Cozy Inn"; row_location := "Rome"; row_price := 90;
         row_rating := 4; row_amenities := ["WiFi"]; row_description := "" |} 45)
    = fold_left (fun db batch => snd (log_insert db batch)) batches [] /\
    List.concat batches = repeat
      {| row_name := "Cozy Inn"; row_location := "Rome"; row_price := 90;
         row_rating := 4; row_amenities := ["WiFi"]; row_description := "" |} 45 /\
    List.length batches = 3%nat.
Proof.
  destruct (seed_rows_batches (list (list HotelRow)) log_insert [] (repeat
      {| row_name := "Cozy Inn"; row_location := "Rome"; row_price := 90;
         row_rating := 4; row_amenities := ["WiFi"]; row_description := "" |} 45))
    as [batches [H1 [H2 [_ H4]]]].
  exists batches. repeat split; assumption.
Defined.

Lemma seed_data_batches_witness :
  exists db' batches,
    seed_data nat walk_choice walk_randint walk_uniform walk_sample
      (list (list HotelRow)) log_insert 200 0%nat [] = Returned db' /\
    db' = fold_left (fun db batch => snd (log_insert db batch)) batches [] /\
    List.length batches = 5%nat /\
    Forall (fun batch => List.length batch = 20%nat) batches /\
    NoDup (map row_name (List.concat batches)).
Proof.
  assert (exists db',
            seed_data nat walk_choice walk_randint walk_uniform walk_sample
              (list (list HotelRow)) log_insert 200 0%nat [] = Returned db')
    as [db' E] by (eexists; vm_compute; reflexivity).
  destruct (seed_data_batches nat walk_choice walk_randint walk_uniform walk_sample
              (list (list HotelRow)) log_insert 200 0%nat [] db' E)
    as [batches H].
  exists db', batches. split; [exact E | exact H].
Defined.

(** The ASCII reading of [str.strip] returns a part of its argument. *)
Lemma lstrip_suffix s : exists pre, s = (pre ++ lstrip s)%string.
Proof.
  induction s as [|c s [pre IH]]; simpl.
  - now exists "".
  - destruct (is_space c).
    + exists (String c pre). simpl. now rewrite <- IH.
    + now exists "".
Qed.

Lemma rstrip_prefix s : exists post, s = (rstrip s ++ post)%string.
Proof.
  induction s as [|c s [post IH]]; simpl.
  - now exists "".
  - destruct (rstrip s) as [|d r] eqn:E.
    + destruct (is_space c).
      * now exists (String c s).
      * exists s. reflexivity.
    + exists post. simpl in IH |- *. now rewrite <- IH.
Qed.

Lemma ascii_strip_part s : is_substring (ascii_strip s) s.
Proof.
  unfold ascii_strip, is_substring.
  destruct (lstrip_suffix s) as [pre E1].
  destruct (rstrip_prefix (lstrip s)) as [post E2].
  exists pre, post. now rewrite <- E2.
Qed.

Lemma reason_single_line_witness :
  fst (generate_recommendation_reason ascii_strip repr_tenths unit (Some "key")
         (constant_remote (Some two_line_reply))
         tt (sample_hotel 2 150 4.5 ["WiFi"]) (sample_pref None) 67)
  = "Close to the park. Quiet rooms.".
Proof.
  refine (eq_trans (proj1 (reason_single_line ascii_strip repr_tenths unit (Some "key")
            (constant_remote (Some two_line_reply))
            ascii_strip_part tt (sample_hotel 2 150 4.5 ["WiFi"]) (sample_pref None) 67
            two_line_reply eq_refl eq_refl eq_refl))
            eq_refl).
Defined.
